(** * Vehicle routing heuristics: nearest neighbour, Clarke-Wright savings, 2-opt

    A shallow embedding of [nearest_neighbor_heuristic.py],
    [savings_algorithm.py] and [two_opt_improvement.py].

    Conventions of the embedding.
    - A customer is its zero-based index ([nat]); a route is a [list nat].
    - Python floats are read as exact rationals ([Q]); the threshold literal
      [0.001] is [1#1000].  Equalities between distances are [Qeq].
    - [self.distance_matrix] is a field of the problem: the lookup
      [distance_matrix[a][b]] is [distance_matrix P a b].  The matrix is filled
      by [_compute_distance_matrix] with Euclidean distances, hence its entries
      are non-negative ([dist_nonneg]); no other property of it is used.
    - [self.demands[c]] is [demands P c]; demands and the capacity are
      integers ([Z]).  Index errors of the source (a route naming a customer
      that does not exist) are outside the model.
    - The [while] loops of the improver take a fuel argument and return
      [None] when the fuel runs out; their termination is proved.  The two
      [while] loops of the nearest-neighbour constructor run a bounded
      number of times by construction, and their fuel is that bound. *)

From Stdlib Require Import QArith Qround Lqa.
From stdpp Require Import base list sorting strings gmap.

#[local] Open Scope nat_scope.

(** ** The problem instance shared by the three solver classes *)

Record Problem := {
  distance_matrix : nat → nat → Q;
  demands : nat → Z;
  vehicle_capacity : Z;
  num_vehicles : nat;
  num_customers : nat
}.

Definition dist_nonneg (P : Problem) : Prop :=
  ∀ a b, (0 <= distance_matrix P a b)%Q.

(** Strict comparison of floats, [a < b]. *)
Definition Qltb (a b : Q) : bool := negb (Qle_bool b a).

(** The literal [0.001]. *)
Definition threshold : Q := 1 # 1000.

(** [sum(...)] over rationals and over integers, adding from the left
    starting at [0] as Python's [sum] does. *)
Definition sumQ (l : list Q) : Q := fold_left Qplus l 0%Q.
Definition sumZ (l : list Z) : Z := fold_left Z.add l 0%Z.

(** [route[-1]] of a non-empty route. *)
Definition last_customer (route : list nat) : nat := default 0 (last route).

(** [route[0]] of a non-empty route. *)
Definition first_customer (route : list nat) : nat := default 0 (head route).

(** ** Values, dictionaries and exceptions

    [get_route_info] returns a dictionary with string keys, or raises. *)

Inductive value :=
  | VInt (z : Z)
  | VFloat (q : Q)
  | VBool (b : bool)
  | VList (l : list nat).

Inductive exn := ZeroDivisionError.

Inductive outcome (A : Type) :=
  | Returns (a : A)
  | Raises (e : exn).
Arguments Returns {A} a.
Arguments Raises {A} e.

(** [total_load / self.vehicle_capacity]: true division of integers. *)
Definition true_div (a b : Z) : outcome Q :=
  if bool_decide (b = 0%Z) then Raises ZeroDivisionError
  else Returns (inject_Z a / inject_Z b)%Q.

(** ** The distance model

    [_euclidean_distance] and [_compute_distance_matrix] are the same
    methods in the three classes.  [math.sqrt] is a parameter. *)

Section DistanceModel.
Variable sqrt : Q → Q.

Definition _euclidean_distance (point1 point2 : Q * Q) : Q :=
  sqrt ((point1.1 - point2.1) ^ 2 + (point1.2 - point2.2) ^ 2).

(** [matrix = [[0.0] * n for _ in range(n)]] with every entry [i != j]
    assigned the distance of the two points. *)
Definition _compute_distance_matrix (depot : Q * Q)
    (customers : list (Q * Q)) : list (list Q) :=
  let points := depot :: customers in
  let n := length points in
  (λ i,
     (λ j, if bool_decide (i ≠ j)
           then _euclidean_distance (nth i points (0, 0)%Q)
                  (nth j points (0, 0)%Q)
           else 0%Q) <$> seq 0 n) <$> seq 0 n.

(** The fields [__init__] sets, with the lookups [distance_matrix[a][b]]
    and [demands[c]]. *)
Definition make_problem (depot : Q * Q) (customers : list (Q * Q))
    (demand_list : list Z) (capacity : Z) (vehicles : nat) : Problem :=
  {| distance_matrix :=
       λ a b, nth b (nth a (_compute_distance_matrix depot customers) []) 0%Q;
     demands := λ c, nth c demand_list 0%Z;
     vehicle_capacity := capacity;
     num_vehicles := vehicles;
     num_customers := length customers |}.

End DistanceModel.

(** ** [two_opt_improvement.py] *)

Module TwoOptVRP.

Record Solution := {
  routes : list (list nat);
  total_distance : Q;
  num_vehicles_used : nat;
  improvement_iterations : nat;
  feasible : bool
}.

(** The local variables of the two [while] loops. *)
Record LoopState := {
  current_routes : list (list nat);
  current_distance : Q;
  improvement_found : bool;
  iterations_without_improvement : Z;
  total_iterations : nat
}.

Section Solver.
Variable P : Problem.

(** The [for i in range(len(route) - 1)] loop of
    [_calculate_route_distance], threading the accumulator [distance]. *)
Fixpoint add_legs (distance : Q) (route : list nat) : Q :=
  match route with
  | a :: (b :: _) as rest =>
      add_legs (distance + distance_matrix P (a + 1) (b + 1)) rest
  | _ => distance
  end.

Definition _calculate_route_distance (route : list nat) : Q :=
  match route with
  | [] => 0
  | c0 :: _ =>
      add_legs (0 + distance_matrix P 0 (c0 + 1)) route
      + distance_matrix P (last_customer route + 1) 0
  end.

Definition _calculate_total_distance (rs : list (list nat)) : Q :=
  sumQ (_calculate_route_distance <$> rs).

Definition route_demand (route : list nat) : Z :=
  sumZ (demands P <$> route).

Definition _is_route_feasible (route : list nat) : bool :=
  (route_demand route <=? vehicle_capacity P)%Z.

Definition _check_feasibility (rs : list (list nat)) : bool :=
  forallb _is_route_feasible rs.

(** [new_route[i+1:j+1] = reversed(new_route[i+1:j+1])] on a copy of
    [route]. *)
Definition two_opt_move (route : list nat) (i j : nat) : list nat :=
  take (i + 1) route
  ++ reverse (take (j + 1 - (i + 1)) (drop (i + 1) route))
  ++ drop (j + 1) route.

(** The pairs [(i, j)] visited by
    [for i in range(n - 1): for j in range(i + 2, n)], in order. *)
Definition edge_pairs (n : nat) : list (nat * nat) :=
  flat_map (λ i, (λ j, (i, j)) <$> seq (i + 2) (n - (i + 2))) (seq 0 (n - 1)).

(** Body of the inner loop of [_improve_route_2opt]; the state is
    [(best_route, best_improvement)], and [best_distance] is never
    reassigned by the source. *)
Definition try_move (route : list nat) (best_distance : Q)
    (best : list nat * Q) (ij : nat * nat) : list nat * Q :=
  let new_route := two_opt_move route ij.1 ij.2 in
  if negb (_is_route_feasible new_route) then best
  else
    let new_distance := _calculate_route_distance new_route in
    let improvement := (best_distance - new_distance)%Q in
    if Qltb best.2 improvement then (new_route, improvement) else best.

Definition _improve_route_2opt (route : list nat) : list nat * Q :=
  let best_distance := _calculate_route_distance route in
  fold_left (try_move route best_distance) (edge_pairs (length route))
    (route, 0%Q).

(** The [for route_idx, route in enumerate(current_routes)] loop of
    [improve_solution]: the first route, from index [route_idx] on, whose
    best move improves by more than the threshold, with its replacement. *)
Fixpoint scan_routes (route_idx : nat) (rs : list (list nat))
    : option (nat * list nat * Q) :=
  match rs with
  | [] => None
  | route :: rest =>
      if length route <? 3 then scan_routes (S route_idx) rest
      else
        let '(improved_route, improvement) := _improve_route_2opt route in
        if Qltb threshold improvement
        then Some (route_idx, improved_route, improvement)
        else scan_routes (S route_idx) rest
  end.

(** One pass of the [while] loop of [improve_solution]. *)
Definition improve_pass (st : LoopState) : LoopState :=
  match scan_routes 0 (current_routes st) with
  | Some (route_idx, improved_route, improvement) =>
      {| current_routes := <[route_idx := improved_route]> (current_routes st);
         current_distance := current_distance st - improvement;
         improvement_found := true;
         iterations_without_improvement := 0;
         total_iterations := total_iterations st + 1 |}
  | None =>
      {| current_routes := current_routes st;
         current_distance := current_distance st;
         improvement_found := false;
         iterations_without_improvement :=
           iterations_without_improvement st + 1;
         total_iterations := total_iterations st + 1 |}
  end.

(** [while improvement_found and iterations_without_improvement <
    max_iterations: body]. *)
Fixpoint run_loop (body : LoopState → LoopState) (max_iterations : Z)
    (fuel : nat) (st : LoopState) : option LoopState :=
  if improvement_found st
     && (iterations_without_improvement st <? max_iterations)%Z
  then
    match fuel with
    | O => None
    | S fuel' => run_loop body max_iterations fuel' (body st)
    end
  else Some st.

Definition initial_state (rs : list (list nat)) : LoopState :=
  {| current_routes := rs;
     current_distance := _calculate_total_distance rs;
     improvement_found := true;
     iterations_without_improvement := 0;
     total_iterations := 0 |}.

Definition solution_of (st : LoopState) : Solution :=
  {| routes := current_routes st;
     total_distance := current_distance st;
     num_vehicles_used := length (current_routes st);
     improvement_iterations := total_iterations st;
     feasible := _check_feasibility (current_routes st) |}.

Definition improve_solution (fuel : nat) (initial_routes : list (list nat))
    (max_iterations : Z) : option Solution :=
  solution_of <$>
    run_loop improve_pass max_iterations fuel (initial_state initial_routes).

(** *** Inter-route customer swap *)

(** A swap candidate: route indices [i < j] and positions [ci], [cj]. *)
Definition swap_candidates (rs : list (list nat))
    : list (nat * nat * nat * nat) :=
  flat_map (λ i,
    flat_map (λ j,
      let ri := rs !!! i in
      let rj := rs !!! j in
      if bool_decide (ri = []) || bool_decide (rj = []) then []
      else
        flat_map (λ ci, (λ cj, (i, j, ci, cj)) <$> seq 0 (length rj))
          (seq 0 (length ri)))
      (seq (i + 1) (length rs - (i + 1))))
    (seq 0 (length rs)).

(** [new_route_i[ci], new_route_j[cj] = new_route_j[cj], new_route_i[ci]]
    on copies of the two routes. *)
Definition swap_customers (ri rj : list nat) (ci cj : nat)
    : list nat * list nat :=
  (<[ci := rj !!! cj]> ri, <[cj := ri !!! ci]> rj).

(** The test guarding the assignment in the innermost loop. *)
Definition swap_improves (rs : list (list nat)) (c : nat * nat * nat * nat)
    : bool :=
  let '(i, j, ci, cj) := c in
  let '(new_route_i, new_route_j) := swap_customers (rs !!! i) (rs !!! j) ci cj in
  _is_route_feasible new_route_i && _is_route_feasible new_route_j
  && Qltb (_calculate_route_distance new_route_i
           + _calculate_route_distance new_route_j)
          (_calculate_route_distance (rs !!! i)
           + _calculate_route_distance (rs !!! j) - threshold).

(** One pass of the [while] loop of [inter_route_2opt]: the four nested
    [for] loops visit the candidates in order and the first one that
    passes the test is applied, after which every loop is left. *)
Definition inter_pass (st : LoopState) : LoopState :=
  let rs := current_routes st in
  match find (swap_improves rs) (swap_candidates rs) with
  | Some (i, j, ci, cj) =>
      let '(new_route_i, new_route_j) :=
        swap_customers (rs !!! i) (rs !!! j) ci cj in
      let old_distance :=
        (_calculate_route_distance (rs !!! i)
         + _calculate_route_distance (rs !!! j))%Q in
      let new_distance :=
        (_calculate_route_distance new_route_i
         + _calculate_route_distance new_route_j)%Q in
      let improvement := (old_distance - new_distance)%Q in
      {| current_routes := <[j := new_route_j]> (<[i := new_route_i]> rs);
         current_distance := current_distance st - improvement;
         improvement_found := true;
         iterations_without_improvement := 0;
         total_iterations := total_iterations st + 1 |}
  | None =>
      {| current_routes := rs;
         current_distance := current_distance st;
         improvement_found := false;
         iterations_without_improvement :=
           iterations_without_improvement st + 1;
         total_iterations := total_iterations st + 1 |}
  end.

Definition inter_route_2opt (fuel : nat) (rs : list (list nat))
    (max_iterations : Z) : option Solution :=
  solution_of <$> run_loop inter_pass max_iterations fuel (initial_state rs).

(** [get_route_info]; the values of the dictionary are computed in the
    order of its keys, so the division raises before [feasible] is looked
    at. *)
Definition get_route_info (route : list nat) : outcome (gmap string value) :=
  if bool_decide (route = []) then
    Returns (<["distance" := VInt 0]> (<["load" := VInt 0]>
              (<["customers" := VList []]> ∅)))
  else
    let total_load := route_demand route in
    let distance := _calculate_route_distance route in
    match true_div total_load (vehicle_capacity P) with
    | Raises e => Raises e
    | Returns utilization =>
        Returns (<["distance" := VFloat distance]>
                  (<["load" := VInt total_load]>
                    (<["customers" := VList route]>
                      (<["capacity_utilization" := VFloat utilization]>
                        (<["feasible" := VBool (_is_route_feasible route)]>
                           ∅)))))
    end.

End Solver.
End TwoOptVRP.

(** ** [nearest_neighbor_heuristic.py] *)

Module NearestNeighborVRP.

Record Solution := {
  routes : list (list nat);
  total_distance : Q;
  num_vehicles_used : nat;
  unvisited_customers : list nat;
  feasible : bool
}.

(** The local variables of the [while unvisited] loop of
    [_construct_route], with the set [unvisited] it mutates.  The set is a
    list without repetitions, iterated in list order; [solve] starts from
    [set(range(n))], which CPython iterates in increasing order. *)
Record RouteState := {
  unvisited : list nat;
  route : list nat;
  current_load : Z;
  current_position : nat;
  route_distance : Q
}.

(** The local variables of the [while] loop of [solve]. *)
Record SolveState := {
  solve_unvisited : list nat;
  solve_routes : list (list nat);
  solve_total_distance : Q;
  vehicle_count : nat
}.

Section Solver.
Variable P : Problem.

(** Body of [for customer_idx in unvisited]; the state is
    [(nearest_customer, nearest_distance)], and [None] stands for
    [(None, float('inf'))], below which every distance lies. *)
Definition consider (load : Z) (position : nat)
    (nearest : option (nat * Q)) (customer_idx : nat) : option (nat * Q) :=
  if (load + demands P customer_idx <=? vehicle_capacity P)%Z then
    let distance := distance_matrix P position (customer_idx + 1) in
    match nearest with
    | None => Some (customer_idx, distance)
    | Some (_, nearest_distance) =>
        if Qltb distance nearest_distance
        then Some (customer_idx, distance) else nearest
    end
  else nearest.

Definition find_nearest (st : RouteState) : option (nat * Q) :=
  fold_left (consider (current_load st) (current_position st))
    (unvisited st) None.

(** [while unvisited: ...] of [_construct_route].  Every iteration that
    does not [break] removes a customer from [unvisited], so the size of
    the set bounds the number of iterations; [fuel] is that bound. *)
Fixpoint construct_loop (fuel : nat) (st : RouteState) : RouteState :=
  match fuel with
  | O => st
  | S fuel' =>
      if bool_decide (unvisited st = []) then st
      else
        match find_nearest st with
        | None => st
        | Some (nearest_customer, nearest_distance) =>
            construct_loop fuel'
              {| unvisited := filter (λ c, c ≠ nearest_customer) (unvisited st);
                 route := route st ++ [nearest_customer];
                 current_load :=
                   current_load st + demands P nearest_customer;
                 current_position := nearest_customer + 1;
                 route_distance := route_distance st + nearest_distance |}
        end
  end.

(** Returns [(route, route_distance)] and the set [unvisited] as the call
    leaves it. *)
Definition _construct_route (unvisited0 : list nat)
    : list nat * Q * list nat :=
  if bool_decide (unvisited0 = []) then ([], 0%Q, unvisited0)
  else
    let st :=
      construct_loop (length unvisited0)
        {| unvisited := unvisited0; route := []; current_load := 0;
           current_position := 0; route_distance := 0 |} in
    let route_distance' :=
      if bool_decide (route st = []) then route_distance st
      else (route_distance st
            + distance_matrix P (current_position st) 0)%Q in
    (route st, route_distance', unvisited st).

(** [while unvisited and vehicle_count < self.num_vehicles: ...] of
    [solve].  Every iteration that does not [break] increments
    [vehicle_count]; [fuel] bounds the number of iterations. *)
Fixpoint solve_loop (fuel : nat) (st : SolveState) : SolveState :=
  match fuel with
  | O => st
  | S fuel' =>
      if negb (bool_decide (solve_unvisited st = []))
         && (vehicle_count st <? num_vehicles P)
      then
        let '(route, route_distance, unvisited') :=
          _construct_route (solve_unvisited st) in
        if negb (bool_decide (route = [])) then
          solve_loop fuel'
            {| solve_unvisited := unvisited';
               solve_routes := solve_routes st ++ [route];
               solve_total_distance :=
                 solve_total_distance st + route_distance;
               vehicle_count := vehicle_count st + 1 |}
        else
          {| solve_unvisited := unvisited';
             solve_routes := solve_routes st;
             solve_total_distance := solve_total_distance st;
             vehicle_count := vehicle_count st |}
      else st
  end.

Definition solve : Solution :=
  let st :=
    solve_loop (num_vehicles P)
      {| solve_unvisited := seq 0 (num_customers P);
         solve_routes := [];
         solve_total_distance := 0;
         vehicle_count := 0 |} in
  {| routes := solve_routes st;
     total_distance := solve_total_distance st;
     num_vehicles_used := length (solve_routes st);
     unvisited_customers := solve_unvisited st;
     feasible := bool_decide (length (solve_unvisited st) = 0) |}.

(** [get_route_info], which computes the route distance itself. *)
Definition get_route_info (route : list nat) : outcome (gmap string value) :=
  match route with
  | [] =>
      Returns (<["distance" := VInt 0]> (<["load" := VInt 0]>
                (<["customers" := VList []]> ∅)))
  | c0 :: _ =>
      let total_load := sumZ (demands P <$> route) in
      let distance :=
        (TwoOptVRP.add_legs P (distance_matrix P 0 (c0 + 1)) route
         + distance_matrix P (last_customer route + 1) 0)%Q in
      match true_div total_load (vehicle_capacity P) with
      | Raises e => Raises e
      | Returns utilization =>
          Returns (<["distance" := VFloat distance]>
                    (<["load" := VInt total_load]>
                      (<["customers" := VList route]>
                        (<["capacity_utilization" := VFloat utilization]>
                           ∅))))
      end
  end.

End Solver.
End NearestNeighborVRP.

(** ** [savings_algorithm.py] *)

(** [list.sort(key=..., reverse=...)] is stable; [before x y] tells that
    [x] may stand before [y].  An element is inserted in front of the
    sorted rest of the list, ahead of the elements with an equal key. *)
Fixpoint insert_sorted {A} (before : A → A → bool) (x : A) (l : list A)
    : list A :=
  match l with
  | [] => [x]
  | y :: l' =>
      if before x y then x :: y :: l' else y :: insert_sorted before x l'
  end.

Definition stable_sort {A} (before : A → A → bool) (l : list A) : list A :=
  foldr (insert_sorted before) [] l.

Module SavingsAlgorithmVRP.

Record Solution := {
  routes : list (list nat);
  total_distance : Q;
  num_vehicles_used : nat;
  unvisited_customers : list nat;
  feasible : bool
}.

(** The three structures [solve] updates while it merges. *)
Record MergeState := {
  merge_routes : list (list nat);
  route_loads : list Z;
  customer_to_route : gmap nat nat
}.

Section Solver.
Variable P : Problem.

Definition _calculate_route_distance (route : list nat) : Q :=
  TwoOptVRP._calculate_route_distance P route.

Definition savings_value (i j : nat) : Q :=
  distance_matrix P 0 (i + 1) + distance_matrix P 0 (j + 1)
  - distance_matrix P (i + 1) (j + 1).

(** The pairs visited by
    [for i in range(n): for j in range(i + 1, n)], in order. *)
Definition customer_pairs (n : nat) : list (nat * nat) :=
  flat_map (λ i, (λ j, (i, j)) <$> seq (i + 1) (n - (i + 1))) (seq 0 n).

(** The list [savings] before it is sorted. *)
Definition unsorted_savings : list (nat * nat * Q) :=
  (λ ij, (ij.1, ij.2, savings_value ij.1 ij.2))
    <$> customer_pairs (num_customers P).

(** [savings.sort(key=itemgetter(2), reverse=True)]. *)
Definition _calculate_savings : list (nat * nat * Q) :=
  stable_sort (λ x y, Qle_bool y.2 x.2) unsorted_savings.

Definition savings_list : list (nat * nat * Q) := _calculate_savings.

Definition _can_merge_routes (route1 route2 : list nat) (load1 load2 : Z)
    (customer_i customer_j : nat) : bool :=
  if (vehicle_capacity P <? load1 + load2)%Z then false
  else
    let i_at_end :=
      bool_decide (first_customer route1 = customer_i)
      || bool_decide (last_customer route1 = customer_i) in
    let j_at_end :=
      bool_decide (first_customer route2 = customer_j)
      || bool_decide (last_customer route2 = customer_j) in
    i_at_end && j_at_end.

Definition _merge_routes (route1 route2 : list nat)
    (customer_i customer_j : nat) : list nat * Z :=
  let i_pos :=
    if bool_decide (first_customer route1 = customer_i) then 0
    else length route1 - 1 in
  let j_pos :=
    if bool_decide (first_customer route2 = customer_j) then 0
    else length route2 - 1 in
  let merged_route :=
    if (i_pos =? length route1 - 1) && (j_pos =? 0)
    then route1 ++ route2
    else if (i_pos =? 0) && (j_pos =? length route2 - 1)
    then route2 ++ route1
    else if (i_pos =? length route1 - 1) && (j_pos =? length route2 - 1)
    then route1 ++ reverse route2
    else if (i_pos =? 0) && (j_pos =? 0)
    then reverse route1 ++ route2
    else [] in
  (merged_route, sumZ (demands P <$> merged_route)).

(** Body of the [for] loop of [solve] below the [break] test. *)
Definition merge_step (st : MergeState) (customer_i customer_j : nat)
    : MergeState :=
  let route_i := customer_to_route st !!! customer_i in
  let route_j := customer_to_route st !!! customer_j in
  if bool_decide (route_i = route_j) then st
  else if _can_merge_routes
            (merge_routes st !!! route_i) (merge_routes st !!! route_j)
            (route_loads st !!! route_i) (route_loads st !!! route_j)
            customer_i customer_j
  then
    let '(merged_route, merged_load) :=
      _merge_routes (merge_routes st !!! route_i)
        (merge_routes st !!! route_j) customer_i customer_j in
    let routes1 := <[route_i := merged_route]> (merge_routes st) in
    let loads1 := <[route_i := merged_load]> (route_loads st) in
    let mapping :=
      fold_left (λ m customer, <[customer := route_i]> m)
        (routes1 !!! route_j) (customer_to_route st) in
    {| merge_routes := <[route_j := []]> routes1;
       route_loads := <[route_j := 0%Z]> loads1;
       customer_to_route := mapping |}
  else st.

(** [for customer_i, customer_j, savings_value in self.savings_list]. *)
Fixpoint merge_loop (entries : list (nat * nat * Q)) (st : MergeState)
    : MergeState :=
  match entries with
  | [] => st
  | (customer_i, customer_j, value) :: rest =>
      if Qle_bool value 0 then st
      else merge_loop rest (merge_step st customer_i customer_j)
  end.

Definition initial_state : MergeState :=
  {| merge_routes := (λ i, [i]) <$> seq 0 (num_customers P);
     route_loads := demands P <$> seq 0 (num_customers P);
     customer_to_route :=
       list_to_map ((λ i, (i, i)) <$> seq 0 (num_customers P)) |}.

(** The vehicle limit: keep the [num_vehicles] routes of least distance. *)
Definition limit_vehicles (final_routes : list (list nat))
    : list (list nat) :=
  if num_vehicles P <? length final_routes then
    let route_info :=
      (λ route, (route, _calculate_route_distance route)) <$> final_routes in
    let sorted := stable_sort (λ x y, Qle_bool x.2 y.2) route_info in
    fst <$> take (num_vehicles P) sorted
  else final_routes.

Definition served_customers (final_routes : list (list nat)) : gset nat :=
  fold_left (λ served route, served ∪ list_to_set route) final_routes ∅.

Definition solve : Solution :=
  let st := merge_loop savings_list initial_state in
  let final_routes :=
    limit_vehicles (filter (λ route, route ≠ []) (merge_routes st)) in
  let served := served_customers final_routes in
  let unvisited :=
    filter (λ i, i ∉ served) (seq 0 (num_customers P)) in
  {| routes := final_routes;
     total_distance := sumQ (_calculate_route_distance <$> final_routes);
     num_vehicles_used := length final_routes;
     unvisited_customers := unvisited;
     feasible := bool_decide (length unvisited = 0) |}.

Definition get_route_info (route : list nat) : outcome (gmap string value) :=
  if bool_decide (route = []) then
    Returns (<["distance" := VInt 0]> (<["load" := VInt 0]>
              (<["customers" := VList []]> ∅)))
  else
    let total_load := sumZ (demands P <$> route) in
    let distance := _calculate_route_distance route in
    match true_div total_load (vehicle_capacity P) with
    | Raises e => Raises e
    | Returns utilization =>
        Returns (<["distance" := VFloat distance]>
                  (<["load" := VInt total_load]>
                    (<["customers" := VList route]>
                      (<["capacity_utilization" := VFloat utilization]>
                         ∅))))
    end.

End Solver.
End SavingsAlgorithmVRP.

(** ** The improver over a store of list objects

    A Python list is an object with an identity: the caller passes a
    reference to a list whose items are references to routes.  The store
    is an arena of list objects; a reference is an index into it, and a
    new object is placed at the end.  [improve_solution] and
    [inter_route_2opt] are modelled over the store to follow which objects
    they write.  The search for a move reads the store only; the lists it
    creates and drops are not recorded. *)

Module TwoOptStore.

Inductive object :=
  | RouteList (items : list nat)
  | Route (customers : list nat).

Record Solution := {
  routes : nat;
  total_distance : Q;
  num_vehicles_used : nat;
  improvement_iterations : nat;
  feasible : bool
}.

Record LoopState := {
  current_routes : nat;
  current_distance : Q;
  improvement_found : bool;
  iterations_without_improvement : Z;
  total_iterations : nat
}.

Definition alloc (o : object) (h : list object) : nat * list object :=
  (length h, h ++ [o]).

Definition read_route (h : list object) (l : nat) : option (list nat) :=
  match h !! l with
  | Some (Route r) => Some r
  | _ => None
  end.

(** The value of a list of routes: the contents of the routes it refers to. *)
Definition read_routes (h : list object) (l : nat)
    : option (list (list nat)) :=
  match h !! l with
  | Some (RouteList items) => mapM (read_route h) items
  | _ => None
  end.

(** [routes[idx]]. *)
Definition get_item (l idx : nat) (h : list object) : option nat :=
  match h !! l with
  | Some (RouteList items) => items !! idx
  | _ => None
  end.

(** [routes[idx] = v]. *)
Definition set_item (l idx v : nat) (h : list object)
    : option (list object) :=
  match h !! l with
  | Some (RouteList items) =>
      if idx <? length items
      then Some (<[l := RouteList (<[idx := v]> items)]> h)
      else None
  | _ => None
  end.

(** [route[idx]] and [route[idx] = c]. *)
Definition get_customer (l idx : nat) (h : list object) : option nat :=
  r ← read_route h l; r !! idx.

Definition set_customer (l idx c : nat) (h : list object)
    : option (list object) :=
  match h !! l with
  | Some (Route r) =>
      if idx <? length r then Some (<[l := Route (<[idx := c]> r)]> h)
      else None
  | _ => None
  end.

(** [route.copy()]. *)
Definition copy_route (l : nat) (h : list object)
    : option (nat * list object) :=
  r ← read_route h l; Some (alloc (Route r) h).

(** The items of [copy.deepcopy(routes)]: every route object is copied
    once, and [memo] sends a copied object to its copy; integers are
    immutable and shared. *)
Fixpoint deepcopy_items (items : list nat) (memo : gmap nat nat)
    (h : list object) : option (list nat * gmap nat nat * list object) :=
  match items with
  | [] => Some ([], memo, h)
  | l :: rest =>
      match memo !! l with
      | Some l' =>
          '(ls, memo', h') ← deepcopy_items rest memo h;
          Some (l' :: ls, memo', h')
      | None =>
          r ← read_route h l;
          let '(l', h1) := alloc (Route r) h in
          '(ls, memo', h') ← deepcopy_items rest (<[l := l']> memo) h1;
          Some (l' :: ls, memo', h')
      end
  end.

Definition deepcopy (l : nat) (h : list object)
    : option (nat * list object) :=
  match h !! l with
  | Some (RouteList items) =>
      '(items', _, h1) ← deepcopy_items items ∅ h;
      Some (alloc (RouteList items') h1)
  | _ => None
  end.

Section Solver.
Variable P : Problem.

Definition improve_pass (st : LoopState) (h : list object)
    : option (LoopState * list object) :=
  rs ← read_routes h (current_routes st);
  match TwoOptVRP.scan_routes P 0 rs with
  | Some (route_idx, improved_route, improvement) =>
      let '(l, h1) := alloc (Route improved_route) h in
      h2 ← set_item (current_routes st) route_idx l h1;
      Some ({| current_routes := current_routes st;
               current_distance := current_distance st - improvement;
               improvement_found := true;
               iterations_without_improvement := 0;
               total_iterations := total_iterations st + 1 |}, h2)
  | None =>
      Some ({| current_routes := current_routes st;
               current_distance := current_distance st;
               improvement_found := false;
               iterations_without_improvement :=
                 iterations_without_improvement st + 1;
               total_iterations := total_iterations st + 1 |}, h)
  end.

Definition inter_pass (st : LoopState) (h : list object)
    : option (LoopState * list object) :=
  rs ← read_routes h (current_routes st);
  match find (TwoOptVRP.swap_improves P rs) (TwoOptVRP.swap_candidates rs) with
  | Some (i, j, ci, cj) =>
      li ← get_item (current_routes st) i h;
      lj ← get_item (current_routes st) j h;
      '(new_route_i, h1) ← copy_route li h;
      '(new_route_j, h2) ← copy_route lj h1;
      a ← get_customer new_route_i ci h2;
      b ← get_customer new_route_j cj h2;
      h3 ← set_customer new_route_i ci b h2;
      h4 ← set_customer new_route_j cj a h3;
      ri' ← read_route h4 new_route_i;
      rj' ← read_route h4 new_route_j;
      let old_distance :=
        (TwoOptVRP._calculate_route_distance P (rs !!! i)
         + TwoOptVRP._calculate_route_distance P (rs !!! j))%Q in
      let new_distance :=
        (TwoOptVRP._calculate_route_distance P ri'
         + TwoOptVRP._calculate_route_distance P rj')%Q in
      let improvement := (old_distance - new_distance)%Q in
      h5 ← set_item (current_routes st) i new_route_i h4;
      h6 ← set_item (current_routes st) j new_route_j h5;
      Some ({| current_routes := current_routes st;
               current_distance := current_distance st - improvement;
               improvement_found := true;
               iterations_without_improvement := 0;
               total_iterations := total_iterations st + 1 |}, h6)
  | None =>
      Some ({| current_routes := current_routes st;
               current_distance := current_distance st;
               improvement_found := false;
               iterations_without_improvement :=
                 iterations_without_improvement st + 1;
               total_iterations := total_iterations st + 1 |}, h)
  end.

Fixpoint run_loop
    (body : LoopState → list object → option (LoopState * list object))
    (max_iterations : Z) (fuel : nat) (st : LoopState) (h : list object)
    : option (LoopState * list object) :=
  if improvement_found st
     && (iterations_without_improvement st <? max_iterations)%Z
  then
    match fuel with
    | O => None
    | S fuel' =>
        '(st', h') ← body st h;
        run_loop body max_iterations fuel' st' h'
    end
  else Some (st, h).

Definition run
    (body : LoopState → list object → option (LoopState * list object))
    (fuel : nat) (initial_routes : nat) (max_iterations : Z)
    (h : list object) : option (Solution * list object) :=
  '(copy, h1) ← deepcopy initial_routes h;
  rs ← read_routes h1 copy;
  '(st, h2) ← run_loop body max_iterations fuel
                {| current_routes := copy;
                   current_distance := TwoOptVRP._calculate_total_distance P rs;
                   improvement_found := true;
                   iterations_without_improvement := 0;
                   total_iterations := 0 |} h1;
  rs' ← read_routes h2 (current_routes st);
  Some ({| routes := current_routes st;
           total_distance := current_distance st;
           num_vehicles_used := length rs';
           improvement_iterations := total_iterations st;
           feasible := TwoOptVRP._check_feasibility P rs' |}, h2).

Definition improve_solution := run improve_pass.
Definition inter_route_2opt := run inter_pass.

End Solver.
End TwoOptStore.

(** A test instance on a line: depot at abscissa 0, customers at the given
    abscissas; the Euclidean distance is the absolute difference. *)
Definition line_distance (xs : list Z) (a b : nat) : Q :=
  inject_Z (Z.abs (nth a (0 :: xs) 0 - nth b (0 :: xs) 0))%Z.

Definition line_problem (xs : list Z) (ds : list Z) (cap : Z) (k : nat)
    : Problem :=
  {| distance_matrix := line_distance xs;
     demands := λ c, nth c ds 0%Z;
     vehicle_capacity := cap;
     num_vehicles := k;
     num_customers := length xs |}.

Definition P4 : Problem := line_problem [1; 3; 2; 4]%Z [3; 5; 2; 4]%Z 20 2.

(** One route visiting the customers of [P4] out of order, and two routes
    whose customers are better exchanged. *)
Definition crossed_route : list (list nat) := [[0; 1; 2; 3]].
Definition crossed_pair : list (list nat) := [[0; 1]; [2; 3]].

Definition P6 : Problem :=
  line_problem [4; 6; 8; 2; 10; 12]%Z [3; 5; 2; 4; 6; 3]%Z 10 3.

(** A caller's store: the two routes of [crossed_pair] and the list that
    holds them. *)
Definition caller_store : list TwoOptStore.object :=
  [TwoOptStore.Route [0; 1]; TwoOptStore.Route [2; 3];
   TwoOptStore.RouteList [0; 1]].

(** A customer too heavy for any vehicle. *)
Definition P1 : Problem := line_problem [5]%Z [11]%Z 10 1.
Definition lone_route : list (list nat) := [[0]].

(** Customers on opposite sides of the depot: the saving of the pair is
    zero. *)
Definition P2 : Problem := line_problem [3; -4]%Z [1; 1]%Z 10 2.

Definition opposite_pair : nat * nat * Q := (0, 1, 0%Q).

(* ================================================================== *)
(** * Specification vocabulary *)

(** ** The improvement loops *)

Section TwoOptSpec.
Variable P : Problem.

#[local] Abbreviation rdist := (TwoOptVRP._calculate_route_distance P).
#[local] Abbreviation total := (TwoOptVRP._calculate_total_distance P).
#[local] Abbreviation rdemand := (TwoOptVRP.route_demand P).
#[local] Abbreviation is_feasible := (TwoOptVRP._is_route_feasible P).

Definition distance_inv (st : TwoOptVRP.LoopState) : Prop :=
  (TwoOptVRP.current_distance st == total (TwoOptVRP.current_routes st))%Q.

Definition loop_cond (m : Z) (st : TwoOptVRP.LoopState) : bool :=
  TwoOptVRP.improvement_found st
  && (TwoOptVRP.iterations_without_improvement st <? m)%Z.

(** What both loop bodies do to the bookkeeping variables. *)
Definition pass_ok (body : TwoOptVRP.LoopState → TwoOptVRP.LoopState) : Prop :=
  ∀ st,
    TwoOptVRP.total_iterations (body st) = TwoOptVRP.total_iterations st + 1
    ∧ ((TwoOptVRP.improvement_found (body st) = false
        ∧ TwoOptVRP.current_routes (body st) = TwoOptVRP.current_routes st
        ∧ TwoOptVRP.current_distance (body st) = TwoOptVRP.current_distance st)
       ∨ (TwoOptVRP.improvement_found (body st) = true
          ∧ TwoOptVRP.iterations_without_improvement (body st) = 0%Z
          ∧ (distance_inv st → distance_inv (body st))
          ∧ (TwoOptVRP.current_distance (body st)
             < TwoOptVRP.current_distance st - threshold)%Q)).

(** The shape of an applied inter-route swap. *)
Inductive applied_swap (rs rs' : list (list nat)) (delta : Q) : Prop :=
  | AppliedSwap (i j ci cj : nat) (ri rj : list nat)
      (swap_lt : i < j)
      (swap_lookup_i : rs !! i = Some ri)
      (swap_lookup_j : rs !! j = Some rj)
      (swap_ci_lt : ci < length ri)
      (swap_cj_lt : cj < length rj)
      (swap_routes :
         rs' = <[j := <[cj := ri !!! ci]> rj]> (<[i := <[ci := rj !!! cj]> ri]> rs))
      (swap_feasible_i : is_feasible (<[ci := rj !!! cj]> ri) = true)
      (swap_feasible_j : is_feasible (<[cj := ri !!! ci]> rj) = true)
      (swap_delta :
         delta = ((rdist ri + rdist rj)
                  - (rdist (<[ci := rj !!! cj]> ri)
                     + rdist (<[cj := ri !!! ci]> rj)))%Q)
      (swap_gain : (threshold < delta)%Q).

Definition all_feasible (rs : list (list nat)) : Prop :=
  Forall (λ r, (rdemand r <= vehicle_capacity P)%Z) rs.

(** Fuel that suffices for either loop when distances are non-negative:
    every improving pass lowers the total by more than [threshold]. *)
Definition enough_fuel (rs : list (list nat)) : nat :=
  S (Z.to_nat (Qfloor (1000 * total rs))).

Definition improve_returns rs m sol : Prop :=
  ∃ fuel, TwoOptVRP.improve_solution P fuel rs m = Some sol.

Definition inter_returns rs m sol : Prop :=
  ∃ fuel, TwoOptVRP.inter_route_2opt P fuel rs m = Some sol.

(** The passes of a run: [pass_state body rs k] is the loop state after
    [k] passes over the initial routes [rs]. *)
Definition pass_state (body : TwoOptVRP.LoopState → TwoOptVRP.LoopState)
    (rs : list (list nat)) (k : nat) : TwoOptVRP.LoopState :=
  Nat.iter k body (TwoOptVRP.initial_state P rs).

(** [n] passes are executed: the loop condition holds before each of them
    and fails after the last. *)
Definition stops_after body m rs n : Prop :=
  (∀ k, k < n → loop_cond m (pass_state body rs k) = true)
  ∧ loop_cond m (pass_state body rs n) = false.

End TwoOptSpec.

(** The reading of C8 as it is written: when the loop returns after [n]
    passes, the last [m] of them found no improvement. *)
Definition continues_for_budget (P : Problem)
    (body : TwoOptVRP.LoopState → TwoOptVRP.LoopState)
    (m : Z) (rs : list (list nat)) (n : nat) : Prop :=
  (m <= Z.of_nat n)%Z
  ∧ ∀ k, (Z.of_nat n - m < Z.of_nat k)%Z → k ≤ n →
         TwoOptVRP.improvement_found (pass_state P body rs k) = false.

(** What the loops do: with a positive budget they stop after the first
    pass that finds no improvement; otherwise no pass is run. *)
Definition stops_at_first_failure (P : Problem)
    (body : TwoOptVRP.LoopState → TwoOptVRP.LoopState)
    (m : Z) (rs : list (list nat)) (n : nat) : Prop :=
  if (0 <? m)%Z
  then 1 ≤ n
       ∧ TwoOptVRP.improvement_found (pass_state P body rs n) = false
       ∧ ∀ k, 1 ≤ k < n →
              TwoOptVRP.improvement_found (pass_state P body rs k) = true
  else n = 0.

(** Every route carries at most the vehicle capacity. *)
Definition capacity_respected (P : Problem) (rs : list (list nat)) : Prop :=
  Forall (λ r, (sumZ (demands P <$> r) <= vehicle_capacity P)%Z) rs.

(** ** The nearest-neighbour constructor *)

Section NearestNeighborSpec.
Variable P : Problem.

#[local] Abbreviation load r := (sumZ (demands P <$> r)).

(** Invariant of the outer loop of [solve]. *)
Definition nn_inv (st : NearestNeighborVRP.SolveState) : Prop :=
  concat (NearestNeighborVRP.solve_routes st)
    ++ NearestNeighborVRP.solve_unvisited st
  ≡ₚ seq 0 (num_customers P)
  ∧ Forall (λ r, (load r <= vehicle_capacity P)%Z)
      (NearestNeighborVRP.solve_routes st).

End NearestNeighborSpec.

(** ** The savings constructor *)

Section SavingsSpec.
Variable P : Problem.

#[local] Abbreviation N := (num_customers P).
#[local] Abbreviation load r := (sumZ (demands P <$> r)).

(** A customer is at an end of a non-empty route. *)
Definition at_end (route : list nat) (c : nat) : Prop :=
  head route = Some c ∨ last route = Some c.

(** The invariant of the merging loop: the routes partition the customers,
    the mapping names the route of each customer, and the loads are the
    demand sums. *)
Definition minv (st : SavingsAlgorithmVRP.MergeState) : Prop :=
  length (SavingsAlgorithmVRP.merge_routes st) = N
  ∧ length (SavingsAlgorithmVRP.route_loads st) = N
  ∧ concat (SavingsAlgorithmVRP.merge_routes st) ≡ₚ seq 0 N
  ∧ (∀ c, c < N →
       ∃ r, SavingsAlgorithmVRP.customer_to_route st !! c = Some r
            ∧ r < N ∧ c ∈ SavingsAlgorithmVRP.merge_routes st !!! r)
  ∧ (∀ r, r < N →
       SavingsAlgorithmVRP.route_loads st !!! r
       = load (SavingsAlgorithmVRP.merge_routes st !!! r)).

(** The route that currently holds a customer. *)
Definition route_id (st : SavingsAlgorithmVRP.MergeState) (c : nat) : nat :=
  SavingsAlgorithmVRP.customer_to_route st !!! c.

Definition route_of (st : SavingsAlgorithmVRP.MergeState) (c : nat)
    : list nat :=
  SavingsAlgorithmVRP.merge_routes st !!! route_id st c.

(** The state [merge_step] builds when it merges. *)
Definition merged_state (st : SavingsAlgorithmVRP.MergeState) (i j : nat)
    : SavingsAlgorithmVRP.MergeState :=
  let merged :=
    SavingsAlgorithmVRP._merge_routes P (route_of st i) (route_of st j) i j in
  {| SavingsAlgorithmVRP.merge_routes :=
       <[route_id st j := []]>
         (<[route_id st i := merged.1]> (SavingsAlgorithmVRP.merge_routes st));
     SavingsAlgorithmVRP.route_loads :=
       <[route_id st j := 0%Z]>
         (<[route_id st i := merged.2]> (SavingsAlgorithmVRP.route_loads st));
     SavingsAlgorithmVRP.customer_to_route :=
       fold_left (λ m c, <[c := route_id st i]> m) (route_of st j)
         (SavingsAlgorithmVRP.customer_to_route st) |}.

Definition can_merge (st : SavingsAlgorithmVRP.MergeState) (i j : nat)
    : bool :=
  SavingsAlgorithmVRP._can_merge_routes P (route_of st i) (route_of st j)
    (SavingsAlgorithmVRP.route_loads st !!! route_id st i)
    (SavingsAlgorithmVRP.route_loads st !!! route_id st j) i j.

(** Every non-empty route is within capacity. *)
Definition cap_inv (st : SavingsAlgorithmVRP.MergeState) : Prop :=
  Forall (λ r, r ≠ [] → (load r <= vehicle_capacity P)%Z)
    (SavingsAlgorithmVRP.merge_routes st).

(** The states the merging loop can be in. *)
Inductive reachable : SavingsAlgorithmVRP.MergeState → Prop :=
  | reachable_init : reachable (SavingsAlgorithmVRP.initial_state P)
  | reachable_step st i j :
      reachable st → i < j → j < N →
      reachable (SavingsAlgorithmVRP.merge_step P st i j).

(** Processing a list of entries without the [break] test. *)
Definition process (entries : list (nat * nat * Q))
    (st : SavingsAlgorithmVRP.MergeState) : SavingsAlgorithmVRP.MergeState :=
  fold_left (λ st e, SavingsAlgorithmVRP.merge_step P st e.1.1 e.1.2)
    entries st.

End SavingsSpec.

(** The two routes of customers [i] and [j] have been merged by the step
    from [st] to [st']: the route of [i] now holds the customers of both,
    the route of [j] is empty, and the other routes are as before. *)
Definition merged (P : Problem) (st st' : SavingsAlgorithmVRP.MergeState)
    (i j : nat) : Prop :=
  SavingsAlgorithmVRP.merge_routes st' !!! route_id st i
    ≡ₚ route_of st i ++ route_of st j
  ∧ SavingsAlgorithmVRP.merge_routes st' !!! route_id st j = []
  ∧ ∀ r, r ≠ route_id st i → r ≠ route_id st j →
         SavingsAlgorithmVRP.merge_routes st' !!! r
         = SavingsAlgorithmVRP.merge_routes st !!! r.

(** ** The store *)

(** The loop state on values that a loop state over the store stands for. *)
Definition state_of_store (h : list TwoOptStore.object)
    (st : TwoOptStore.LoopState) : option TwoOptVRP.LoopState :=
  rs ← TwoOptStore.read_routes h (TwoOptStore.current_routes st);
  Some {| TwoOptVRP.current_routes := rs;
          TwoOptVRP.current_distance := TwoOptStore.current_distance st;
          TwoOptVRP.improvement_found := TwoOptStore.improvement_found st;
          TwoOptVRP.iterations_without_improvement :=
            TwoOptStore.iterations_without_improvement st;
          TwoOptVRP.total_iterations := TwoOptStore.total_iterations st |}.

(** The memo of [deepcopy] sends a route object to a copy with the same
    customers. *)
Definition memo_ok (memo : gmap nat nat) (h : list TwoOptStore.object)
    : Prop :=
  ∀ l l', memo !! l = Some l' →
    ∃ r, TwoOptStore.read_route h l = Some r
         ∧ TwoOptStore.read_route h l' = Some r.

(** ** Further vocabulary *)

Definition dist_symmetric (P : Problem) : Prop :=
  ∀ a b, (distance_matrix P a b == distance_matrix P b a)%Q.

(** A square root on the rationals that is exact on the squares of
    integers, to run the distance model on integer grids. *)
Definition int_sqrt (q : Q) : Q := inject_Z (Z.sqrt (Qfloor q)).

(** Depot at the origin, customers at (3,4) and (6,8). *)
Definition P345 : Problem :=
  make_problem int_sqrt (0, 0)%Q [(3, 4)%Q; (6, 8)%Q] [2; 3]%Z 10 2.

(** The length of the path through a list of matrix indices, and the
    closed tour of a route: depot, the customers shifted by one, depot. *)
Fixpoint path_length (P : Problem) (stops : list nat) : Q :=
  match stops with
  | a :: (b :: _) as rest => distance_matrix P a b + path_length P rest
  | _ => 0
  end.

Definition tour (route : list nat) : list nat :=
  0 :: ((λ c, c + 1) <$> route) ++ [0].

(** The route of [crossed_route]. *)
Definition zigzag : list nat := [0; 1; 2; 3].

(** A route after intra-route improvement, against the route it comes
    from: the same customers, the same first customer, and the same route
    when it has fewer than three customers. *)
Definition rearranged (r' r : list nat) : Prop :=
  r' ≡ₚ r ∧ head r' = head r ∧ (length r < 3 → r' = r).

(** A customer fits a vehicle that carries [load]. *)
Definition fits (P : Problem) (load : Z) (c : nat) : Prop :=
  (load + demands P c <= vehicle_capacity P)%Z.

(** What the scan of [unvisited] for the nearest feasible customer
    yields: nothing when no customer fits, else a customer that fits,
    with its distance from the current position, strictly nearer than
    the fitting customers iterated before it and at least as near as
    those iterated after it. *)
Definition nearest_of (P : Problem) (load : Z) (position : nat)
    (unvisited : list nat) (found : option (nat * Q)) : Prop :=
  match found with
  | None => ∀ c, c ∈ unvisited → ¬ fits P load c
  | Some (c, d) =>
      ∃ before after,
        unvisited = before ++ c :: after
        ∧ fits P load c
        ∧ d = distance_matrix P position (c + 1)
        ∧ (∀ c', c' ∈ before → fits P load c' →
             (d < distance_matrix P position (c' + 1))%Q)
        ∧ (∀ c', c' ∈ after → fits P load c' →
             (d <= distance_matrix P position (c' + 1))%Q)
  end.

(** Three customers that each fill more than half a vehicle, for two
    vehicles. *)
Definition P3 : Problem := line_problem [1; 2; 3]%Z [6; 6; 6]%Z 10 2.

(** Four customers around the depot, pairwise without positive saving,
    for two vehicles. *)
Definition P5 : Problem := line_problem [1; -2; 3; -4]%Z [6; 6; 6; 6]%Z 10 2.

(** The two routes of [crossed_pair]. *)
Definition route_a : list nat := [0; 1].
Definition route_b : list nat := [2; 3].

(** The dictionary [get_route_info] returns for an empty route. *)
Definition empty_route_info : gmap string value :=
  <["distance" := VInt 0]> (<["load" := VInt 0]>
    (<["customers" := VList []]> ∅)).

(** A problem whose vehicles have no capacity, and a route to its
    customer. *)
Definition P0 : Problem := line_problem [5]%Z [0]%Z 0 1.

Definition lone_route_0 : list nat := [0].

(** ** [vrp_example.py]: the hybrid approach

    [demonstrate_hybrid_approach] builds both constructive solutions,
    keeps the feasible one of least distance and improves it in two
    steps.  The source fixes the instance; it is a parameter here.  The
    lines it prints are left out; the three solutions it prints from
    are the result. *)

Module VrpExample.

Inductive method := NearestNeighbor | ClarkeWright.

(** The entries of [best_initial] the function reads, with
    [best_method]. *)
Record Initial := {
  best_method : method;
  routes : list (list nat);
  total_distance : Q
}.

Record Hybrid := {
  best_initial : Initial;
  step1_solution : TwoOptVRP.Solution;
  final_solution : TwoOptVRP.Solution
}.

Section Driver.
Variable P : Problem.

Definition of_nn (s : NearestNeighborVRP.Solution) : Initial :=
  {| best_method := NearestNeighbor;
     routes := NearestNeighborVRP.routes s;
     total_distance := NearestNeighborVRP.total_distance s |}.

Definition of_cw (s : SavingsAlgorithmVRP.Solution) : Initial :=
  {| best_method := ClarkeWright;
     routes := SavingsAlgorithmVRP.routes s;
     total_distance := SavingsAlgorithmVRP.total_distance s |}.

(** The [if]/[elif] chain that chooses [best_initial]; [None] is the
    branch that prints that no feasible solution was found and
    returns. *)
Definition choose_initial : option Initial :=
  let nn_solution := NearestNeighborVRP.solve P in
  let cw_solution := SavingsAlgorithmVRP.solve P in
  if NearestNeighborVRP.feasible nn_solution
     && SavingsAlgorithmVRP.feasible cw_solution
  then
    if Qle_bool (NearestNeighborVRP.total_distance nn_solution)
         (SavingsAlgorithmVRP.total_distance cw_solution)
    then Some (of_nn nn_solution)
    else Some (of_cw cw_solution)
  else if NearestNeighborVRP.feasible nn_solution
  then Some (of_nn nn_solution)
  else if SavingsAlgorithmVRP.feasible cw_solution
  then Some (of_cw cw_solution)
  else None.

(** The outer [option] is the fuel of the two improvement loops. *)
Definition demonstrate_hybrid_approach (fuel : nat)
    : option (option Hybrid) :=
  match choose_initial with
  | None => Some None
  | Some best =>
      step1 ← TwoOptVRP.improve_solution P fuel (routes best) 200;
      final ← TwoOptVRP.inter_route_2opt P fuel (TwoOptVRP.routes step1) 200;
      Some (Some {| best_initial := best;
                    step1_solution := step1;
                    final_solution := final |})
  end.

End Driver.
End VrpExample.



(** The customers of [P4] with vehicles too small for [zigzag]. *)
Definition P8 : Problem := line_problem [1; 3; 2; 4]%Z [3; 5; 2; 4]%Z 10 2.

(* ================================================================== *)
(** * Proofs *)

(** ** Arithmetic helpers *)

Lemma Qltb_lt a b : Qltb a b = true ↔ (a < b)%Q.
Proof.
  unfold Qltb. rewrite negb_true_iff. split.
  - intros H. apply Qnot_le_lt. intros Hle.
    apply Qle_bool_iff in Hle. congruence.
  - intros H. destruct (Qle_bool b a) eqn:E; [|done].
    apply Qle_bool_iff in E. lra.
Qed.

Lemma Qltb_ge a b : Qltb a b = false ↔ (b <= a)%Q.
Proof.
  unfold Qltb. rewrite negb_false_iff. apply Qle_bool_iff.
Qed.

Lemma fold_left_Qplus_acc l a : (fold_left Qplus l a == a + sumQ l)%Q.
Proof.
  unfold sumQ. revert a. induction l as [|x l IH]; intros a; simpl.
  - lra.
  - rewrite IH. rewrite (IH (0 + x)%Q). lra.
Qed.

Lemma sumQ_cons x l : (sumQ (x :: l) == x + sumQ l)%Q.
Proof.
  unfold sumQ at 1. simpl. rewrite fold_left_Qplus_acc. lra.
Qed.

Lemma sumQ_nonneg l : Forall (λ x, (0 <= x)%Q) l → (0 <= sumQ l)%Q.
Proof.
  induction 1 as [|x l Hx _ IH].
  - unfold sumQ. simpl. lra.
  - rewrite sumQ_cons. lra.
Qed.

Lemma fold_left_Zadd_acc l a : fold_left Z.add l a = (a + sumZ l)%Z.
Proof.
  unfold sumZ. revert a. induction l as [|x l IH]; intros a; simpl.
  - lia.
  - rewrite IH. rewrite (IH (0 + x)%Z). lia.
Qed.

Lemma sumZ_cons x l : sumZ (x :: l) = (x + sumZ l)%Z.
Proof. unfold sumZ at 1. simpl. rewrite fold_left_Zadd_acc. lia. Qed.

Lemma sumZ_app l1 l2 : sumZ (l1 ++ l2) = (sumZ l1 + sumZ l2)%Z.
Proof.
  induction l1 as [|x l1 IH]; simpl.
  - unfold sumZ at 2. simpl. lia.
  - rewrite !sumZ_cons, IH. lia.
Qed.

Lemma sumZ_perm l1 l2 : l1 ≡ₚ l2 → sumZ l1 = sumZ l2.
Proof.
  induction 1; rewrite ?sumZ_cons; try lia.
Qed.

(** ** List helpers *)

Lemma insert_swap_perm {A} (l : list A) k x y :
  l !! k = Some x → x :: <[k := y]> l ≡ₚ y :: l.
Proof.
  revert k. induction l as [|a l IH]; intros [|k] H; simplify_eq/=.
  - apply perm_swap.
  - rewrite perm_swap, (IH _ H). apply perm_swap.
Qed.

Lemma concat_perm {A} (l1 l2 : list (list A)) :
  l1 ≡ₚ l2 → concat l1 ≡ₚ concat l2.
Proof.
  induction 1 as [|x l1 l2 _ IH|x y l|l1 l2 l3 _ IH1 _ IH2]; simpl.
  - done.
  - by rewrite IH.
  - rewrite !(assoc_L (++)). f_equiv. apply Permutation_app_comm.
  - by rewrite IH1.
Qed.

Lemma concat_insert_perm {A} (rs : list (list A)) i r r' :
  rs !! i = Some r → r ++ concat (<[i := r']> rs) ≡ₚ r' ++ concat rs.
Proof.
  intros H. apply (insert_swap_perm _ _ _ r') in H.
  apply concat_perm in H. done.
Qed.

Lemma elem_of_concat {A} (x : A) (ls : list (list A)) :
  x ∈ concat ls ↔ ∃ l, l ∈ ls ∧ x ∈ l.
Proof.
  rewrite list_elem_of_In, in_concat. split; intros (l & H1 & H2); exists l.
  - by rewrite !list_elem_of_In.
  - by rewrite <- !list_elem_of_In.
Qed.

(** ** Facts about the 2-opt improver *)

Section TwoOptFacts.
Variable P : Problem.

#[local] Abbreviation dm := (distance_matrix P).
#[local] Abbreviation rdist := (TwoOptVRP._calculate_route_distance P).
#[local] Abbreviation total := (TwoOptVRP._calculate_total_distance P).
#[local] Abbreviation rdemand := (TwoOptVRP.route_demand P).
#[local] Abbreviation is_feasible := (TwoOptVRP._is_route_feasible P).

Lemma add_legs_ge acc route :
  dist_nonneg P → (acc <= TwoOptVRP.add_legs P acc route)%Q.
Proof.
  intros Hnn. revert acc.
  induction route as [|a [|b rest] IH]; intros acc; simpl; try lra.
  specialize (IH (acc + dm (a + 1) (b + 1))%Q). simpl in IH.
  pose proof (Hnn (a + 1) (b + 1)). lra.
Qed.

Lemma route_distance_nonneg route : dist_nonneg P → (0 <= rdist route)%Q.
Proof.
  intros Hnn. destruct route as [|c0 rest]; simpl; [lra|].
  pose proof (add_legs_ge (0 + dm 0 (c0 + 1))%Q (c0 :: rest) Hnn) as H1.
  pose proof (Hnn 0 (c0 + 1)) as H2.
  pose proof (Hnn (last_customer (c0 :: rest) + 1) 0) as H3.
  simpl in H1. lra.
Qed.

Lemma total_distance_nonneg rs : dist_nonneg P → (0 <= total rs)%Q.
Proof.
  intros Hnn. apply sumQ_nonneg, Forall_forall.
  intros x Hx. apply list_elem_of_fmap in Hx.
  destruct Hx as (r & -> & _). by apply route_distance_nonneg.
Qed.

Lemma total_cons r rs : (total (r :: rs) == rdist r + total rs)%Q.
Proof. unfold TwoOptVRP._calculate_total_distance. simpl. apply sumQ_cons. Qed.

(** Replacing one route changes the total by the difference of the two
    route distances. *)
Lemma total_insert rs idx r r' :
  rs !! idx = Some r →
  (total (<[idx := r']> rs) == total rs - (rdist r - rdist r'))%Q.
Proof.
  revert idx. induction rs as [|x rs IH]; intros [|idx] H; simplify_eq/=.
  - rewrite !total_cons. lra.
  - rewrite !total_cons, (IH _ H). lra.
Qed.

Lemma elem_of_edge_pairs n i j :
  (i, j) ∈ TwoOptVRP.edge_pairs n ↔ i + 2 ≤ j ∧ j < n.
Proof.
  unfold TwoOptVRP.edge_pairs. rewrite list_elem_of_In, in_flat_map. split.
  - intros (i' & Hi & Hj). apply list_elem_of_In, list_elem_of_fmap in Hj.
    destruct Hj as (j' & [= -> ->] & Hj). apply elem_of_seq in Hj. lia.
  - intros [H1 H2]. exists i. split.
    + apply list_elem_of_In, elem_of_seq. lia.
    + apply list_elem_of_In, list_elem_of_fmap. exists j. split; [done|].
      apply elem_of_seq. lia.
Qed.

(** A 2-opt move rearranges the customers of the route. *)
Lemma two_opt_move_perm route i j :
  i + 2 ≤ j → TwoOptVRP.two_opt_move route i j ≡ₚ route.
Proof.
  intros Hij. unfold TwoOptVRP.two_opt_move.
  rewrite reverse_Permutation.
  replace (drop (j + 1) route)
    with (drop (j + 1 - (i + 1)) (drop (i + 1) route))
    by (rewrite drop_drop; f_equal; lia).
  by rewrite !take_drop.
Qed.

Lemma route_demand_perm r1 r2 : r1 ≡ₚ r2 → rdemand r1 = rdemand r2.
Proof.
  intros H. unfold TwoOptVRP.route_demand. apply sumZ_perm.
  by apply fmap_Permutation.
Qed.

Lemma is_feasible_perm r1 r2 : r1 ≡ₚ r2 → is_feasible r1 = is_feasible r2.
Proof.
  intros H. unfold TwoOptVRP._is_route_feasible.
  by rewrite (route_demand_perm _ _ H).
Qed.

Lemma is_feasible_spec r :
  is_feasible r = true ↔ (rdemand r <= vehicle_capacity P)%Z.
Proof. unfold TwoOptVRP._is_route_feasible. apply Z.leb_le. Qed.

(** What the candidate scan of [_improve_route_2opt] keeps. *)
Lemma fold_try_move route D ps best :
  let res := fold_left (TwoOptVRP.try_move P route D) ps best in
  (res = best ∨
   ∃ ij, ij ∈ ps ∧ res = (TwoOptVRP.two_opt_move route ij.1 ij.2,
                          (D - rdist (TwoOptVRP.two_opt_move route ij.1 ij.2))%Q)
         ∧ is_feasible res.1 = true ∧ (best.2 < res.2)%Q)
  ∧ (best.2 <= res.2)%Q
  ∧ ∀ ij, ij ∈ ps →
      is_feasible (TwoOptVRP.two_opt_move route ij.1 ij.2) = true →
      (D - rdist (TwoOptVRP.two_opt_move route ij.1 ij.2) <= res.2)%Q.
Proof.
  revert best. induction ps as [|ij ps IH]; intros best; simpl.
  - split; [by left|]. split; [lra|]. intros ij Hij. by apply elem_of_nil in Hij.
  - set (best' := TwoOptVRP.try_move P route D best ij).
    destruct (IH best') as (Hsel & Hle & Hmax).
    assert (Hstep :
      (best' = best ∨
       (best' = (TwoOptVRP.two_opt_move route ij.1 ij.2,
                 (D - rdist (TwoOptVRP.two_opt_move route ij.1 ij.2))%Q)
        ∧ is_feasible best'.1 = true ∧ (best.2 < best'.2)%Q))
      ∧ (best.2 <= best'.2)%Q
      ∧ (is_feasible (TwoOptVRP.two_opt_move route ij.1 ij.2) = true →
         (D - rdist (TwoOptVRP.two_opt_move route ij.1 ij.2) <= best'.2)%Q)).
    { subst best'. unfold TwoOptVRP.try_move.
      destruct (is_feasible (TwoOptVRP.two_opt_move route ij.1 ij.2)) eqn:Hf;
        simpl.
      - destruct (Qltb _ _) eqn:Hlt.
        + apply Qltb_lt in Hlt. simpl.
          split; [right; split; [done|]; split; [done|lra] |].
          split; [lra|]. intros _. lra.
        + apply Qltb_ge in Hlt. split; [by left|]. split; [lra|]. by intros _.
      - split; [by left|]. split; [lra|]. intros [=]. }
    destruct Hstep as (Hsel' & Hle' & Hmax').
    split; [|split].
    + destruct Hsel as [->|(ij' & Hin & Heq & Hf & Hlt)].
      * destruct Hsel' as [->|(Heq & Hf & Hlt)]; [by left|].
        right. exists ij. split; [by left|]. done.
      * right. exists ij'. split; [by right|]. split; [done|]. split; [done|].
        lra.
    + lra.
    + intros ij' Hin Hf. apply elem_of_cons in Hin as [->|Hin].
      * specialize (Hmax' Hf). lra.
      * by apply Hmax.
Qed.

(** Specification of [_improve_route_2opt]. *)
Lemma improve_route_2opt_spec route :
  let res := TwoOptVRP._improve_route_2opt P route in
  (res = (route, 0%Q) ∨
   ∃ i j, i + 2 ≤ j ∧ j < length route
          ∧ res = (TwoOptVRP.two_opt_move route i j,
                   (rdist route - rdist (TwoOptVRP.two_opt_move route i j))%Q)
          ∧ is_feasible res.1 = true ∧ (0 < res.2)%Q)
  ∧ (0 <= res.2)%Q
  ∧ ∀ i j, i + 2 ≤ j → j < length route →
      is_feasible (TwoOptVRP.two_opt_move route i j) = true →
      (rdist route - rdist (TwoOptVRP.two_opt_move route i j) <= res.2)%Q.
Proof.
  unfold TwoOptVRP._improve_route_2opt.
  destruct (fold_try_move route (rdist route)
              (TwoOptVRP.edge_pairs (length route)) (route, 0%Q))
    as (Hsel & Hle & Hmax).
  simpl in *. split; [|split].
  - destruct Hsel as [->|([i j] & Hin & Heq & Hf & Hlt)]; [by left|].
    right. exists i, j. apply elem_of_edge_pairs in Hin as [Hi Hj]. eauto 10.
  - done.
  - intros i j H1 H2 Hf. apply (Hmax (i, j)); [|done].
    by apply elem_of_edge_pairs.
Qed.

Lemma improve_route_2opt_delta route :
  let res := TwoOptVRP._improve_route_2opt P route in
  (res.2 == rdist route - rdist res.1)%Q ∧ res.1 ≡ₚ route.
Proof.
  destruct (improve_route_2opt_spec route) as ([->|(i & j & Hij & Hj & -> & _)] & _).
  - simpl. split; [lra|done].
  - simpl. split; [lra|]. by apply two_opt_move_perm.
Qed.

(** *** The scan over the routes *)

Lemma scan_routes_Some k rs idx r' imp :
  TwoOptVRP.scan_routes P k rs = Some (idx, r', imp) →
  ∃ r, k ≤ idx ∧ rs !! (idx - k) = Some r ∧ 3 ≤ length r
       ∧ TwoOptVRP._improve_route_2opt P r = (r', imp)
       ∧ (threshold < imp)%Q.
Proof.
  revert k. induction rs as [|route rest IH]; intros k; simpl; [done|].
  destruct (length route <? 3) eqn:Hlen.
  - intros H. destruct (IH _ H) as (r & Hk & Hr & Hrest).
    exists r. split; [lia|]. split; [|done].
    by replace (idx - k) with (S (idx - S k)) by lia.
  - apply Nat.ltb_ge in Hlen.
    destruct (TwoOptVRP._improve_route_2opt P route) as [ir im] eqn:Himp.
    destruct (Qltb threshold im) eqn:Hlt.
    + intros [= <- <- <-]. exists route. rewrite Nat.sub_diag.
      apply Qltb_lt in Hlt. done.
    + intros H. destruct (IH _ H) as (r & Hk & Hr & Hrest).
      exists r. split; [lia|]. split; [|done].
      by replace (idx - k) with (S (idx - S k)) by lia.
Qed.

Lemma scan_routes_None k rs :
  TwoOptVRP.scan_routes P k rs = None ↔
  ∀ r, r ∈ rs → 3 ≤ length r →
       ((TwoOptVRP._improve_route_2opt P r).2 <= threshold)%Q.
Proof.
  revert k. induction rs as [|route rest IH]; intros k; simpl.
  - split; [|done]. intros _ r Hr. by apply elem_of_nil in Hr.
  - destruct (length route <? 3) eqn:Hlen.
    + apply Nat.ltb_lt in Hlen. rewrite IH. split.
      * intros H r Hr. apply elem_of_cons in Hr as [->|Hr]; [lia|by apply H].
      * intros H r Hr. apply H. by right.
    + apply Nat.ltb_ge in Hlen.
      destruct (TwoOptVRP._improve_route_2opt P route) as [ir im] eqn:Himp.
      destruct (Qltb threshold im) eqn:Hlt.
      * apply Qltb_lt in Hlt. split; [done|]. intros H.
        specialize (H route (list_elem_of_here _ _) Hlen).
        rewrite Himp in H. simpl in H. lra.
      * apply Qltb_ge in Hlt. rewrite IH. split.
        -- intros H r Hr. apply elem_of_cons in Hr as [->|Hr]; [|by apply H].
           intros _. by rewrite Himp.
        -- intros H r Hr. apply H. by right.
Qed.

(** *** The loop *)

Lemma run_loop_unfold body m fuel st :
  TwoOptVRP.run_loop body m fuel st =
  if loop_cond m st
  then match fuel with
       | O => None
       | S fuel' => TwoOptVRP.run_loop body m fuel' (body st)
       end
  else Some st.
Proof. by destruct fuel. Qed.

(** A returned state is the [n]-th iterate of the body, where [n] is the
    first index at which the loop condition fails. *)
Lemma run_loop_trace body m fuel st st' :
  TwoOptVRP.run_loop body m fuel st = Some st' →
  ∃ n, st' = Nat.iter n body st ∧ n ≤ fuel
       ∧ (∀ k, k < n → loop_cond m (Nat.iter k body st) = true)
       ∧ loop_cond m st' = false.
Proof.
  revert st. induction fuel as [|fuel IH]; intros st; rewrite run_loop_unfold;
    destruct (loop_cond m st) eqn:Hc; try done.
  - intros [= <-]. exists 0. repeat split; [lia|intros; lia|done].
  - intros H. destruct (IH _ H) as (n & -> & Hn & Hk & Hex).
    exists (S n). rewrite Nat.iter_succ_r. repeat split; [lia| |done].
    intros [|k] Hlt; [done|]. rewrite Nat.iter_succ_r. apply Hk. lia.
  - intros [= <-]. exists 0. repeat split; [lia|intros; lia|done].
Qed.

Lemma run_loop_iter body m n fuel st :
  (∀ k, k < n → loop_cond m (Nat.iter k body st) = true) →
  loop_cond m (Nat.iter n body st) = false →
  n ≤ fuel →
  TwoOptVRP.run_loop body m fuel st = Some (Nat.iter n body st).
Proof.
  revert st fuel. induction n as [|n IH]; intros st fuel Hk Hex Hfuel;
    rewrite run_loop_unfold.
  - simpl in Hex. by rewrite Hex.
  - pose proof (Hk 0 ltac:(lia)) as H0. simpl in H0. rewrite H0.
    destruct fuel as [|fuel]; [lia|].
    rewrite Nat.iter_succ_r. apply IH; [|by rewrite <- Nat.iter_succ_r|lia].
    intros k Hlt. rewrite <- Nat.iter_succ_r. apply Hk. lia.
Qed.

Lemma run_loop_mono body m fuel fuel' st st' :
  TwoOptVRP.run_loop body m fuel st = Some st' → fuel ≤ fuel' →
  TwoOptVRP.run_loop body m fuel' st = Some st'.
Proof.
  intros H Hle. destruct (run_loop_trace _ _ _ _ _ H) as (n & -> & Hn & Hk & Hex).
  apply run_loop_iter; [done|done|lia].
Qed.

Lemma iter_inv body n st :
  pass_ok P body → distance_inv P st → distance_inv P (Nat.iter n body st).
Proof.
  intros Hok Hinv. induction n as [|n IH]; simpl; [done|].
  destruct (Hok (Nat.iter n body st)) as (_ & [(_ & Hr & Hd)|(_ & _ & Hi & _)]).
  - unfold distance_inv in *. by rewrite Hr, Hd.
  - by apply Hi.
Qed.

Lemma iter_total_iterations body n st :
  pass_ok P body →
  TwoOptVRP.total_iterations (Nat.iter n body st)
  = TwoOptVRP.total_iterations st + n.
Proof.
  intros Hok. induction n as [|n IH]; simpl; [lia|].
  destruct (Hok (Nat.iter n body st)) as (-> & _). lia.
Qed.

Lemma iter_distance_le body n st :
  pass_ok P body →
  (TwoOptVRP.current_distance (Nat.iter n body st)
   <= TwoOptVRP.current_distance st)%Q.
Proof.
  intros Hok. induction n as [|n IH]; simpl; [lra|].
  destruct (Hok (Nat.iter n body st)) as (_ & [(_ & _ & ->)|(_ & _ & _ & Hd)]);
    [done|].
  unfold threshold in Hd. lra.
Qed.

Lemma inject_nat_succ n :
  (inject_Z (Z.of_nat (S n)) == inject_Z (Z.of_nat n) + 1)%Q.
Proof. rewrite Nat2Z.inj_succ. unfold Z.succ. by rewrite inject_Z_plus. Qed.

(** Termination: every improving pass lowers a non-negative total by more
    than the threshold. *)
Lemma run_loop_terminates body m fuel st :
  dist_nonneg P → pass_ok P body → distance_inv P st →
  (1000 * TwoOptVRP.current_distance st < inject_Z (Z.of_nat fuel))%Q →
  ∃ st', TwoOptVRP.run_loop body m fuel st = Some st'.
Proof.
  intros Hnn Hok. revert st.
  induction fuel as [|fuel IH]; intros st Hinv Hlt; rewrite run_loop_unfold;
    destruct (loop_cond m st) eqn:Hc; eauto.
  - pose proof (total_distance_nonneg (TwoOptVRP.current_routes st) Hnn) as H0.
    unfold distance_inv in Hinv. rewrite <- Hinv in H0.
    change (inject_Z (Z.of_nat 0)) with 0%Q in Hlt. lra.
  - destruct (Hok st) as (_ & [(Hf & _)|(_ & _ & Hi & Hd)]).
    + exists (body st). rewrite run_loop_unfold. unfold loop_cond. by rewrite Hf.
    + apply IH; [by apply Hi|]. rewrite inject_nat_succ in Hlt.
      unfold threshold in Hd. lra.
Qed.

Lemma enough_fuel_spec rs :
  dist_nonneg P →
  (1000 * total rs < inject_Z (Z.of_nat (enough_fuel P rs)))%Q.
Proof.
  intros Hnn. unfold enough_fuel.
  pose proof (total_distance_nonneg rs Hnn) as H0.
  set (x := (1000 * total rs)%Q) in *.
  assert (0 <= Qfloor x)%Z as Hfl.
  { change 0%Z with (Qfloor 0).
    apply Qfloor_resp_le. subst x. lra. }
  rewrite inject_nat_succ, Z2Nat.id by done.
  pose proof (Qlt_floor x) as H1. rewrite inject_Z_plus in H1. done.
Qed.

(** *** The two loop bodies *)

Lemma improve_pass_Some st idx r' imp :
  TwoOptVRP.scan_routes P 0 (TwoOptVRP.current_routes st) = Some (idx, r', imp) →
  TwoOptVRP.improve_pass P st =
  {| TwoOptVRP.current_routes := <[idx := r']> (TwoOptVRP.current_routes st);
     TwoOptVRP.current_distance := TwoOptVRP.current_distance st - imp;
     TwoOptVRP.improvement_found := true;
     TwoOptVRP.iterations_without_improvement := 0;
     TwoOptVRP.total_iterations := TwoOptVRP.total_iterations st + 1 |}.
Proof. intros H. unfold TwoOptVRP.improve_pass. by rewrite H. Qed.

Lemma improve_pass_None st :
  TwoOptVRP.scan_routes P 0 (TwoOptVRP.current_routes st) = None →
  TwoOptVRP.improve_pass P st =
  {| TwoOptVRP.current_routes := TwoOptVRP.current_routes st;
     TwoOptVRP.current_distance := TwoOptVRP.current_distance st;
     TwoOptVRP.improvement_found := false;
     TwoOptVRP.iterations_without_improvement :=
       TwoOptVRP.iterations_without_improvement st + 1;
     TwoOptVRP.total_iterations := TwoOptVRP.total_iterations st + 1 |}.
Proof. intros H. unfold TwoOptVRP.improve_pass. by rewrite H. Qed.

Lemma improve_pass_ok : pass_ok P (TwoOptVRP.improve_pass P).
Proof.
  intros st.
  destruct (TwoOptVRP.scan_routes P 0 (TwoOptVRP.current_routes st))
    as [[[idx r'] imp]|] eqn:Hscan.
  - rewrite (improve_pass_Some _ _ _ _ Hscan). simpl. split; [done|]. right.
    destruct (scan_routes_Some _ _ _ _ _ Hscan) as (r & _ & Hr & _ & Himp & Hlt).
    rewrite Nat.sub_0_r in Hr.
    destruct (improve_route_2opt_delta r) as [Hd _]. rewrite Himp in Hd.
    simpl in Hd.
    split; [done|]. split; [done|]. split; [|lra].
    unfold distance_inv. simpl. intros Hinv. rewrite (total_insert _ _ _ _ Hr). lra.
  - rewrite (improve_pass_None _ Hscan). simpl. split; [done|]. by left.
Qed.

Lemma elem_of_swap_candidates rs i j ci cj :
  In (i, j, ci, cj) (TwoOptVRP.swap_candidates rs) →
  i < j ∧ j < length rs
  ∧ ci < length (rs !!! i) ∧ cj < length (rs !!! j).
Proof.
  unfold TwoOptVRP.swap_candidates. rewrite in_flat_map.
  intros (i' & Hi & H). apply in_flat_map in H as (j' & Hj & H).
  apply list_elem_of_In, elem_of_seq in Hi, Hj.
  destruct (bool_decide (rs !!! i' = []) || bool_decide (rs !!! j' = []));
    [done|].
  apply in_flat_map in H as (ci' & Hci & H).
  apply list_elem_of_In, list_elem_of_fmap in H as (cj' & [= -> -> -> ->] & Hcj).
  apply list_elem_of_In, elem_of_seq in Hci. apply elem_of_seq in Hcj. lia.
Qed.

Lemma inter_pass_cases st :
  let rs := TwoOptVRP.current_routes st in
  (find (TwoOptVRP.swap_improves P rs) (TwoOptVRP.swap_candidates rs) = None
   ∧ TwoOptVRP.inter_pass P st =
     {| TwoOptVRP.current_routes := rs;
        TwoOptVRP.current_distance := TwoOptVRP.current_distance st;
        TwoOptVRP.improvement_found := false;
        TwoOptVRP.iterations_without_improvement :=
          TwoOptVRP.iterations_without_improvement st + 1;
        TwoOptVRP.total_iterations := TwoOptVRP.total_iterations st + 1 |})
  ∨ ∃ rs' delta,
      applied_swap P rs rs' delta
      ∧ TwoOptVRP.inter_pass P st =
        {| TwoOptVRP.current_routes := rs';
           TwoOptVRP.current_distance := TwoOptVRP.current_distance st - delta;
           TwoOptVRP.improvement_found := true;
           TwoOptVRP.iterations_without_improvement := 0;
           TwoOptVRP.total_iterations := TwoOptVRP.total_iterations st + 1 |}.
Proof.
  intros rs. unfold TwoOptVRP.inter_pass. fold rs.
  destruct (find _ _) as [[[[i j] ci] cj]|] eqn:Hfind; [right|by left].
  apply find_some in Hfind as [Hin Himp].
  apply elem_of_swap_candidates in Hin as (Hij & Hj & Hci & Hcj).
  assert (rs !! i = Some (rs !!! i)) as Hi'
    by (apply list_lookup_lookup_total_lt; lia).
  assert (rs !! j = Some (rs !!! j)) as Hj'
    by (by apply list_lookup_lookup_total_lt).
  unfold TwoOptVRP.swap_improves, TwoOptVRP.swap_customers in Himp.
  apply andb_prop in Himp as [Hfe Hlt]. apply andb_prop in Hfe as [Hfi Hfj].
  apply Qltb_lt in Hlt.
  unfold TwoOptVRP.swap_customers.
  eexists _, _. split; [|reflexivity].
  apply (AppliedSwap P _ _ _ i j ci cj (rs !!! i) (rs !!! j));
    try done. lra.
Qed.

Lemma total_insert2 rs i j ri rj ri' rj' :
  i ≠ j → rs !! i = Some ri → rs !! j = Some rj →
  (total (<[j := rj']> (<[i := ri']> rs))
   == total rs - ((rdist ri + rdist rj) - (rdist ri' + rdist rj')))%Q.
Proof.
  intros Hne Hi Hj.
  rewrite (total_insert _ j rj) by (by rewrite list_lookup_insert_ne).
  rewrite (total_insert _ i ri) by done. lra.
Qed.

Lemma inter_pass_ok : pass_ok P (TwoOptVRP.inter_pass P).
Proof.
  intros st. destruct (inter_pass_cases st) as [[_ ->]|(rs' & delta & Hsw & ->)];
    simpl; (split; [done|]); [by left|right].
  destruct Hsw. split; [done|]. split; [done|]. split; [|lra].
  unfold distance_inv. simpl. intros Hinv. subst rs' delta.
  rewrite (total_insert2 _ _ _ ri rj) by (done || lia). lra.
Qed.

(** *** What a pass preserves *)

Lemma check_feasibility_spec rs :
  TwoOptVRP._check_feasibility P rs = true ↔ all_feasible P rs.
Proof.
  unfold TwoOptVRP._check_feasibility, all_feasible.
  rewrite forallb_forall, Forall_forall.
  split; intros H r Hr.
  - apply is_feasible_spec, H. by apply list_elem_of_In.
  - apply is_feasible_spec, H. by apply list_elem_of_In.
Qed.

Lemma improve_pass_routes st :
  let rs := TwoOptVRP.current_routes st in
  let rs' := TwoOptVRP.current_routes (TwoOptVRP.improve_pass P st) in
  concat rs' ≡ₚ concat rs ∧ (all_feasible P rs → all_feasible P rs')
  ∧ length rs' = length rs.
Proof.
  simpl.
  destruct (TwoOptVRP.scan_routes P 0 (TwoOptVRP.current_routes st))
    as [[[idx r'] imp]|] eqn:Hscan.
  - rewrite (improve_pass_Some _ _ _ _ Hscan). simpl.
    destruct (scan_routes_Some _ _ _ _ _ Hscan) as (r & _ & Hr & _ & Himp & _).
    rewrite Nat.sub_0_r in Hr.
    destruct (improve_route_2opt_delta r) as [_ Hp]. rewrite Himp in Hp.
    simpl in Hp. split; [|split].
    + apply (inj (app r)). rewrite (concat_insert_perm _ _ _ _ Hr).
      by rewrite Hp.
    + intros Hall. apply Forall_insert; [done|].
      rewrite (route_demand_perm _ _ Hp).
      by apply (Forall_lookup_1 _ _ _ _ Hall Hr).
    + apply length_insert.
  - by rewrite (improve_pass_None _ Hscan).
Qed.

Lemma swap_pair_perm (ri rj : list nat) ci cj :
  ci < length ri → cj < length rj →
  <[ci := rj !!! cj]> ri ++ <[cj := ri !!! ci]> rj ≡ₚ ri ++ rj.
Proof.
  intros Hci Hcj.
  apply list_lookup_lookup_total_lt in Hci, Hcj.
  pose proof (insert_swap_perm _ _ _ (rj !!! cj) Hci) as H1.
  pose proof (insert_swap_perm _ _ _ (ri !!! ci) Hcj) as H2.
  apply (inj (cons (ri !!! ci))). apply (inj (cons (rj !!! cj))).
  transitivity ((ri !!! ci :: <[ci:=rj !!! cj]> ri)
                ++ (rj !!! cj :: <[cj:=ri !!! ci]> rj)).
  { simpl. rewrite perm_swap. f_equiv.
    by rewrite Permutation_middle. }
  rewrite H1, H2. simpl. rewrite <- Permutation_middle.
  rewrite perm_swap. done.
Qed.

Lemma applied_swap_routes rs rs' delta :
  applied_swap P rs rs' delta →
  concat rs' ≡ₚ concat rs ∧ (all_feasible P rs → all_feasible P rs')
  ∧ length rs' = length rs.
Proof.
  intros []. subst rs'. split; [|split].
  - assert (<[i:=<[ci:=rj !!! cj]> ri]> rs !! j = Some rj) as Hj'
      by (rewrite list_lookup_insert_ne by lia; done).
    pose proof (concat_insert_perm _ _ _ (<[ci:=rj !!! cj]> ri) swap_lookup_i)
      as HA.
    pose proof (concat_insert_perm _ _ _ (<[cj:=ri !!! ci]> rj) Hj') as HB.
    pose proof (swap_pair_perm ri rj ci cj swap_ci_lt swap_cj_lt) as HC.
    apply (inj (app (ri ++ rj))).
    rewrite <- (assoc_L (++)), HB, Permutation_app_swap_app, HA.
    rewrite Permutation_app_swap_app, (assoc_L (++)), HC. done.
  - intros Hall. apply Forall_insert; [apply Forall_insert; [done|]|].
    + by apply is_feasible_spec.
    + by apply is_feasible_spec.
  - by rewrite !length_insert.
Qed.

Lemma inter_pass_routes st :
  let rs := TwoOptVRP.current_routes st in
  let rs' := TwoOptVRP.current_routes (TwoOptVRP.inter_pass P st) in
  concat rs' ≡ₚ concat rs ∧ (all_feasible P rs → all_feasible P rs')
  ∧ length rs' = length rs.
Proof.
  simpl. destruct (inter_pass_cases st) as [[_ ->]|(rs' & delta & Hsw & ->)];
    simpl; [done|].
  by apply (applied_swap_routes _ _ delta).
Qed.

Lemma iter_routes body n st :
  (∀ st, let rs := TwoOptVRP.current_routes st in
         let rs' := TwoOptVRP.current_routes (body st) in
         concat rs' ≡ₚ concat rs ∧ (all_feasible P rs → all_feasible P rs')
         ∧ length rs' = length rs) →
  let rs := TwoOptVRP.current_routes st in
  let rs' := TwoOptVRP.current_routes (Nat.iter n body st) in
  concat rs' ≡ₚ concat rs ∧ (all_feasible P rs → all_feasible P rs')
  ∧ length rs' = length rs.
Proof.
  intros Hbody. induction n as [|n (IH1 & IH2 & IH3)]; simpl; [done|].
  destruct (Hbody (Nat.iter n body st)) as (H1 & H2 & H3).
  split; [by rewrite H1|]. split; [auto|congruence].
Qed.

(** *** The drivers *)

Lemma initial_state_inv rs : distance_inv P (TwoOptVRP.initial_state P rs).
Proof. unfold distance_inv. simpl. lra. Qed.

Lemma run_loop_Some_iff body m rs st :
  (∃ fuel, TwoOptVRP.run_loop body m fuel (TwoOptVRP.initial_state P rs)
           = Some st)
  ↔ ∃ n, stops_after P body m rs n ∧ st = pass_state P body rs n.
Proof.
  split.
  - intros [fuel H].
    destruct (run_loop_trace _ _ _ _ _ H) as (n & -> & _ & Hk & Hex).
    exists n. done.
  - intros (n & [Hk Hex] & ->). exists n. by apply run_loop_iter.
Qed.

Lemma stops_after_unique body m rs n1 n2 :
  stops_after P body m rs n1 → stops_after P body m rs n2 → n1 = n2.
Proof.
  intros [Hk1 Hex1] [Hk2 Hex2].
  destruct (Nat.lt_trichotomy n1 n2) as [Hlt|[->|Hlt]]; [|done|].
  - rewrite (Hk2 _ Hlt) in Hex1. done.
  - rewrite (Hk1 _ Hlt) in Hex2. done.
Qed.

(** With a positive budget the loop stops after the first pass that finds
    no improvement; with a non-positive budget no pass is executed. *)
Lemma stops_after_spec body m rs n :
  pass_ok P body →
  stops_after P body m rs n ↔
  if (0 <? m)%Z
  then 1 ≤ n
       ∧ TwoOptVRP.improvement_found (pass_state P body rs n) = false
       ∧ ∀ k, 1 ≤ k < n →
              TwoOptVRP.improvement_found (pass_state P body rs k) = true
  else n = 0.
Proof.
  intros Hok.
  assert (Hpos : ∀ k, 1 ≤ k → (0 < m)%Z →
    loop_cond m (pass_state P body rs k)
    = TwoOptVRP.improvement_found (pass_state P body rs k)).
  { intros [|k] Hk Hm; [lia|]. unfold pass_state, loop_cond. simpl.
    destruct (Hok (Nat.iter k body (TwoOptVRP.initial_state P rs)))
      as (_ & [(-> & _)|(-> & -> & _)]); [done|].
    simpl. by apply Z.ltb_lt. }
  assert (H0 : loop_cond m (pass_state P body rs 0) = (0 <? m)%Z) by done.
  destruct (0 <? m)%Z eqn:Hm.
  - apply Z.ltb_lt in Hm. split.
    + intros [Hk Hex]. destruct n as [|n]; [congruence|].
      split; [lia|]. split; [by rewrite <- Hpos by lia|].
      intros k Hlt. rewrite <- Hpos by lia. apply Hk. lia.
    + intros (Hn & Hex & Hk). split; [|by rewrite Hpos by lia].
      intros [|k] Hlt; [done|]. rewrite Hpos by lia. apply Hk. lia.
  - split.
    + intros [Hk Hex]. destruct n as [|n]; [done|].
      specialize (Hk 0 ltac:(lia)). congruence.
    + intros ->. split; [intros; lia|done].
Qed.

Lemma run_loop_total body m rs :
  dist_nonneg P → pass_ok P body →
  ∃ n, stops_after P body m rs n ∧ n ≤ enough_fuel P rs
       ∧ TwoOptVRP.run_loop body m (enough_fuel P rs)
           (TwoOptVRP.initial_state P rs)
         = Some (pass_state P body rs n).
Proof.
  intros Hnn Hok.
  destruct (run_loop_terminates body m (enough_fuel P rs)
              (TwoOptVRP.initial_state P rs) Hnn Hok (initial_state_inv rs))
    as [st' Hst'].
  { simpl. by apply enough_fuel_spec. }
  destruct (run_loop_trace _ _ _ _ _ Hst') as (n & -> & Hn & Hk & Hex).
  exists n. done.
Qed.

Lemma fmap_solution_Some (o : option TwoOptVRP.LoopState) sol :
  TwoOptVRP.solution_of P <$> o = Some sol ↔
  ∃ st, o = Some st ∧ sol = TwoOptVRP.solution_of P st.
Proof.
  destruct o as [st|]; simpl; split.
  - intros [= <-]. eauto.
  - by intros (? & [= <-] & ->).
  - done.
  - by intros (? & [=] & _).
Qed.

Lemma improve_returns_iff rs m sol :
  improve_returns P rs m sol ↔
  ∃ n, stops_after P (TwoOptVRP.improve_pass P) m rs n
       ∧ sol = TwoOptVRP.solution_of P
                 (pass_state P (TwoOptVRP.improve_pass P) rs n).
Proof.
  unfold improve_returns, TwoOptVRP.improve_solution.
  setoid_rewrite fmap_solution_Some. split.
  - intros (fuel & st & H & ->).
    destruct (proj1 (run_loop_Some_iff _ _ _ _) (ex_intro _ fuel H))
      as (n & Hn & ->). eauto.
  - intros (n & Hn & ->).
    destruct (proj2 (run_loop_Some_iff _ m rs _)
                (ex_intro _ n (conj Hn eq_refl))) as [fuel H]. eauto.
Qed.

Lemma inter_returns_iff rs m sol :
  inter_returns P rs m sol ↔
  ∃ n, stops_after P (TwoOptVRP.inter_pass P) m rs n
       ∧ sol = TwoOptVRP.solution_of P
                 (pass_state P (TwoOptVRP.inter_pass P) rs n).
Proof.
  unfold inter_returns, TwoOptVRP.inter_route_2opt.
  setoid_rewrite fmap_solution_Some. split.
  - intros (fuel & st & H & ->).
    destruct (proj1 (run_loop_Some_iff _ _ _ _) (ex_intro _ fuel H))
      as (n & Hn & ->). eauto.
  - intros (n & Hn & ->).
    destruct (proj2 (run_loop_Some_iff _ m rs _)
                (ex_intro _ n (conj Hn eq_refl))) as [fuel H]. eauto.
Qed.

Lemma improve_solution_total rs m :
  dist_nonneg P →
  ∃ sol, TwoOptVRP.improve_solution P (enough_fuel P rs) rs m
         = Some sol.
Proof.
  intros Hnn.
  destruct (run_loop_total (TwoOptVRP.improve_pass P) m rs Hnn improve_pass_ok)
    as (n & _ & _ & H).
  unfold TwoOptVRP.improve_solution. rewrite H. eauto.
Qed.

Lemma inter_route_2opt_total rs m :
  dist_nonneg P →
  ∃ sol, TwoOptVRP.inter_route_2opt P (enough_fuel P rs) rs m
         = Some sol.
Proof.
  intros Hnn.
  destruct (run_loop_total (TwoOptVRP.inter_pass P) m rs Hnn inter_pass_ok)
    as (n & _ & _ & H).
  unfold TwoOptVRP.inter_route_2opt. rewrite H. eauto.
Qed.

End TwoOptFacts.

(** ** Facts about the nearest-neighbour constructor *)

Section NearestNeighborFacts.
Variable P : Problem.

#[local] Abbreviation load r := (sumZ (demands P <$> r)).

Lemma filter_ne_perm (c : nat) (l : list nat) :
  NoDup l → c ∈ l → l ≡ₚ c :: filter (λ x, x ≠ c) l.
Proof.
  induction l as [|a l IH]; intros Hnd Hin.
  - by apply elem_of_nil in Hin.
  - apply NoDup_cons in Hnd as [Ha Hnd].
    destruct (decide (a = c)) as [->|Hne].
    + rewrite filter_cons_False by naive_solver. f_equiv.
      clear IH Hin. induction l as [|b l IH]; [done|].
      apply not_elem_of_cons in Ha as [Hb Ha].
      apply NoDup_cons in Hnd as [_ Hnd].
      rewrite filter_cons_True by done. f_equiv. by apply IH.
    + apply elem_of_cons in Hin as [->|Hin]; [done|].
      rewrite filter_cons_True by done.
      rewrite (IH Hnd Hin) at 1. apply perm_swap.
Qed.

Lemma fold_consider ld pos l acc c d :
  fold_left (NearestNeighborVRP.consider P ld pos) l acc = Some (c, d) →
  acc = Some (c, d)
  ∨ (c ∈ l ∧ (ld + demands P c <= vehicle_capacity P)%Z).
Proof.
  revert acc. induction l as [|x l IH]; intros acc; simpl; [by left|].
  intros H. destruct (IH _ H) as [Hacc|[Hin Hf]].
  - unfold NearestNeighborVRP.consider in Hacc.
    destruct (ld + demands P x <=? vehicle_capacity P)%Z eqn:Hle;
      [|by left].
    apply Z.leb_le in Hle.
    destruct acc as [[c0 d0]|].
    + destruct (Qltb _ _); [|by left].
      injection Hacc as <- <-. right. split; [by left|done].
    + injection Hacc as <- <-. right. split; [by left|done].
  - right. split; [by right|done].
Qed.

Lemma find_nearest_Some st c d :
  NearestNeighborVRP.find_nearest P st = Some (c, d) →
  c ∈ NearestNeighborVRP.unvisited st
  ∧ (NearestNeighborVRP.current_load st + demands P c
     <= vehicle_capacity P)%Z.
Proof.
  intros H. by destruct (fold_consider _ _ _ _ _ _ H) as [?|?].
Qed.

(** What the inner loop adds to the route it builds. *)
Lemma construct_loop_spec fuel st :
  NoDup (NearestNeighborVRP.unvisited st) →
  let st' := NearestNeighborVRP.construct_loop P fuel st in
  ∃ added,
    NearestNeighborVRP.route st' = NearestNeighborVRP.route st ++ added
    ∧ NearestNeighborVRP.unvisited st
      ≡ₚ added ++ NearestNeighborVRP.unvisited st'
    ∧ NoDup (NearestNeighborVRP.unvisited st')
    ∧ NearestNeighborVRP.current_load st'
      = (NearestNeighborVRP.current_load st + load added)%Z
    ∧ (added ≠ [] →
       (NearestNeighborVRP.current_load st' <= vehicle_capacity P)%Z).
Proof.
  revert st. induction fuel as [|fuel IH]; intros st Hnd; simpl.
  { exists []. rewrite app_nil_r. unfold sumZ. simpl.
    repeat split; [done|done|lia|done]. }
  case_bool_decide as Hemp.
  { exists []. rewrite app_nil_r. unfold sumZ. simpl.
    repeat split; [done|done|lia|done]. }
  destruct (NearestNeighborVRP.find_nearest P st) as [[c d]|] eqn:Hfind.
  2:{ exists []. rewrite app_nil_r. unfold sumZ. simpl.
      repeat split; [done|done|lia|done]. }
  destruct (find_nearest_Some _ _ _ Hfind) as [Hin Hfeas].
  match goal with
  | |- context [NearestNeighborVRP.construct_loop P fuel ?s] => set (st1 := s)
  end.
  destruct (IH st1) as (added & Hroute & Hperm & Hnd' & Hload & Hcap).
  { simpl. by apply NoDup_filter. }
  exists (c :: added). simpl in *. split; [|split; [|split; [done|split]]].
  - rewrite Hroute. by rewrite <- (assoc_L (++)).
  - rewrite (filter_ne_perm c _ Hnd Hin). by rewrite Hperm.
  - rewrite Hload, sumZ_cons. symmetry. apply Z.add_assoc.
  - intros _. destruct added as [|a added]; [|by apply Hcap].
    rewrite Hload. unfold sumZ. simpl. lia.
Qed.

(** The fuel of the inner loop is never what stops it. *)
Lemma construct_loop_fuel fuel st :
  length (NearestNeighborVRP.unvisited st) ≤ fuel →
  NearestNeighborVRP.construct_loop P (S fuel) st
  = NearestNeighborVRP.construct_loop P fuel st.
Proof.
  revert st. induction fuel as [|fuel IH]; intros st Hlen.
  - destruct (NearestNeighborVRP.unvisited st) eqn:Hu; [|simpl in Hlen; lia].
    simpl. rewrite Hu. by rewrite bool_decide_eq_true_2.
  - remember (S fuel) as n eqn:Hn. simpl. subst n.
    case_bool_decide as Hemp.
    { simpl. by rewrite bool_decide_eq_true_2. }
    destruct (NearestNeighborVRP.find_nearest P st) as [[c d]|] eqn:Hfind.
    2:{ simpl. rewrite bool_decide_eq_false_2 by done. by rewrite Hfind. }
    destruct (find_nearest_Some _ _ _ Hfind) as [Hin _].
    rewrite IH.
    + simpl. rewrite bool_decide_eq_false_2 by done. by rewrite Hfind.
    + simpl.
      assert (length (filter (λ x, x ≠ c) (NearestNeighborVRP.unvisited st))
              < length (NearestNeighborVRP.unvisited st))
        by (apply (length_filter_lt _ _ c); [done|naive_solver]).
      lia.
Qed.

Lemma construct_route_spec unv rt d unv' :
  NoDup unv →
  NearestNeighborVRP._construct_route P unv = (rt, d, unv') →
  unv ≡ₚ rt ++ unv' ∧ NoDup unv'
  ∧ (rt ≠ [] → (load rt <= vehicle_capacity P)%Z).
Proof.
  intros Hnd. unfold NearestNeighborVRP._construct_route.
  case_bool_decide as Hemp.
  { intros [= <- <- <-]. done. }
  match goal with
  | |- context [NearestNeighborVRP.construct_loop P ?f ?s] =>
      destruct (construct_loop_spec f s Hnd)
        as (added & Hroute & Hperm & Hnd' & Hload & Hcap)
  end.
  simpl in *. intros [= <- <- <-]. rewrite Hroute.
  split; [done|]. split; [done|]. intros Hne.
  specialize (Hcap Hne). lia.
Qed.

Lemma nn_inv_NoDup st :
  nn_inv P st → NoDup (NearestNeighborVRP.solve_unvisited st).
Proof.
  intros [Hperm _].
  assert (NoDup (concat (NearestNeighborVRP.solve_routes st)
                 ++ NearestNeighborVRP.solve_unvisited st)) as Hnd
    by (rewrite Hperm; apply NoDup_seq).
  by apply NoDup_app in Hnd as (_ & _ & ?).
Qed.

Lemma solve_loop_inv fuel st :
  nn_inv P st → nn_inv P (NearestNeighborVRP.solve_loop P fuel st).
Proof.
  revert st. induction fuel as [|fuel IH]; intros st Hinv; simpl; [done|].
  destruct (negb _ && _); [|done].
  destruct (NearestNeighborVRP._construct_route P
              (NearestNeighborVRP.solve_unvisited st))
    as [[rt d] unv'] eqn:Hcr.
  pose proof (nn_inv_NoDup _ Hinv) as Hnd.
  destruct (construct_route_spec _ _ _ _ Hnd Hcr) as (Hperm & Hnd' & Hcap).
  destruct Hinv as [Hpart Hall].
  case_bool_decide as Hrt; simpl.
  - subst rt. split; simpl; [|done]. rewrite <- Hpart. by rewrite Hperm.
  - apply IH. split; simpl.
    + rewrite concat_app. simpl. rewrite app_nil_r, <- (assoc_L (++)).
      rewrite <- Hpart. by rewrite Hperm.
    + apply Forall_app. split; [done|]. apply Forall_singleton. by apply Hcap.
Qed.

Lemma solve_loop_S fuel st :
  NearestNeighborVRP.solve_loop P (S fuel) st =
  if negb (bool_decide (NearestNeighborVRP.solve_unvisited st = []))
     && (NearestNeighborVRP.vehicle_count st <? num_vehicles P)
  then
    let '(route, route_distance, unvisited') :=
      NearestNeighborVRP._construct_route P
        (NearestNeighborVRP.solve_unvisited st) in
    if negb (bool_decide (route = [])) then
      NearestNeighborVRP.solve_loop P fuel
        {| NearestNeighborVRP.solve_unvisited := unvisited';
           NearestNeighborVRP.solve_routes :=
             NearestNeighborVRP.solve_routes st ++ [route];
           NearestNeighborVRP.solve_total_distance :=
             NearestNeighborVRP.solve_total_distance st + route_distance;
           NearestNeighborVRP.vehicle_count :=
             NearestNeighborVRP.vehicle_count st + 1 |}
    else
      {| NearestNeighborVRP.solve_unvisited := unvisited';
         NearestNeighborVRP.solve_routes := NearestNeighborVRP.solve_routes st;
         NearestNeighborVRP.solve_total_distance :=
           NearestNeighborVRP.solve_total_distance st;
         NearestNeighborVRP.vehicle_count :=
           NearestNeighborVRP.vehicle_count st |}
  else st.
Proof. done. Qed.

(** The fuel of the outer loop is never what stops it. *)
Lemma solve_loop_fuel fuel st :
  num_vehicles P - NearestNeighborVRP.vehicle_count st ≤ fuel →
  NearestNeighborVRP.solve_loop P (S fuel) st
  = NearestNeighborVRP.solve_loop P fuel st.
Proof.
  revert st. induction fuel as [|fuel IH]; intros st Hlen.
  - simpl. replace (NearestNeighborVRP.vehicle_count st <? num_vehicles P)
      with false by (symmetry; apply Nat.ltb_ge; lia).
    by rewrite andb_false_r.
  - rewrite (solve_loop_S (S fuel)), (solve_loop_S fuel).
    destruct (negb _ && _); [|done].
    destruct (NearestNeighborVRP._construct_route P _) as [[rt d] unv'].
    destruct (negb _); [|done].
    rewrite IH; [done|]. simpl. lia.
Qed.

Lemma nn_solve_inv :
  let sol := NearestNeighborVRP.solve P in
  concat (NearestNeighborVRP.routes sol)
    ++ NearestNeighborVRP.unvisited_customers sol
  ≡ₚ seq 0 (num_customers P)
  ∧ Forall (λ r, (load r <= vehicle_capacity P)%Z)
      (NearestNeighborVRP.routes sol).
Proof.
  unfold NearestNeighborVRP.solve. simpl. apply solve_loop_inv.
  split; simpl; [done|constructor].
Qed.

End NearestNeighborFacts.

(** ** Facts about the stable sort *)

Section Sorting.
Context {A : Type} (before : A → A → bool).

Lemma insert_sorted_perm x l : insert_sorted before x l ≡ₚ x :: l.
Proof.
  induction l as [|y l IH]; simpl; [done|].
  destruct (before x y); [done|]. rewrite IH. apply perm_swap.
Qed.

Lemma stable_sort_perm l : stable_sort before l ≡ₚ l.
Proof.
  induction l as [|x l IH]; simpl; [done|].
  by rewrite insert_sorted_perm, IH.
Qed.

Hypothesis before_total : ∀ x y, before x y = false → before y x = true.
Hypothesis before_trans :
  ∀ x y z, before x y = true → before y z = true → before x z = true.

Lemma insert_sorted_sorted x l :
  StronglySorted (λ a b, before a b = true) l →
  StronglySorted (λ a b, before a b = true) (insert_sorted before x l).
Proof.
  induction 1 as [|y l Hl IH Hy]; simpl.
  - repeat constructor.
  - destruct (before x y) eqn:Hxy.
    + constructor; [by constructor|]. constructor; [done|].
      eapply Forall_impl; [exact Hy|]. intros z Hz. simpl in Hz. eauto.
    + constructor; [done|].
      rewrite insert_sorted_perm. constructor; [|done]. auto.
Qed.

Lemma stable_sort_sorted l :
  StronglySorted (λ a b, before a b = true) (stable_sort before l).
Proof.
  induction l as [|x l IH]; simpl; [constructor|].
  by apply insert_sorted_sorted.
Qed.

End Sorting.

Lemma StronglySorted_weaken {A} (R1 R2 : A → A → Prop) l :
  (∀ x y, R1 x y → R2 x y) → StronglySorted R1 l → StronglySorted R2 l.
Proof.
  intros Himp. induction 1 as [|x l _ IH Hx]; constructor; [done|].
  eapply Forall_impl; [exact Hx|]. auto.
Qed.

Lemma flat_map_bind {A B} (f : A → list B) (l : list A) :
  flat_map f l = l ≫= f.
Proof. induction l as [|x l IH]; simpl; [done|]. by rewrite IH. Qed.

(** ** Facts about the savings constructor *)

Section SavingsFacts.
Variable P : Problem.

#[local] Abbreviation N := (num_customers P).
#[local] Abbreviation load r := (sumZ (demands P <$> r)).

Lemma elem_of_customer_pairs n i j :
  (i, j) ∈ SavingsAlgorithmVRP.customer_pairs n ↔ i < j ∧ j < n.
Proof.
  unfold SavingsAlgorithmVRP.customer_pairs.
  rewrite list_elem_of_In, in_flat_map. split.
  - intros (i' & Hi & Hj). apply list_elem_of_In, list_elem_of_fmap in Hj.
    destruct Hj as (j' & [= -> ->] & Hj). apply elem_of_seq in Hj. lia.
  - intros [H1 H2]. exists i. split.
    + apply list_elem_of_In, elem_of_seq. lia.
    + apply list_elem_of_In, list_elem_of_fmap. exists j. split; [done|].
      apply elem_of_seq. lia.
Qed.

Lemma NoDup_customer_pairs n : NoDup (SavingsAlgorithmVRP.customer_pairs n).
Proof.
  unfold SavingsAlgorithmVRP.customer_pairs. rewrite flat_map_bind.
  apply NoDup_bind.
  - intros i1 i2 [a b] _ _ H1 H2.
    apply list_elem_of_fmap in H1 as (? & [= -> ->] & _).
    by apply list_elem_of_fmap in H2 as (? & [= -> _] & _).
  - intros i _. apply NoDup_fmap_2; [|apply NoDup_seq].
    by intros ?? [=].
  - apply NoDup_seq.
Qed.

Lemma savings_list_perm :
  SavingsAlgorithmVRP.savings_list P
  ≡ₚ SavingsAlgorithmVRP.unsorted_savings P.
Proof. apply stable_sort_perm. Qed.

Lemma elem_of_savings_list i j v :
  (i, j, v) ∈ SavingsAlgorithmVRP.savings_list P ↔
  i < j ∧ j < N ∧ v = SavingsAlgorithmVRP.savings_value P i j.
Proof.
  rewrite savings_list_perm. unfold SavingsAlgorithmVRP.unsorted_savings.
  rewrite list_elem_of_fmap. split.
  - intros ([i' j'] & [= -> -> ->] & Hin).
    apply elem_of_customer_pairs in Hin as [? ?]. done.
  - intros (Hi & Hj & ->). exists (i, j). split; [done|].
    by apply elem_of_customer_pairs.
Qed.

Lemma savings_list_pairs :
  fst <$> SavingsAlgorithmVRP.savings_list P
  ≡ₚ SavingsAlgorithmVRP.customer_pairs N.
Proof.
  rewrite savings_list_perm. unfold SavingsAlgorithmVRP.unsorted_savings.
  rewrite <- list_fmap_compose.
  induction (SavingsAlgorithmVRP.customer_pairs N) as [|[i j] l IH];
    simpl; [done|]. by rewrite IH.
Qed.

Lemma savings_list_sorted :
  StronglySorted (λ x y, (y.2 <= x.2)%Q) (SavingsAlgorithmVRP.savings_list P).
Proof.
  eapply StronglySorted_weaken;
    [|apply (stable_sort_sorted (λ x y : nat * nat * Q, Qle_bool y.2 x.2))].
  - intros x y Hxy. by apply Qle_bool_iff.
  - intros x y Hxy. apply Qle_bool_iff.
    destruct (Qlt_le_dec x.2 y.2) as [Hlt|Hle]; [lra|].
    apply Qle_bool_iff in Hle. congruence.
  - intros x y z H1 H2. apply Qle_bool_iff in H1, H2. apply Qle_bool_iff. lra.
Qed.

(** *** Merging *)

Lemma merge_routes_cases route1 route2 ci cj :
  let merged := (SavingsAlgorithmVRP._merge_routes P route1 route2 ci cj).1 in
  merged = route1 ++ route2 ∨ merged = route2 ++ route1
  ∨ merged = route1 ++ reverse route2 ∨ merged = reverse route1 ++ route2.
Proof.
  unfold SavingsAlgorithmVRP._merge_routes. cbn [fst].
  repeat case_bool_decide;
    repeat (match goal with
            | |- context [?a =? ?b] => destruct (Nat.eqb_spec a b)
            end; cbn [andb]); auto; lia.
Qed.

Lemma merge_routes_perm route1 route2 ci cj :
  (SavingsAlgorithmVRP._merge_routes P route1 route2 ci cj).1
  ≡ₚ route1 ++ route2.
Proof.
  destruct (merge_routes_cases route1 route2 ci cj) as [-> | [-> | [-> | ->]]].
  - done.
  - apply Permutation_app_comm.
  - by rewrite reverse_Permutation.
  - by rewrite reverse_Permutation.
Qed.

Lemma merge_routes_load route1 route2 ci cj :
  (SavingsAlgorithmVRP._merge_routes P route1 route2 ci cj).2
  = load (SavingsAlgorithmVRP._merge_routes P route1 route2 ci cj).1.
Proof. done. Qed.

Lemma load_app r1 r2 : load (r1 ++ r2) = (load r1 + load r2)%Z.
Proof. simpl. by rewrite fmap_app, sumZ_app. Qed.

Lemma load_perm r1 r2 : r1 ≡ₚ r2 → load r1 = load r2.
Proof. intros H. simpl. apply sumZ_perm. by rewrite H. Qed.

Lemma can_merge_routes_spec route1 route2 load1 load2 ci cj :
  route1 ≠ [] → route2 ≠ [] →
  SavingsAlgorithmVRP._can_merge_routes P route1 route2 load1 load2 ci cj
  = true
  ↔ (load1 + load2 <= vehicle_capacity P)%Z
    ∧ at_end route1 ci ∧ at_end route2 cj.
Proof.
  intros H1 H2. unfold SavingsAlgorithmVRP._can_merge_routes, at_end.
  assert (∀ r c, r ≠ [] →
            (first_customer r = c ↔ head r = Some c)
            ∧ (last_customer r = c ↔ last r = Some c)) as Hends.
  { intros r c Hr. unfold first_customer, last_customer.
    destruct (head r) eqn:Hh; [|by destruct r].
    destruct (last r) eqn:Hl; [|by apply last_None in Hl].
    simpl. naive_solver. }
  destruct (Hends route1 ci H1) as [Hf1 Hl1].
  destruct (Hends route2 cj H2) as [Hf2 Hl2].
  destruct (Z.ltb_spec (vehicle_capacity P) (load1 + load2)) as [Hlt|Hle].
  - split; [done|]. lia.
  - rewrite andb_true_iff, !orb_true_iff, !bool_decide_eq_true.
    rewrite Hf1, Hl1, Hf2, Hl2. tauto.
Qed.

Lemma fold_insert_lookup (l : list nat) (m : gmap nat nat) r c :
  fold_left (λ m c, <[c := r]> m) l m !! c
  = if decide (c ∈ l) then Some r else m !! c.
Proof.
  revert m. induction l as [|x l IH]; intros m; simpl.
  - destruct (decide (c ∈ [])) as [Hin|_]; [|done].
    by apply elem_of_nil in Hin.
  - rewrite IH.
    destruct (decide (c ∈ l)) as [Hin|Hnin],
             (decide (c ∈ x :: l)) as [Hin'|Hnin']; try done.
    + exfalso. apply Hnin'. by right.
    + apply elem_of_cons in Hin' as [->|?]; [|done].
      by rewrite lookup_insert_eq.
    + apply not_elem_of_cons in Hnin' as [Hne _].
      by rewrite lookup_insert_ne.
Qed.

Lemma concat_singletons (l : list nat) : concat ((λ i, [i]) <$> l) = l.
Proof. induction l as [|x l IH]; simpl; [done|]. by f_equal. Qed.

Lemma initial_state_minv : minv P (SavingsAlgorithmVRP.initial_state P).
Proof.
  unfold minv. simpl. rewrite !length_fmap, !length_seq, concat_singletons.
  split; [done|]. split; [done|]. split; [done|]. split.
  - intros c Hc. exists c. split; [|split; [done|]].
    + apply elem_of_list_to_map.
      * rewrite <- list_fmap_compose.
        rewrite (list_fmap_ext _ id) by done.
        rewrite list_fmap_id. apply NoDup_seq.
      * apply list_elem_of_fmap. exists c. split; [done|].
        apply elem_of_seq. lia.
    + rewrite list_lookup_total_alt, list_lookup_fmap, lookup_seq_lt by done.
      simpl. by left.
  - intros r Hr.
    rewrite !list_lookup_total_alt, !list_lookup_fmap, lookup_seq_lt by done.
    simpl. unfold sumZ. simpl. lia.
Qed.

Lemma minv_route st c :
  minv P st → c < N →
  SavingsAlgorithmVRP.customer_to_route st !! c = Some (route_id st c)
  ∧ route_id st c < N
  ∧ SavingsAlgorithmVRP.merge_routes st !! route_id st c
    = Some (route_of st c)
  ∧ c ∈ route_of st c.
Proof.
  intros (Hlen & _ & _ & Hctr & _) Hc.
  destruct (Hctr c Hc) as (r & Hr & HrN & Hin).
  unfold route_of, route_id. rewrite (lookup_total_correct _ _ _ Hr).
  split; [done|]. split; [done|]. split; [|done].
  apply list_lookup_lookup_total_lt. lia.
Qed.

Lemma merge_step_unfold st i j :
  length (SavingsAlgorithmVRP.merge_routes st) = N → route_id st i < N →
  SavingsAlgorithmVRP.merge_step P st i j =
  if bool_decide (route_id st i = route_id st j) then st
  else if can_merge P st i j then merged_state P st i j else st.
Proof.
  intros Hlen Hi. unfold SavingsAlgorithmVRP.merge_step.
  fold (route_id st i) (route_id st j).
  case_bool_decide as Hne; [done|].
  fold (route_of st i) (route_of st j). fold (can_merge P st i j).
  destruct (can_merge P st i j); [|done].
  unfold merged_state.
  destruct (SavingsAlgorithmVRP._merge_routes P (route_of st i)
              (route_of st j) i j) as [merged mload].
  simpl. rewrite list_lookup_total_insert_ne by done. done.
Qed.

Lemma concat_erase_perm (rs : list (list nat)) ri rj r1 r2 merged :
  ri ≠ rj → rs !! ri = Some r1 → rs !! rj = Some r2 →
  merged ≡ₚ r1 ++ r2 →
  concat (<[rj := []]> (<[ri := merged]> rs)) ≡ₚ concat rs.
Proof.
  intros Hne H1 H2 Hm.
  assert (<[ri := merged]> rs !! rj = Some r2) as H2'
    by (by rewrite list_lookup_insert_ne).
  pose proof (concat_insert_perm _ _ _ merged H1) as HA.
  pose proof (concat_insert_perm _ _ _ [] H2') as HB.
  apply (inj (app (r1 ++ r2))).
  rewrite <- (assoc_L (++)), HB. simpl. by rewrite HA, Hm.
Qed.

Lemma merged_state_minv st i j :
  minv P st → i < N → j < N → route_id st i ≠ route_id st j →
  minv P (merged_state P st i j).
Proof.
  intros Hinv Hi Hj Hne.
  destruct (minv_route st i Hinv Hi) as (Hci & Hri & Hli & Hini).
  destruct (minv_route st j Hinv Hj) as (Hcj & Hrj & Hlj & Hinj).
  pose proof (merge_routes_perm (route_of st i) (route_of st j) i j) as Hm.
  destruct Hinv as (Hlen & Hlen' & Hperm & Hctr & Hloads).
  unfold minv, merged_state. simpl.
  rewrite !length_insert.
  split; [done|]. split; [done|]. split; [|split].
  - rewrite <- Hperm. by eapply concat_erase_perm.
  - intros c Hc. rewrite fold_insert_lookup.
    destruct (decide (c ∈ route_of st j)) as [Hin|Hnin].
    + exists (route_id st i). split; [done|]. split; [done|].
      rewrite list_lookup_total_insert_ne by done.
      rewrite list_lookup_total_insert_eq by lia.
      rewrite Hm. apply elem_of_app. by right.
    + destruct (Hctr c Hc) as (r & Hr & HrN & Hin).
      exists r. split; [done|]. split; [done|].
      assert (r ≠ route_id st j) as Hrj' by (by intros ->).
      rewrite list_lookup_total_insert_ne by done.
      destruct (decide (r = route_id st i)) as [->|Hri'].
      * rewrite list_lookup_total_insert_eq by lia.
        rewrite Hm. apply elem_of_app. by left.
      * by rewrite list_lookup_total_insert_ne.
  - intros r Hr.
    destruct (decide (r = route_id st j)) as [->|Hrj'].
    { rewrite !list_lookup_total_insert_eq by (rewrite length_insert; lia).
      done. }
    rewrite !(list_lookup_total_insert_ne _ (route_id st j)) by done.
    destruct (decide (r = route_id st i)) as [->|Hri'].
    + by rewrite !list_lookup_total_insert_eq by lia.
    + rewrite !list_lookup_total_insert_ne by done. by apply Hloads.
Qed.

Lemma merge_step_minv st i j :
  minv P st → i < N → j < N → minv P (SavingsAlgorithmVRP.merge_step P st i j).
Proof.
  intros Hinv Hi Hj.
  destruct (minv_route st i Hinv Hi) as (_ & Hri & _).
  rewrite merge_step_unfold by (done || apply Hinv).
  case_bool_decide; [done|]. destruct (can_merge P st i j); [|done].
  by apply merged_state_minv.
Qed.

Lemma can_merge_spec st i j :
  minv P st → i < N → j < N →
  can_merge P st i j = true
  ↔ (load (route_of st i) + load (route_of st j) <= vehicle_capacity P)%Z
    ∧ at_end (route_of st i) i ∧ at_end (route_of st j) j.
Proof.
  intros Hinv Hi Hj.
  destruct (minv_route st i Hinv Hi) as (_ & Hri & _ & Hini).
  destruct (minv_route st j Hinv Hj) as (_ & Hrj & _ & Hinj).
  destruct Hinv as (_ & _ & _ & _ & Hloads).
  unfold can_merge. rewrite can_merge_routes_spec.
  - rewrite (Hloads _ Hri), (Hloads _ Hrj). done.
  - intros Hemp. rewrite Hemp in Hini. by apply elem_of_nil in Hini.
  - intros Hemp. rewrite Hemp in Hinj. by apply elem_of_nil in Hinj.
Qed.

Lemma merge_step_cap_inv st i j :
  minv P st → cap_inv P st → i < N → j < N →
  cap_inv P (SavingsAlgorithmVRP.merge_step P st i j).
Proof.
  intros Hinv Hcap Hi Hj.
  destruct (minv_route st i Hinv Hi) as (_ & Hri & _).
  rewrite merge_step_unfold by (done || apply Hinv).
  case_bool_decide; [done|]. destruct (can_merge P st i j) eqn:Hcm; [|done].
  apply (can_merge_spec st i j Hinv Hi Hj) in Hcm as (Hle & _).
  unfold cap_inv, merged_state. cbn [SavingsAlgorithmVRP.merge_routes].
  apply Forall_insert; [apply Forall_insert; [done|]|done].
  intros _. rewrite (load_perm _ _ (merge_routes_perm _ _ _ _)), load_app.
  done.
Qed.

Lemma initial_state_cap_inv :
  (∀ c, c < N → (demands P c <= vehicle_capacity P)%Z) →
  cap_inv P (SavingsAlgorithmVRP.initial_state P).
Proof.
  intros Hdem. unfold cap_inv. simpl. apply Forall_fmap, Forall_seq.
  intros c Hc _. simpl. unfold sumZ. simpl.
  specialize (Hdem c ltac:(lia)). lia.
Qed.

(** *** The merging loop *)

Lemma reachable_minv st : reachable P st → minv P st.
Proof.
  induction 1 as [|st i j _ IH Hij Hj].
  - apply initial_state_minv.
  - apply merge_step_minv; [done|lia|done].
Qed.

Lemma reachable_cap_inv st :
  (∀ c, c < N → (demands P c <= vehicle_capacity P)%Z) →
  reachable P st → cap_inv P st.
Proof.
  intros Hdem. induction 1 as [|st i j Hreach IH Hij Hj].
  - by apply initial_state_cap_inv.
  - apply merge_step_cap_inv; [by apply reachable_minv|done|lia|done].
Qed.

Lemma process_reachable entries st :
  Forall (λ e, e.1.1 < e.1.2 ∧ e.1.2 < N) entries →
  reachable P st → reachable P (process P entries st).
Proof.
  intros Hall. revert st. induction Hall as [|e entries [He1 He2] _ IH];
    intros st Hst; simpl; [done|].
  apply IH. by constructor.
Qed.

(** The loop processes the entries in front of the first one whose value
    is not positive, and nothing else. *)
Lemma merge_loop_stop pre e post st :
  Forall (λ e, (0 < e.2)%Q) pre → (e.2 <= 0)%Q →
  SavingsAlgorithmVRP.merge_loop P (pre ++ e :: post) st = process P pre st.
Proof.
  intros Hpre He. revert st.
  induction Hpre as [|[[i j] v] pre Hv _ IH]; intros st; simpl.
  - destruct e as [[i j] v]. simpl in He.
    apply Qle_bool_iff in He. by rewrite He.
  - simpl in Hv. destruct (Qle_bool v 0) eqn:E.
    + apply Qle_bool_iff in E. lra.
    + apply IH.
Qed.

Lemma merge_loop_all entries st :
  Forall (λ e, (0 < e.2)%Q) entries →
  SavingsAlgorithmVRP.merge_loop P entries st = process P entries st.
Proof.
  intros Hpre. revert st.
  induction Hpre as [|[[i j] v] pre Hv _ IH]; intros st; simpl; [done|].
  simpl in Hv. destruct (Qle_bool v 0) eqn:E.
  - apply Qle_bool_iff in E. lra.
  - apply IH.
Qed.

(** A list sorted in descending order splits into its positive entries and
    the rest. *)
Lemma sorted_split (entries : list (nat * nat * Q)) :
  StronglySorted (λ x y, (y.2 <= x.2)%Q) entries →
  ∃ pre post, entries = pre ++ post
              ∧ Forall (λ e, (0 < e.2)%Q) pre
              ∧ Forall (λ e, (e.2 <= 0)%Q) post.
Proof.
  induction 1 as [|e entries Hs (pre & post & -> & Hpre & Hpost) He].
  - exists [], []. by repeat constructor.
  - destruct (Qlt_le_dec 0 e.2) as [Hpos|Hneg].
    + exists (e :: pre), post. by repeat constructor.
    + exists [], (e :: pre ++ post). split; [done|]. split; [constructor|].
      constructor; [done|]. eapply Forall_impl; [exact He|].
      intros y Hy. simpl in Hy. lra.
Qed.

Lemma merge_loop_split entries st :
  StronglySorted (λ x y, (y.2 <= x.2)%Q) entries →
  ∃ pre post, entries = pre ++ post
              ∧ Forall (λ e, (0 < e.2)%Q) pre
              ∧ Forall (λ e, (e.2 <= 0)%Q) post
              ∧ SavingsAlgorithmVRP.merge_loop P entries st = process P pre st.
Proof.
  intros Hs. destruct (sorted_split _ Hs) as (pre & post & -> & Hpre & Hpost).
  exists pre, post. repeat split; try done.
  destruct Hpost as [|e post He _].
  - rewrite app_nil_r. by apply merge_loop_all.
  - by apply merge_loop_stop.
Qed.

Lemma savings_entries_valid :
  Forall (λ e, e.1.1 < e.1.2 ∧ e.1.2 < N) (SavingsAlgorithmVRP.savings_list P).
Proof.
  apply Forall_forall. intros [[i j] v] Hin.
  apply elem_of_savings_list in Hin. simpl. lia.
Qed.

Lemma solve_state_reachable :
  reachable P (SavingsAlgorithmVRP.merge_loop P
               (SavingsAlgorithmVRP.savings_list P)
               (SavingsAlgorithmVRP.initial_state P)).
Proof.
  destruct (merge_loop_split (SavingsAlgorithmVRP.savings_list P)
              (SavingsAlgorithmVRP.initial_state P) savings_list_sorted)
    as (pre & post & Heq & _ & _ & ->).
  apply process_reachable; [|constructor].
  pose proof savings_entries_valid as Hv. rewrite Heq in Hv.
  by apply Forall_app in Hv as [? _].
Qed.

(** *** The returned solution *)

Lemma concat_filter_nonempty (rs : list (list nat)) :
  concat (filter (λ r, r ≠ []) rs) = concat rs.
Proof.
  induction rs as [|r rs IH]; [done|].
  destruct r as [|c r].
  - by rewrite filter_cons_False by naive_solver.
  - rewrite filter_cons_True by done. simpl. by rewrite IH.
Qed.

Lemma limit_vehicles_perm (rs : list (list nat)) :
  ∃ dropped, rs ≡ₚ SavingsAlgorithmVRP.limit_vehicles P rs ++ dropped.
Proof.
  unfold SavingsAlgorithmVRP.limit_vehicles.
  destruct (num_vehicles P <? length rs).
  - set (info := (λ route, (route,
                    SavingsAlgorithmVRP._calculate_route_distance P route))
                 <$> rs).
    set (sorted := stable_sort _ info).
    exists (fst <$> drop (num_vehicles P) sorted).
    rewrite <- fmap_app, take_drop. subst sorted.
    rewrite stable_sort_perm. subst info. rewrite <- list_fmap_compose.
    clear. induction rs as [|r rs IH]; simpl; [done|]. by f_equiv.
  - exists []. by rewrite app_nil_r.
Qed.

Lemma elem_of_served c (rs : list (list nat)) :
  c ∈ SavingsAlgorithmVRP.served_customers rs ↔ c ∈ concat rs.
Proof.
  unfold SavingsAlgorithmVRP.served_customers.
  assert (∀ acc : gset nat,
    c ∈ fold_left (λ served route, served ∪ list_to_set route) rs acc
    ↔ c ∈ acc ∨ c ∈ concat rs) as H.
  { induction rs as [|r rs IH]; intros acc; simpl.
    - rewrite elem_of_nil. tauto.
    - rewrite IH, elem_of_union, elem_of_list_to_set, elem_of_app. tauto. }
  rewrite H, elem_of_empty. tauto.
Qed.

(** The routes of the returned solution are routes of the final merge
    state; together with the unvisited customers they partition the
    customers. *)
Lemma savings_solve_spec :
  let sol := SavingsAlgorithmVRP.solve P in
  let st := SavingsAlgorithmVRP.merge_loop P
              (SavingsAlgorithmVRP.savings_list P)
              (SavingsAlgorithmVRP.initial_state P) in
  (∀ r, r ∈ SavingsAlgorithmVRP.routes sol →
        r ≠ [] ∧ r ∈ SavingsAlgorithmVRP.merge_routes st)
  ∧ NoDup (concat (SavingsAlgorithmVRP.routes sol))
  ∧ concat (SavingsAlgorithmVRP.routes sol)
      ++ SavingsAlgorithmVRP.unvisited_customers sol
    ≡ₚ seq 0 N.
Proof.
  intros sol st.
  pose proof (reachable_minv _ solve_state_reachable) as (_ & _ & Hperm & _).
  fold st in Hperm.
  set (final := filter (λ r, r ≠ []) (SavingsAlgorithmVRP.merge_routes st)).
  destruct (limit_vehicles_perm final) as [dropped Hdrop].
  assert (SavingsAlgorithmVRP.routes sol
          = SavingsAlgorithmVRP.limit_vehicles P final) as Hroutes by done.
  assert (concat (SavingsAlgorithmVRP.routes sol) ++ concat dropped
          ≡ₚ seq 0 N) as Hcover.
  { rewrite Hroutes, <- concat_app, <- (concat_perm _ _ Hdrop).
    subst final. by rewrite concat_filter_nonempty. }
  assert (NoDup (concat (SavingsAlgorithmVRP.routes sol))) as Hnd.
  { pose proof (NoDup_seq 0 N) as H. rewrite <- Hcover in H.
    by apply NoDup_app in H as (? & _). }
  split; [|split; [done|]].
  - intros r Hr. rewrite Hroutes in Hr.
    assert (r ∈ final) as Hin by (rewrite Hdrop; apply elem_of_app; by left).
    subst final. by apply list_elem_of_filter in Hin.
  - apply NoDup_Permutation.
    + apply NoDup_app. split; [done|]. split.
      * intros c Hc Hun. simpl in Hun.
        apply list_elem_of_filter in Hun as [Hns _].
        by apply Hns, elem_of_served.
      * simpl. apply NoDup_filter, NoDup_seq.
    + apply NoDup_seq.
    + intros c. rewrite elem_of_app. simpl.
      rewrite list_elem_of_filter, elem_of_served. split.
      * intros [Hc|[_ Hc]]; [|done].
        rewrite <- Hcover. apply elem_of_app. by left.
      * intros Hc.
        destruct (decide (c ∈ concat (SavingsAlgorithmVRP.routes sol)));
          [by left|by right].
Qed.

End SavingsFacts.

(** ** Results about the two improvement loops *)

Section TwoOptResults.
Variable P : Problem.

#[local] Abbreviation rdist := (TwoOptVRP._calculate_route_distance P).
#[local] Abbreviation total := (TwoOptVRP._calculate_total_distance P).
#[local] Abbreviation ipass := (TwoOptVRP.improve_pass P).
#[local] Abbreviation xpass := (TwoOptVRP.inter_pass P).

Lemma pass_state_inv body rs n :
  pass_ok P body → distance_inv P (pass_state P body rs n).
Proof. intros Hok. apply (iter_inv P); [done|apply initial_state_inv]. Qed.

Lemma pass_state_iterations body rs n :
  pass_ok P body → TwoOptVRP.total_iterations (pass_state P body rs n) = n.
Proof.
  intros Hok. unfold pass_state. by rewrite (iter_total_iterations P).
Qed.

Lemma pass_state_distance_le body rs n :
  pass_ok P body →
  (TwoOptVRP.current_distance (pass_state P body rs n) <= total rs)%Q.
Proof.
  intros Hok.
  apply (iter_distance_le P body n (TwoOptVRP.initial_state P rs) Hok).
Qed.

Lemma improve_pass_found st :
  TwoOptVRP.improvement_found (ipass st) = false ↔
  TwoOptVRP.scan_routes P 0 (TwoOptVRP.current_routes st) = None.
Proof.
  destruct (TwoOptVRP.scan_routes P 0 (TwoOptVRP.current_routes st))
    as [[[idx r'] imp]|] eqn:Hscan.
  - by rewrite (improve_pass_Some _ _ _ _ _ Hscan).
  - by rewrite (improve_pass_None _ _ Hscan).
Qed.

(** With a positive budget the returned routes admit no improving move. *)
Lemma improve_returns_fixed_point rs m sol :
  (0 < m)%Z → improve_returns P rs m sol →
  TwoOptVRP.scan_routes P 0 (TwoOptVRP.routes sol) = None.
Proof.
  intros Hm (n & Hstop & ->)%improve_returns_iff.
  apply (stops_after_spec P _ _ _ _ (improve_pass_ok P)) in Hstop.
  apply Z.ltb_lt in Hm. rewrite Hm in Hstop.
  destruct Hstop as (Hn & Hnf & _). destruct n as [|n]; [lia|].
  unfold pass_state in *. simpl in *.
  set (st := Nat.iter n ipass (TwoOptVRP.initial_state P rs)) in *.
  apply improve_pass_found in Hnf. by rewrite (improve_pass_None _ _ Hnf).
Qed.

(** A call on routes without improving move, or with a non-positive
    budget, returns its input. *)
Lemma improve_returns_unchanged rs m sol :
  TwoOptVRP.scan_routes P 0 rs = None ∨ (m <= 0)%Z →
  improve_returns P rs m sol →
  TwoOptVRP.routes sol = rs ∧ TwoOptVRP.total_distance sol = total rs.
Proof.
  intros Hcase (n & Hstop & ->)%improve_returns_iff.
  destruct (Z.ltb_spec 0 m) as [Hm|Hm].
  - destruct Hcase as [Hscan|?]; [|lia].
    assert (stops_after P ipass m rs 1) as Hone.
    { apply (stops_after_spec P _ _ _ _ (improve_pass_ok P)).
      apply Z.ltb_lt in Hm. rewrite Hm. split; [done|]. split; [|intros; lia].
      unfold pass_state. simpl. by apply improve_pass_found. }
    rewrite (stops_after_unique P _ _ _ _ _ Hstop Hone).
    unfold pass_state. simpl.
    by rewrite (improve_pass_None P (TwoOptVRP.initial_state P rs) Hscan).
  - apply (stops_after_spec P _ _ _ _ (improve_pass_ok P)) in Hstop.
    apply Z.ltb_ge in Hm. rewrite Hm in Hstop. by subst n.
Qed.

Lemma improve_returns_total rs m :
  dist_nonneg P → ∃ sol, improve_returns P rs m sol.
Proof.
  intros Hnn. destruct (improve_solution_total P rs m Hnn) as [sol H].
  exists sol. by eexists.
Qed.

Lemma inter_returns_total rs m :
  dist_nonneg P → ∃ sol, inter_returns P rs m sol.
Proof.
  intros Hnn. destruct (inter_route_2opt_total P rs m Hnn) as [sol H].
  exists sol. by eexists.
Qed.

Lemma improve_returns_distance rs m sol :
  improve_returns P rs m sol →
  (TwoOptVRP.total_distance sol == total (TwoOptVRP.routes sol))%Q.
Proof.
  intros (n & _ & ->)%improve_returns_iff. simpl.
  apply pass_state_inv, improve_pass_ok.
Qed.

Lemma inter_returns_distance rs m sol :
  inter_returns P rs m sol →
  (TwoOptVRP.total_distance sol == total (TwoOptVRP.routes sol))%Q.
Proof.
  intros (n & _ & ->)%inter_returns_iff. simpl.
  apply pass_state_inv, inter_pass_ok.
Qed.

End TwoOptResults.

Lemma line_problem_nonneg xs ds cap k : dist_nonneg (line_problem xs ds cap k).
Proof.
  intros a b. simpl. unfold line_distance.
  change 0%Q with (inject_Z 0). rewrite <- Zle_Qle. apply Z.abs_nonneg.
Qed.

(** * The claims *)

(** C3.  The total distance returned by [improve_solution] and by
    [inter_route_2opt] is at most the total distance of the initial routes,
    for every initial route list and every iteration budget; and with a
    non-negative distance matrix both calls do return. *)
Theorem improvement_never_increases_distance (P : Problem)
    (rs : list (list nat)) (m : Z) :
  (∀ sol, improve_returns P rs m sol →
     (TwoOptVRP.total_distance sol
      <= TwoOptVRP._calculate_total_distance P rs)%Q)
  ∧ (∀ sol, inter_returns P rs m sol →
       (TwoOptVRP.total_distance sol
        <= TwoOptVRP._calculate_total_distance P rs)%Q)
  ∧ (dist_nonneg P →
     (∃ sol, improve_returns P rs m sol)
     ∧ (∃ sol, inter_returns P rs m sol)).
Proof.
  split; [|split].
  - intros sol (n & _ & ->)%improve_returns_iff. simpl.
    apply pass_state_distance_le, improve_pass_ok.
  - intros sol (n & _ & ->)%inter_returns_iff. simpl.
    apply pass_state_distance_le, inter_pass_ok.
  - intros Hnn. split.
    + by apply improve_returns_total.
    + by apply inter_returns_total.
Qed.

Lemma improvement_never_increases_distance_witness :
  (∃ sol, improve_returns P4 crossed_route 10 sol
          ∧ (TwoOptVRP.total_distance sol
             <= TwoOptVRP._calculate_total_distance P4 crossed_route)%Q)
  ∧ (∃ sol, inter_returns P4 crossed_pair 10 sol
            ∧ (TwoOptVRP.total_distance sol
               <= TwoOptVRP._calculate_total_distance P4 crossed_pair)%Q)
  ∧ (∃ sol, improve_returns P4 crossed_route 10 sol).
Proof.
  split; [|split].
  - eexists. split; [exists 5; reflexivity|].
    apply (proj1 (improvement_never_increases_distance P4 crossed_route 10)).
    exists 5. reflexivity.
  - eexists. split; [exists 5; reflexivity|].
    apply (proj1 (proj2 (improvement_never_increases_distance P4 crossed_pair 10))).
    exists 5. reflexivity.
  - apply (proj2 (proj2 (improvement_never_increases_distance P4 crossed_route 10))).
    apply line_problem_nonneg.
Defined.

(** C10.  The [total_distance] field returned by [improve_solution] and by
    [inter_route_2opt], maintained by subtracting the improvement of each
    applied move, equals the sum of the route distances recomputed from
    the returned routes (in exact arithmetic). *)
Theorem total_distance_matches_routes (P : Problem)
    (rs : list (list nat)) (m : Z) :
  (∀ sol, improve_returns P rs m sol →
     (TwoOptVRP.total_distance sol
      == TwoOptVRP._calculate_total_distance P (TwoOptVRP.routes sol))%Q)
  ∧ (∀ sol, inter_returns P rs m sol →
       (TwoOptVRP.total_distance sol
        == TwoOptVRP._calculate_total_distance P (TwoOptVRP.routes sol))%Q)
  ∧ (dist_nonneg P →
     (∃ sol, improve_returns P rs m sol)
     ∧ (∃ sol, inter_returns P rs m sol)).
Proof.
  split; [|split].
  - intros sol. apply improve_returns_distance.
  - intros sol. apply inter_returns_distance.
  - intros Hnn. split.
    + by apply improve_returns_total.
    + by apply inter_returns_total.
Qed.

Lemma total_distance_matches_routes_witness :
  (∃ sol, improve_returns P4 crossed_route 10 sol
          ∧ (TwoOptVRP.total_distance sol
             == TwoOptVRP._calculate_total_distance P4
                  (TwoOptVRP.routes sol))%Q)
  ∧ (∃ sol, inter_returns P4 crossed_pair 10 sol
            ∧ (TwoOptVRP.total_distance sol
               == TwoOptVRP._calculate_total_distance P4
                    (TwoOptVRP.routes sol))%Q)
  ∧ (∃ sol, inter_returns P4 crossed_pair 10 sol).
Proof.
  split; [|split].
  - eexists. split; [exists 5; reflexivity|].
    apply (proj1 (total_distance_matches_routes P4 crossed_route 10)).
    exists 5. reflexivity.
  - eexists. split; [exists 5; reflexivity|].
    apply (proj1 (proj2 (total_distance_matches_routes P4 crossed_pair 10))).
    exists 5. reflexivity.
  - apply (proj2 (proj2 (total_distance_matches_routes P4 crossed_pair 10))).
    apply line_problem_nonneg.
Defined.

(** A second call on returned routes changes nothing when the first call
    had a positive budget or the second has none. *)
Lemma second_call_unchanged (P : Problem) (rs : list (list nat)) (m1 m2 : Z)
    (sol1 sol2 : TwoOptVRP.Solution) :
  (0 < m1 ∨ m2 <= 0)%Z →
  improve_returns P rs m1 sol1 →
  improve_returns P (TwoOptVRP.routes sol1) m2 sol2 →
  TwoOptVRP.routes sol2 = TwoOptVRP.routes sol1
  ∧ (TwoOptVRP.total_distance sol2 == TwoOptVRP.total_distance sol1)%Q.
Proof.
  intros Hm H1 H2.
  assert (TwoOptVRP.scan_routes P 0 (TwoOptVRP.routes sol1) = None
          ∨ (m2 <= 0)%Z) as Hcase.
  { destruct Hm as [Hm|Hm]; [left|by right].
    by apply (improve_returns_fixed_point P rs m1). }
  destruct (improve_returns_unchanged P _ _ _ Hcase H2) as [Hr Hd].
  split; [done|]. rewrite Hd.
  symmetry. by apply (improve_returns_distance P rs m1).
Qed.

(** C4.  [improve_solution] is idempotent: for every route list and every
    budget, a second call on the routes returned by a first call returns
    the same routes and the same total distance.  When the budget of the
    first call is positive its output is a fixed point of the intra-route
    search: no route of it has a move improving by more than the
    threshold, and a second call with any budget returns it unchanged. *)
Theorem improve_solution_idempotent (P : Problem)
    (rs : list (list nat)) (m : Z) :
  (∀ sol1 sol2,
     improve_returns P rs m sol1 →
     improve_returns P (TwoOptVRP.routes sol1) m sol2 →
     TwoOptVRP.routes sol2 = TwoOptVRP.routes sol1
     ∧ (TwoOptVRP.total_distance sol2 == TwoOptVRP.total_distance sol1)%Q)
  ∧ ((0 < m)%Z →
     ∀ m2 sol1 sol2,
       improve_returns P rs m sol1 →
       improve_returns P (TwoOptVRP.routes sol1) m2 sol2 →
       TwoOptVRP.scan_routes P 0 (TwoOptVRP.routes sol1) = None
       ∧ TwoOptVRP.routes sol2 = TwoOptVRP.routes sol1
       ∧ (TwoOptVRP.total_distance sol2 == TwoOptVRP.total_distance sol1)%Q)
  ∧ (dist_nonneg P →
     ∃ sol1 sol2,
       improve_returns P rs m sol1
       ∧ improve_returns P (TwoOptVRP.routes sol1) m sol2).
Proof.
  split; [|split].
  - intros sol1 sol2. apply second_call_unchanged. lia.
  - intros Hm m2 sol1 sol2 H1 H2.
    split; [by apply (improve_returns_fixed_point P rs m)|].
    apply (second_call_unchanged P rs m m2); [by left|done|done].
  - intros Hnn.
    destruct (improve_returns_total P rs m Hnn) as [sol1 H1].
    destruct (improve_returns_total P (TwoOptVRP.routes sol1) m Hnn)
      as [sol2 H2].
    by exists sol1, sol2.
Qed.

Lemma improve_solution_idempotent_witness :
  ∃ sol1 sol2,
    improve_returns P4 crossed_route 10 sol1
    ∧ improve_returns P4 (TwoOptVRP.routes sol1) 10 sol2
    ∧ TwoOptVRP.routes sol1 = [[0; 2; 1; 3]]
    ∧ TwoOptVRP.routes sol2 = TwoOptVRP.routes sol1
    ∧ (TwoOptVRP.total_distance sol2 == TwoOptVRP.total_distance sol1)%Q.
Proof.
  destruct (improve_solution_idempotent P4 crossed_route 10) as [H _].
  eexists. eexists.
  split; [exists 5; reflexivity|].
  split; [exists 5; reflexivity|].
  split; [reflexivity|].
  apply H; exists 5; reflexivity.
Defined.

(** C5.  When a pass of [improve_solution] modifies a route, the new route
    is a 2-opt move of the old one whose improvement is the maximum over
    all enumerated edge pairs [(i, j)] of that route, and that improvement
    is at least the threshold 0.001 (the test of the code is strict). *)
Theorem best_move_is_applied (P : Problem) (st : TwoOptVRP.LoopState)
    (idx : nat) :
  let d := TwoOptVRP._calculate_route_distance P in
  let rs := TwoOptVRP.current_routes st in
  let rs' := TwoOptVRP.current_routes (TwoOptVRP.improve_pass P st) in
  rs' !! idx ≠ rs !! idx →
  ∃ r i j,
    rs !! idx = Some r ∧ i + 2 ≤ j ∧ j < length r
    ∧ rs' !! idx = Some (TwoOptVRP.two_opt_move r i j)
    ∧ (∀ i' j', i' + 2 ≤ j' → j' < length r →
         (d r - d (TwoOptVRP.two_opt_move r i' j')
          <= d r - d (TwoOptVRP.two_opt_move r i j))%Q)
    ∧ (threshold <= d r - d (TwoOptVRP.two_opt_move r i j))%Q
    ∧ (threshold < d r - d (TwoOptVRP.two_opt_move r i j))%Q.
Proof.
  intros d rs rs' Hne. subst rs'.
  destruct (TwoOptVRP.scan_routes P 0 rs) as [[[idx0 r'] imp]|] eqn:Hscan.
  2:{ by rewrite (improve_pass_None P st Hscan) in Hne. }
  rewrite (improve_pass_Some P st _ _ _ Hscan) in *. simpl in *. fold rs in Hne |- *.
  destruct (decide (idx = idx0)) as [->|Hidx];
    [|by rewrite list_lookup_insert_ne in Hne].
  destruct (scan_routes_Some P _ _ _ _ _ Hscan)
    as (r & _ & Hr & _ & Himp & Hlt).
  rewrite Nat.sub_0_r in Hr.
  assert (idx0 < length rs) as Hlen by (by eapply lookup_lt_Some).
  rewrite list_lookup_insert_eq by done.
  destruct (improve_route_2opt_spec P r) as (Hsel & _ & Hmax).
  rewrite Himp in Hsel, Hmax. simpl in Hsel, Hmax.
  destruct Hsel as [[= -> ->]|(i & j & Hij & Hj & [= -> ->] & Hf & Hpos)].
  { unfold threshold in Hlt. lra. }
  exists r, i, j. fold d in Hlt, Hmax |- *.
  split; [done|]. split; [done|]. split; [done|]. split; [done|].
  split; [|split; [lra|done]].
  intros i' j' Hij' Hj'. apply Hmax; [done|done|].
  rewrite (is_feasible_perm P _ r) by (by apply two_opt_move_perm).
  by rewrite <- (is_feasible_perm P _ r (two_opt_move_perm r i j Hij)).
Qed.

Lemma best_move_is_applied_witness :
  ∃ r i j,
    crossed_route !! 0 = Some r ∧ i + 2 ≤ j ∧ j < length r
    ∧ TwoOptVRP.current_routes
        (TwoOptVRP.improve_pass P4 (TwoOptVRP.initial_state P4 crossed_route))
      !! 0 = Some (TwoOptVRP.two_opt_move r i j)
    ∧ (threshold
       <= TwoOptVRP._calculate_route_distance P4 r
          - TwoOptVRP._calculate_route_distance P4
              (TwoOptVRP.two_opt_move r i j))%Q.
Proof.
  destruct (best_move_is_applied P4
              (TwoOptVRP.initial_state P4 crossed_route) 0)
    as (r & i & j & H1 & H2 & H3 & H4 & _ & H5 & _).
  - vm_compute. discriminate.
  - exists r, i, j. repeat split; assumption.
Defined.

(** C8, as the code has it.  Both loops terminate for every input with a
    non-negative distance matrix.  With a positive [max_iterations] each
    runs until the first pass that finds no improvement, whatever the
    value of [max_iterations]; with [max_iterations <= 0] no pass is run.
    [improvement_iterations] is the number of passes executed. *)
Theorem loops_stop_at_first_failure (P : Problem)
    (rs : list (list nat)) (m : Z) :
  dist_nonneg P →
  (∃ sol n,
     TwoOptVRP.improve_solution P (enough_fuel P rs) rs m = Some sol
     ∧ TwoOptVRP.improvement_iterations sol = n
     ∧ TwoOptVRP.routes sol
       = TwoOptVRP.current_routes
           (pass_state P (TwoOptVRP.improve_pass P) rs n)
     ∧ stops_at_first_failure P (TwoOptVRP.improve_pass P) m rs n)
  ∧ (∃ sol n,
       TwoOptVRP.inter_route_2opt P (enough_fuel P rs) rs m
       = Some sol
       ∧ TwoOptVRP.improvement_iterations sol = n
       ∧ TwoOptVRP.routes sol
         = TwoOptVRP.current_routes
             (pass_state P (TwoOptVRP.inter_pass P) rs n)
       ∧ stops_at_first_failure P (TwoOptVRP.inter_pass P) m rs n).
Proof.
  intros Hnn. split.
  - destruct (run_loop_total P (TwoOptVRP.improve_pass P) m rs Hnn
                (improve_pass_ok P)) as (n & Hstop & _ & Hrun).
    exists (TwoOptVRP.solution_of P
              (pass_state P (TwoOptVRP.improve_pass P) rs n)), n.
    unfold TwoOptVRP.improve_solution. rewrite Hrun. simpl.
    split; [done|]. split; [apply pass_state_iterations, improve_pass_ok|].
    split; [done|].
    by apply (stops_after_spec P _ _ _ _ (improve_pass_ok P)).
  - destruct (run_loop_total P (TwoOptVRP.inter_pass P) m rs Hnn
                (inter_pass_ok P)) as (n & Hstop & _ & Hrun).
    exists (TwoOptVRP.solution_of P
              (pass_state P (TwoOptVRP.inter_pass P) rs n)), n.
    unfold TwoOptVRP.inter_route_2opt. rewrite Hrun. simpl.
    split; [done|]. split; [apply pass_state_iterations, inter_pass_ok|].
    split; [done|].
    by apply (stops_after_spec P _ _ _ _ (inter_pass_ok P)).
Qed.

Lemma loops_stop_at_first_failure_witness :
  ∃ sol n,
    TwoOptVRP.improve_solution P4 (enough_fuel P4 crossed_route)
      crossed_route 3 = Some sol
    ∧ TwoOptVRP.improvement_iterations sol = n
    ∧ stops_at_first_failure P4 (TwoOptVRP.improve_pass P4) 3 crossed_route n.
Proof.
  destruct (loops_stop_at_first_failure P4 crossed_route 3
              (line_problem_nonneg _ _ _ _))
    as [(sol & n & H1 & H2 & _ & H3) _].
  exists sol, n. split; [exact H1|]. split; [exact H2|exact H3].
Defined.

(** C8 fails as written: with [max_iterations = 3] the intra-route loop on
    [crossed_route] returns after two passes, the first of which found an
    improvement. *)
Lemma budget_not_exhausted :
  ∃ sol,
    TwoOptVRP.improve_solution P4 (enough_fuel P4 crossed_route)
      crossed_route 3 = Some sol
    ∧ TwoOptVRP.improvement_iterations sol = 2
    ∧ ¬ continues_for_budget P4 (TwoOptVRP.improve_pass P4) 3 crossed_route
          (TwoOptVRP.improvement_iterations sol).
Proof.
  eexists. split; [vm_compute; reflexivity|]. split; [reflexivity|].
  intros [Hle _]. vm_compute in Hle. by apply Hle.
Qed.

Lemma improve_returns_routes P rs m sol :
  improve_returns P rs m sol →
  concat (TwoOptVRP.routes sol) ≡ₚ concat rs
  ∧ (capacity_respected P rs → capacity_respected P (TwoOptVRP.routes sol))
  ∧ length (TwoOptVRP.routes sol) = length rs.
Proof.
  intros (n & _ & ->)%improve_returns_iff.
  apply (iter_routes P (TwoOptVRP.improve_pass P) n
           (TwoOptVRP.initial_state P rs) (improve_pass_routes P)).
Qed.

Lemma inter_returns_routes P rs m sol :
  inter_returns P rs m sol →
  concat (TwoOptVRP.routes sol) ≡ₚ concat rs
  ∧ (capacity_respected P rs → capacity_respected P (TwoOptVRP.routes sol))
  ∧ length (TwoOptVRP.routes sol) = length rs.
Proof.
  intros (n & _ & ->)%inter_returns_iff.
  apply (iter_routes P (TwoOptVRP.inter_pass P) n
           (TwoOptVRP.initial_state P rs) (inter_pass_routes P)).
Qed.

Lemma improve_returns_feasible P rs m sol :
  improve_returns P rs m sol →
  TwoOptVRP.feasible sol = true ↔ capacity_respected P (TwoOptVRP.routes sol).
Proof.
  intros (n & _ & ->)%improve_returns_iff. apply check_feasibility_spec.
Qed.

Lemma inter_returns_feasible P rs m sol :
  inter_returns P rs m sol →
  TwoOptVRP.feasible sol = true ↔ capacity_respected P (TwoOptVRP.routes sol).
Proof.
  intros (n & _ & ->)%inter_returns_iff. apply check_feasibility_spec.
Qed.

Lemma savings_solve_capacity P :
  (∀ c, c < num_customers P → (demands P c <= vehicle_capacity P)%Z) →
  capacity_respected P (SavingsAlgorithmVRP.routes (SavingsAlgorithmVRP.solve P)).
Proof.
  intros Hdem. apply Forall_forall. intros r Hr.
  destruct (savings_solve_spec P) as (Hsub & _).
  destruct (Hsub r Hr) as [Hne Hin].
  pose proof (reachable_cap_inv P _ Hdem (solve_state_reachable P)) as Hcap.
  unfold cap_inv in Hcap. rewrite Forall_forall in Hcap. by apply Hcap.
Qed.

(** C1, as the code has it.  Every route returned by
    [NearestNeighborVRP.solve] carries at most the vehicle capacity.  So
    does every route returned by [SavingsAlgorithmVRP.solve] when no single
    customer demands more than the capacity.  [improve_solution] and
    [inter_route_2opt] keep the capacity of the routes they are given, and
    their [feasible] flag tells whether the returned routes respect it. *)
Theorem capacity_invariant (P : Problem) :
  capacity_respected P (NearestNeighborVRP.routes (NearestNeighborVRP.solve P))
  ∧ ((∀ c, c < num_customers P → (demands P c <= vehicle_capacity P)%Z) →
     capacity_respected P
       (SavingsAlgorithmVRP.routes (SavingsAlgorithmVRP.solve P)))
  ∧ (∀ rs m sol,
       improve_returns P rs m sol →
       (capacity_respected P rs → capacity_respected P (TwoOptVRP.routes sol))
       ∧ (TwoOptVRP.feasible sol = true
          ↔ capacity_respected P (TwoOptVRP.routes sol)))
  ∧ (∀ rs m sol,
       inter_returns P rs m sol →
       (capacity_respected P rs → capacity_respected P (TwoOptVRP.routes sol))
       ∧ (TwoOptVRP.feasible sol = true
          ↔ capacity_respected P (TwoOptVRP.routes sol))).
Proof.
  split; [|split; [|split]].
  - apply nn_solve_inv.
  - apply savings_solve_capacity.
  - intros rs m sol H. split.
    + by apply (improve_returns_routes P rs m sol).
    + by apply (improve_returns_feasible P rs m sol).
  - intros rs m sol H. split.
    + by apply (inter_returns_routes P rs m sol).
    + by apply (inter_returns_feasible P rs m sol).
Qed.

Lemma capacity_invariant_witness :
  capacity_respected P6
    (SavingsAlgorithmVRP.routes (SavingsAlgorithmVRP.solve P6))
  ∧ ∃ sol, improve_returns P4 crossed_route 10 sol
           ∧ capacity_respected P4 (TwoOptVRP.routes sol).
Proof.
  split.
  - apply (proj1 (proj2 (capacity_invariant P6))).
    intros c Hc. simpl in Hc.
    do 6 (destruct c as [|c]; [vm_compute; discriminate|]). lia.
  - eexists. split; [exists 5; reflexivity|].
    apply (proj1 (proj2 (proj2 (capacity_invariant P4))) crossed_route 10%Z).
    + exists 5. reflexivity.
    + by repeat constructor.
Defined.

(** C1 fails as written: the savings constructor returns the route of a
    customer whose demand exceeds the capacity, and the improver returns an
    overloaded route it was given. *)
Lemma overloaded_route_returned :
  ¬ capacity_respected P1
      (SavingsAlgorithmVRP.routes (SavingsAlgorithmVRP.solve P1))
  ∧ ∃ sol, TwoOptVRP.improve_solution P1 1 lone_route 1000 = Some sol
           ∧ ¬ capacity_respected P1 (TwoOptVRP.routes sol).
Proof.
  split.
  - intros H. apply Forall_cons in H as [H _]. vm_compute in H. by apply H.
  - eexists. split; [reflexivity|].
    intros H. apply Forall_cons in H as [H _]. vm_compute in H. by apply H.
Qed.

(** C2.  In the solution of either constructor no customer appears twice in
    the routes, and the customers of the routes together with
    [unvisited_customers] are exactly the customers [0 .. N-1].
    [inter_route_2opt] keeps the customers of its routes: the returned
    routes hold the same customers, each as often as before, in as many
    routes. *)
Theorem partition_invariant (P : Problem) :
  (let sol := NearestNeighborVRP.solve P in
   NoDup (concat (NearestNeighborVRP.routes sol))
   ∧ concat (NearestNeighborVRP.routes sol)
       ++ NearestNeighborVRP.unvisited_customers sol
     ≡ₚ seq 0 (num_customers P))
  ∧ (let sol := SavingsAlgorithmVRP.solve P in
     NoDup (concat (SavingsAlgorithmVRP.routes sol))
     ∧ concat (SavingsAlgorithmVRP.routes sol)
         ++ SavingsAlgorithmVRP.unvisited_customers sol
       ≡ₚ seq 0 (num_customers P))
  ∧ (∀ rs m sol,
       inter_returns P rs m sol →
       concat (TwoOptVRP.routes sol) ≡ₚ concat rs
       ∧ length (TwoOptVRP.routes sol) = length rs
       ∧ (NoDup (concat rs) → NoDup (concat (TwoOptVRP.routes sol))))
  ∧ (dist_nonneg P → ∀ rs m, ∃ sol, inter_returns P rs m sol).
Proof.
  split; [|split; [|split]].
  - destruct (nn_solve_inv P) as [Hperm _]. split; [|done].
    pose proof (NoDup_seq 0 (num_customers P)) as Hnd.
    rewrite <- Hperm in Hnd. by apply NoDup_app in Hnd as (? & _).
  - destruct (savings_solve_spec P) as (_ & Hnd & Hperm). done.
  - intros rs m sol H.
    destruct (inter_returns_routes P rs m sol H) as (Hperm & _ & Hlen).
    split; [done|]. split; [done|]. by rewrite Hperm.
  - intros Hnn rs m. by apply inter_returns_total.
Qed.

Lemma partition_invariant_witness :
  ∃ sol, inter_returns P4 crossed_pair 10 sol
         ∧ TwoOptVRP.routes sol = [[3; 1]; [2; 0]]
         ∧ concat (TwoOptVRP.routes sol) ≡ₚ concat crossed_pair.
Proof.
  eexists. split; [exists 5; reflexivity|]. split; [reflexivity|].
  apply (proj1 (proj2 (proj2 (partition_invariant P4))) crossed_pair 10%Z).
  exists 5. reflexivity.
Defined.

Lemma merged_state_merged P st i j :
  minv P st → i < num_customers P → j < num_customers P →
  route_id st i ≠ route_id st j →
  merged P st (merged_state P st i j) i j.
Proof.
  intros Hinv Hi Hj Hne.
  destruct (minv_route P st i Hinv Hi) as (_ & Hri & _).
  destruct (minv_route P st j Hinv Hj) as (_ & Hrj & _).
  destruct Hinv as (Hlen & _).
  unfold merged, merged_state. cbn [SavingsAlgorithmVRP.merge_routes].
  split; [|split].
  - rewrite list_lookup_total_insert_ne by done.
    rewrite list_lookup_total_insert_eq by lia.
    apply merge_routes_perm.
  - by rewrite list_lookup_total_insert_eq by (rewrite length_insert; lia).
  - intros r Hr1 Hr2. by rewrite !list_lookup_total_insert_ne.
Qed.

(** C6.  For a savings entry [(i, j)] that the loop processes: if the two
    customers already share a route the entry is skipped; otherwise their
    routes are merged if and only if the combined demand of the two routes
    is at most the capacity and each of the two customers is the first or
    the last element of its route, and when they are not merged nothing
    changes. *)
Theorem merge_iff_capacity_and_endpoints (P : Problem)
    (st : SavingsAlgorithmVRP.MergeState) (i j : nat) :
  reachable P st → i < j → j < num_customers P →
  let st' := SavingsAlgorithmVRP.merge_step P st i j in
  (route_id st i = route_id st j → st' = st)
  ∧ (route_id st i ≠ route_id st j →
     (merged P st st' i j
      ↔ (sumZ (demands P <$> route_of st i)
         + sumZ (demands P <$> route_of st j) <= vehicle_capacity P)%Z
        ∧ at_end (route_of st i) i ∧ at_end (route_of st j) j)
     ∧ (¬ merged P st st' i j → st' = st)).
Proof.
  intros Hreach Hij Hj st'. subst st'.
  pose proof (reachable_minv P st Hreach) as Hinv.
  assert (i < num_customers P) as Hi by lia.
  destruct (minv_route P st i Hinv Hi) as (_ & Hri & _ & Hini).
  destruct (minv_route P st j Hinv Hj) as (_ & Hrj & _ & Hinj).
  rewrite merge_step_unfold by (done || apply Hinv).
  case_bool_decide as Hsame; [by split|].
  split; [done|]. intros _.
  rewrite <- (can_merge_spec P st i j Hinv Hi Hj).
  destruct (can_merge P st i j) eqn:Hcm.
  - pose proof (merged_state_merged P st i j Hinv Hi Hj Hsame) as Hm.
    split; [by split|]. by intros [].
  - assert (¬ merged P st st i j) as Hnm.
    { intros (_ & Hemp & _). fold (route_of st j) in Hemp.
      rewrite Hemp in Hinj. by apply elem_of_nil in Hinj. }
    split; [|done]. split; [done|]. intros [=].
Qed.

Lemma merge_iff_capacity_and_endpoints_witness :
  let st := SavingsAlgorithmVRP.initial_state P6 in
  let st' := SavingsAlgorithmVRP.merge_step P6 st 4 5 in
  merged P6 st st' 4 5
  ↔ (sumZ (demands P6 <$> route_of st 4)
     + sumZ (demands P6 <$> route_of st 5) <= vehicle_capacity P6)%Z
    ∧ at_end (route_of st 4) 4 ∧ at_end (route_of st 5) 5.
Proof.
  intros st st'.
  assert (4 < 5) as H45 by lia.
  assert (5 < num_customers P6) as H5 by (simpl; lia).
  destruct (merge_iff_capacity_and_endpoints P6 st 4 5
              (reachable_init P6) H45 H5) as [_ H].
  apply H. vm_compute. discriminate.
Defined.

(** C7.  The savings list has exactly one entry for every customer pair
    [i < j], with value [dist(depot,i) + dist(depot,j) - dist(i,j)]; it is
    sorted in descending order of value; the merging loop stops at the
    first entry whose value is not positive, so that the state [solve]
    reaches comes from the positive entries alone. *)
Theorem savings_list_spec (P : Problem) :
  (∀ i j v,
     (i, j, v) ∈ SavingsAlgorithmVRP.savings_list P
     ↔ i < j ∧ j < num_customers P
       ∧ v = (distance_matrix P 0 (i + 1) + distance_matrix P 0 (j + 1)
              - distance_matrix P (i + 1) (j + 1))%Q)
  ∧ NoDup (fst <$> SavingsAlgorithmVRP.savings_list P)
  ∧ StronglySorted (λ x y, (y.2 <= x.2)%Q) (SavingsAlgorithmVRP.savings_list P)
  ∧ (∀ pre e post st,
       Forall (λ e, (0 < e.2)%Q) pre → (e.2 <= 0)%Q →
       SavingsAlgorithmVRP.merge_loop P (pre ++ e :: post) st
       = process P pre st)
  ∧ (∃ pre post,
       SavingsAlgorithmVRP.savings_list P = pre ++ post
       ∧ Forall (λ e, (0 < e.2)%Q) pre
       ∧ Forall (λ e, (e.2 <= 0)%Q) post
       ∧ SavingsAlgorithmVRP.merge_loop P (SavingsAlgorithmVRP.savings_list P)
           (SavingsAlgorithmVRP.initial_state P)
         = process P pre (SavingsAlgorithmVRP.initial_state P)).
Proof.
  split; [|split; [|split; [|split]]].
  - apply elem_of_savings_list.
  - rewrite savings_list_pairs. apply NoDup_customer_pairs.
  - apply savings_list_sorted.
  - intros pre e post st. apply merge_loop_stop.
  - apply merge_loop_split, savings_list_sorted.
Qed.

Lemma savings_list_spec_witness :
  SavingsAlgorithmVRP.savings_list P2 = [opposite_pair]
  ∧ SavingsAlgorithmVRP.merge_loop P2 ([] ++ opposite_pair :: [])
      (SavingsAlgorithmVRP.initial_state P2)
    = process P2 [] (SavingsAlgorithmVRP.initial_state P2).
Proof.
  split; [reflexivity|].
  apply (proj1 (proj2 (proj2 (proj2 (savings_list_spec P2))))).
  - constructor.
  - simpl. lra.
Defined.

(** ** Facts about the improver over the store *)

Section StoreFacts.
Variable P : Problem.

(** Unpack the bindings of a successful store computation. *)
Ltac unpack :=
  repeat match goal with
         | H : (_ ≫= _) = Some _ |- _ =>
             apply bind_Some in H as (? & ? & H)
         | H : (let '(_, _) := ?p in _) = Some _ |- _ =>
             destruct p eqn:?
         | H : match ?x with _ => _ end = Some _ |- _ =>
             destruct x eqn:?; try discriminate
         | H : Some _ = Some _ |- _ => injection H as ?
         | H : (_, _) = (_, _) |- _ => injection H as ?
         end; subst.

Lemma alloc_spec o (h : list TwoOptStore.object) l h' :
  TwoOptStore.alloc o h = (l, h') →
  l = length h ∧ h' = h ++ [o] ∧ h `prefix_of` h' ∧ h' !! l = Some o.
Proof.
  intros [= <- <-]. split; [done|]. split; [done|].
  split; [by apply prefix_app_r|].
  rewrite lookup_app_r by done. by rewrite Nat.sub_diag.
Qed.

Lemma insert_prefix (h0 h : list TwoOptStore.object) l o :
  h0 `prefix_of` h → length h0 ≤ l → h0 `prefix_of` <[l := o]> h.
Proof.
  intros [k ->] Hl. rewrite insert_app_r_alt by done. by apply prefix_app_r.
Qed.

Lemma read_route_mono (h h' : list TwoOptStore.object) l r :
  h `prefix_of` h' →
  TwoOptStore.read_route h l = Some r → TwoOptStore.read_route h' l = Some r.
Proof.
  intros Hpre. unfold TwoOptStore.read_route.
  destruct (h !! l) as [o|] eqn:Hl; [|done].
  by rewrite (prefix_lookup_Some _ _ _ _ Hl Hpre).
Qed.

Lemma read_routes_mono (h h' : list TwoOptStore.object) l rs :
  h `prefix_of` h' →
  TwoOptStore.read_routes h l = Some rs →
  TwoOptStore.read_routes h' l = Some rs.
Proof.
  intros Hpre. unfold TwoOptStore.read_routes.
  destruct (h !! l) as [[items|r]|] eqn:Hl; try done.
  rewrite (prefix_lookup_Some _ _ _ _ Hl Hpre), !mapM_Some.
  intros H. eapply Forall2_impl; [exact H|].
  intros li r Hr. by eapply read_route_mono.
Qed.

(** *** Which objects are written *)

Lemma set_item_frame (h0 h h' : list TwoOptStore.object) l idx v :
  TwoOptStore.set_item l idx v h = Some h' →
  h0 `prefix_of` h → length h0 ≤ l → h0 `prefix_of` h'.
Proof.
  unfold TwoOptStore.set_item. intros H Hpre Hl. unpack.
  by apply insert_prefix.
Qed.

Lemma set_customer_frame (h0 h h' : list TwoOptStore.object) l idx c :
  TwoOptStore.set_customer l idx c h = Some h' →
  h0 `prefix_of` h → length h0 ≤ l → h0 `prefix_of` h'.
Proof.
  unfold TwoOptStore.set_customer. intros H Hpre Hl. unpack.
  by apply insert_prefix.
Qed.

Lemma set_item_length (h h' : list TwoOptStore.object) l idx v :
  TwoOptStore.set_item l idx v h = Some h' → length h' = length h.
Proof.
  unfold TwoOptStore.set_item. intros H. unpack. apply length_insert.
Qed.

Lemma set_customer_length (h h' : list TwoOptStore.object) l idx c :
  TwoOptStore.set_customer l idx c h = Some h' → length h' = length h.
Proof.
  unfold TwoOptStore.set_customer. intros H. unpack. apply length_insert.
Qed.

Lemma copy_route_frame (h h' : list TwoOptStore.object) l l' :
  TwoOptStore.copy_route l h = Some (l', h') →
  l' = length h ∧ h `prefix_of` h' ∧ length h' = S (length h).
Proof.
  unfold TwoOptStore.copy_route. intros H.
  apply bind_Some in H as (r & _ & H). injection H as <- <-.
  split; [done|]. split; [by apply prefix_app_r|].
  rewrite length_app. simpl. lia.
Qed.

Lemma deepcopy_items_frame items memo (h : list TwoOptStore.object)
    ls memo' h' :
  TwoOptStore.deepcopy_items items memo h = Some (ls, memo', h') →
  h `prefix_of` h'.
Proof.
  revert memo h ls memo' h'.
  induction items as [|l rest IH]; intros memo h ls memo' h' H; simpl in H.
  - by injection H as <- <- <-.
  - destruct (memo !! l) as [l0|].
    + apply bind_Some in H as ([[ls1 memo1] h1] & H1 & H).
      injection H as <- <- <-. by eapply IH.
    + apply bind_Some in H as (r & Hr & H).
      apply bind_Some in H as ([[ls1 memo1] h1] & H1 & H).
      injection H as <- <- <-. apply IH in H1.
      etrans; [|exact H1]. by apply prefix_app_r.
Qed.

Lemma deepcopy_frame (h h' : list TwoOptStore.object) l l' :
  TwoOptStore.deepcopy l h = Some (l', h') →
  h `prefix_of` h' ∧ length h ≤ l'.
Proof.
  unfold TwoOptStore.deepcopy. intros H.
  destruct (h !! l) as [[items|r]|]; try done.
  apply bind_Some in H as ([[ls1 memo1] h1] & H1 & H).
  injection H as <- <-. apply deepcopy_items_frame in H1.
  split.
  - etrans; [exact H1|]. by apply prefix_app_r.
  - by apply prefix_length.
Qed.

Lemma improve_pass_frame (h0 h h' : list TwoOptStore.object) st st' :
  TwoOptStore.improve_pass P st h = Some (st', h') →
  h0 `prefix_of` h → length h0 ≤ TwoOptStore.current_routes st →
  h0 `prefix_of` h'
  ∧ TwoOptStore.current_routes st' = TwoOptStore.current_routes st.
Proof.
  unfold TwoOptStore.improve_pass. intros H Hpre Hl.
  apply bind_Some in H as (rs & Hrs & H).
  destruct (TwoOptVRP.scan_routes P 0 rs) as [[[idx r'] imp]|].
  - cbn [TwoOptStore.alloc] in H.
    apply bind_Some in H as (h2 & H2 & H). injection H as <- <-.
    split; [|done]. eapply set_item_frame; [exact H2| |done].
    etrans; [exact Hpre|]. by apply prefix_app_r.
  - by injection H as <- <-.
Qed.

Lemma inter_pass_frame (h0 h h' : list TwoOptStore.object) st st' :
  TwoOptStore.inter_pass P st h = Some (st', h') →
  h0 `prefix_of` h → length h0 ≤ TwoOptStore.current_routes st →
  h0 `prefix_of` h'
  ∧ TwoOptStore.current_routes st' = TwoOptStore.current_routes st.
Proof.
  unfold TwoOptStore.inter_pass. intros H Hpre Hl.
  apply bind_Some in H as (rs & Hrs & H).
  destruct (find _ _) as [[[[i j] ci] cj]|].
  2:{ by injection H as <- <-. }
  apply bind_Some in H as (li & Hli & H).
  apply bind_Some in H as (lj & Hlj & H).
  apply bind_Some in H as ([ni h1] & Hc1 & H).
  apply bind_Some in H as ([nj h2] & Hc2 & H).
  apply bind_Some in H as (a & Ha & H).
  apply bind_Some in H as (b & Hb & H).
  apply bind_Some in H as (h3 & H3 & H).
  apply bind_Some in H as (h4 & H4 & H).
  apply bind_Some in H as (ri' & Hri' & H).
  apply bind_Some in H as (rj' & Hrj' & H).
  apply bind_Some in H as (h5 & H5 & H).
  apply bind_Some in H as (h6 & H6 & H).
  injection H as <- <-. split; [|done].
  apply copy_route_frame in Hc1 as (-> & Hp1 & Hlen1).
  apply copy_route_frame in Hc2 as (-> & Hp2 & Hlen2).
  pose proof (prefix_length _ _ Hpre) as Hlen0.
  assert (h0 `prefix_of` h2) as Hp by (by etrans; [|etrans]).
  eapply set_item_frame; [exact H6| |done].
  eapply set_item_frame; [exact H5| |done].
  eapply set_customer_frame; [exact H4| |lia].
  eapply set_customer_frame; [exact H3|done|lia].
Qed.

Lemma run_loop_frame body m fuel st (h0 h h' : list TwoOptStore.object) st' :
  (∀ st h st' h',
     body st h = Some (st', h') →
     h0 `prefix_of` h → length h0 ≤ TwoOptStore.current_routes st →
     h0 `prefix_of` h'
     ∧ TwoOptStore.current_routes st' = TwoOptStore.current_routes st) →
  TwoOptStore.run_loop body m fuel st h = Some (st', h') →
  h0 `prefix_of` h → length h0 ≤ TwoOptStore.current_routes st →
  h0 `prefix_of` h'
  ∧ TwoOptStore.current_routes st' = TwoOptStore.current_routes st.
Proof.
  intros Hbody. revert st h.
  induction fuel as [|fuel IH]; intros st h H Hpre Hl; simpl in H;
    destruct (_ && _); try done; try (by injection H as <- <-).
  apply bind_Some in H as ([st1 h1] & H1 & H).
  destruct (Hbody _ _ _ _ H1 Hpre Hl) as [Hpre1 Hcur1].
  destruct (IH _ _ H Hpre1) as [Hpre' Hcur']; [lia|].
  split; [done|congruence].
Qed.

(** The objects of the caller's store are all unchanged by a run, and the
    returned list of routes is a new object. *)
Lemma run_frame body fuel l m (h h' : list TwoOptStore.object) sol :
  (∀ h0 st h st' h',
     body st h = Some (st', h') →
     h0 `prefix_of` h → length h0 ≤ TwoOptStore.current_routes st →
     h0 `prefix_of` h'
     ∧ TwoOptStore.current_routes st' = TwoOptStore.current_routes st) →
  TwoOptStore.run P body fuel l m h = Some (sol, h') →
  h `prefix_of` h' ∧ length h ≤ TwoOptStore.routes sol.
Proof.
  intros Hbody H. unfold TwoOptStore.run in H.
  apply bind_Some in H as ([copy h1] & Hcopy & H).
  apply bind_Some in H as (rs & Hrs & H).
  apply bind_Some in H as ([st h2] & Hloop & H).
  apply bind_Some in H as (rs' & Hrs' & H).
  injection H as <- <-. simpl.
  apply deepcopy_frame in Hcopy as [Hp1 Hl1].
  destruct (run_loop_frame _ _ _ _ h _ _ _ (Hbody h) Hloop Hp1 Hl1)
    as [Hp2 Hcur].
  split; [done|]. by rewrite Hcur.
Qed.

(** *** The store computation follows the computation on values *)

Lemma read_routes_Some (h : list TwoOptStore.object) l rs :
  TwoOptStore.read_routes h l = Some rs ↔
  ∃ items, h !! l = Some (TwoOptStore.RouteList items)
           ∧ Forall2 (λ li r, TwoOptStore.read_route h li = Some r) items rs.
Proof.
  unfold TwoOptStore.read_routes.
  destruct (h !! l) as [[items|r]|].
  - rewrite mapM_Some. split; [intros H; by exists items|].
    by intros (items' & [= <-] & H).
  - split; [done|]. by intros (? & [=] & _).
  - split; [done|]. by intros (? & [=] & _).
Qed.

Lemma read_route_Some (h : list TwoOptStore.object) l r :
  TwoOptStore.read_route h l = Some r ↔ h !! l = Some (TwoOptStore.Route r).
Proof.
  unfold TwoOptStore.read_route.
  destruct (h !! l) as [[items|r']|]; split; (done || by intros [= ->]).
Qed.

Lemma set_item_read (h : list TwoOptStore.object) cur rs idx v r :
  TwoOptStore.read_routes h cur = Some rs →
  TwoOptStore.read_route h v = Some r → idx < length rs →
  ∃ h', TwoOptStore.set_item cur idx v h = Some h'
        ∧ TwoOptStore.read_routes h' cur = Some (<[idx := r]> rs)
        ∧ ∀ l r, TwoOptStore.read_route h l = Some r →
                 TwoOptStore.read_route h' l = Some r.
Proof.
  intros (items & Hcur & Hitems)%read_routes_Some Hv Hidx.
  pose proof (Forall2_length _ _ _ Hitems) as Hlen.
  pose proof (lookup_lt_Some _ _ _ Hcur) as Hcurlt.
  unfold TwoOptStore.set_item. rewrite Hcur.
  replace (idx <? length items) with true
    by (symmetry; apply Nat.ltb_lt; lia).
  eexists. split; [done|].
  assert (∀ l r, TwoOptStore.read_route h l = Some r →
            TwoOptStore.read_route
              (<[cur := TwoOptStore.RouteList (<[idx := v]> items)]> h) l
            = Some r) as Hkeep.
  { intros l r0 Hl%read_route_Some. apply read_route_Some.
    rewrite list_lookup_insert_ne; [done|]. intros ->. congruence. }
  split; [|done].
  apply read_routes_Some. eexists. split.
  - by rewrite list_lookup_insert_eq.
  - apply Forall2_insert; [|by apply Hkeep].
    eapply Forall2_impl; [exact Hitems|]. intros li r0. apply Hkeep.
Qed.

Lemma set_customer_read (h : list TwoOptStore.object) l r idx c :
  TwoOptStore.read_route h l = Some r → idx < length r →
  ∃ h', TwoOptStore.set_customer l idx c h = Some h'
        ∧ TwoOptStore.read_route h' l = Some (<[idx := c]> r)
        ∧ ∀ l', l' ≠ l → h' !! l' = h !! l'.
Proof.
  intros Hl%read_route_Some Hidx.
  pose proof (lookup_lt_Some _ _ _ Hl) as Hlt.
  unfold TwoOptStore.set_customer. rewrite Hl.
  replace (idx <? length r) with true by (symmetry; by apply Nat.ltb_lt).
  eexists. split; [done|]. split.
  - apply read_route_Some. by rewrite list_lookup_insert_eq.
  - intros l' Hne. by rewrite list_lookup_insert_ne.
Qed.

Lemma read_routes_ext (h h' : list TwoOptStore.object) cur rs :
  TwoOptStore.read_routes h cur = Some rs →
  (∀ l, l < length h → h' !! l = h !! l) →
  TwoOptStore.read_routes h' cur = Some rs.
Proof.
  intros (items & Hcur & Hitems)%read_routes_Some Hsame.
  apply read_routes_Some. exists items. split.
  - rewrite Hsame; [done|]. by eapply lookup_lt_Some.
  - eapply Forall2_impl; [exact Hitems|].
    intros li r Hr%read_route_Some. apply read_route_Some.
    rewrite Hsame; [done|]. by eapply lookup_lt_Some.
Qed.

Lemma improve_pass_sim st h pst :
  state_of_store h st = Some pst →
  ∃ st' h', TwoOptStore.improve_pass P st h = Some (st', h')
            ∧ state_of_store h' st' = Some (TwoOptVRP.improve_pass P pst).
Proof.
  unfold state_of_store. intros (rs & Hrs & [= <-])%bind_Some.
  unfold TwoOptStore.improve_pass, TwoOptVRP.improve_pass. rewrite Hrs.
  cbn [mbind option_bind TwoOptVRP.current_routes].
  destruct (TwoOptVRP.scan_routes P 0 rs) as [[[idx r'] imp]|] eqn:Hscan.
  - destruct (scan_routes_Some P _ _ _ _ _ Hscan) as (r & _ & Hr & _).
    rewrite Nat.sub_0_r in Hr. apply lookup_lt_Some in Hr.
    cbn [TwoOptStore.alloc].
    destruct (set_item_read (h ++ [TwoOptStore.Route r'])
                (TwoOptStore.current_routes st) rs idx (length h) r')
      as (h2 & Hset & Hread & _); [| |done|].
    + eapply read_routes_mono; [|exact Hrs]. by apply prefix_app_r.
    + apply read_route_Some. rewrite lookup_app_r by done.
      by rewrite Nat.sub_diag.
    + rewrite Hset. eexists _, _. split; [done|]. simpl. by rewrite Hread.
  - eexists _, _. split; [done|]. simpl. by rewrite Hrs.
Qed.

Lemma inter_pass_sim st h pst :
  state_of_store h st = Some pst →
  ∃ st' h', TwoOptStore.inter_pass P st h = Some (st', h')
            ∧ state_of_store h' st' = Some (TwoOptVRP.inter_pass P pst).
Proof.
  unfold state_of_store. intros (rs & Hrs & [= <-])%bind_Some.
  unfold TwoOptStore.inter_pass, TwoOptVRP.inter_pass. rewrite Hrs.
  cbn [mbind option_bind TwoOptVRP.current_routes].
  destruct (find _ _) as [[[[i j] ci] cj]|] eqn:Hfind.
  2:{ eexists _, _. split; [done|]. simpl. by rewrite Hrs. }
  apply find_some in Hfind as [Hin _].
  apply elem_of_swap_candidates in Hin as (Hij & Hj & Hci & Hcj).
  set (cur := TwoOptStore.current_routes st) in *.
  set (ri := rs !!! i) in *. set (rj := rs !!! j) in *.
  assert (rs !! i = Some ri) as Hri
    by (apply list_lookup_lookup_total_lt; lia).
  assert (rs !! j = Some rj) as Hrj
    by (by apply list_lookup_lookup_total_lt).
  pose proof Hrs as (items & Hcur & Hitems)%read_routes_Some.
  pose proof (lookup_lt_Some _ _ _ Hcur) as Hcurlt.
  destruct (Forall2_lookup_r _ _ _ _ _ Hitems Hri) as (li & Hli & Hrli).
  destruct (Forall2_lookup_r _ _ _ _ _ Hitems Hrj) as (lj & Hlj & Hrlj).
  unfold TwoOptStore.get_item. rewrite Hcur, Hli, Hlj.
  cbn [mbind option_bind].
  unfold TwoOptStore.copy_route. rewrite Hrli. cbn [mbind option_bind].
  cbn [TwoOptStore.alloc].
  set (h1 := h ++ [TwoOptStore.Route ri]).
  assert (h `prefix_of` h1) as Hp1 by (by apply prefix_app_r).
  rewrite (read_route_mono _ _ _ _ Hp1 Hrlj).
  cbn [mbind option_bind TwoOptStore.alloc].
  set (h2 := h1 ++ [TwoOptStore.Route rj]).
  assert (h1 `prefix_of` h2) as Hp2 by (by apply prefix_app_r).
  assert (length h1 = S (length h)) as Hlen1
    by (subst h1; rewrite length_app; simpl; lia).
  assert (TwoOptStore.read_route h2 (length h) = Some ri) as Hni.
  { eapply read_route_mono; [exact Hp2|]. apply read_route_Some.
    subst h1. rewrite lookup_app_r by done. by rewrite Nat.sub_diag. }
  assert (TwoOptStore.read_route h2 (length h1) = Some rj) as Hnj.
  { apply read_route_Some. subst h2. rewrite lookup_app_r by done.
    by rewrite Nat.sub_diag. }
  unfold TwoOptStore.get_customer. rewrite Hni, Hnj.
  cbn [mbind option_bind].
  rewrite (list_lookup_lookup_total_lt ri ci Hci).
  rewrite (list_lookup_lookup_total_lt rj cj Hcj).
  cbn [mbind option_bind].
  destruct (set_customer_read h2 (length h) ri ci (rj !!! cj) Hni Hci)
    as (h3 & Hset3 & Hread3 & Hframe3).
  rewrite Hset3. cbn [mbind option_bind].
  assert (TwoOptStore.read_route h3 (length h1) = Some rj) as Hnj3.
  { apply read_route_Some. rewrite Hframe3 by lia. by apply read_route_Some. }
  destruct (set_customer_read h3 (length h1) rj cj (ri !!! ci) Hnj3 Hcj)
    as (h4 & Hset4 & Hread4 & Hframe4).
  rewrite Hset4. cbn [mbind option_bind].
  assert (TwoOptStore.read_route h4 (length h) = Some (<[ci:=rj !!! cj]> ri))
    as Hread3'.
  { apply read_route_Some. rewrite Hframe4 by lia. by apply read_route_Some. }
  rewrite Hread3', Hread4. cbn [mbind option_bind].
  assert (TwoOptStore.read_routes h4 cur = Some rs) as Hrs4.
  { apply (read_routes_ext h). { done. }
    intros l Hl. rewrite Hframe4, Hframe3 by lia.
    subst h2 h1. by rewrite !lookup_app_l by (rewrite ?length_app; lia). }
  destruct (set_item_read h4 cur rs i (length h) _ Hrs4 Hread3')
    as (h5 & Hset5 & Hread5 & Hkeep5); [lia|].
  rewrite Hset5. cbn [mbind option_bind].
  destruct (set_item_read h5 cur (<[i:=<[ci:=rj !!! cj]> ri]> rs) j
              (length h1) _ Hread5 (Hkeep5 _ _ Hread4))
    as (h6 & Hset6 & Hread6 & _); [by rewrite length_insert|].
  rewrite Hset6. cbn [mbind option_bind].
  eexists _, _. split; [done|]. simpl. fold cur. rewrite Hread6. done.
Qed.

Lemma state_of_store_cond h st pst m :
  state_of_store h st = Some pst →
  TwoOptStore.improvement_found st
  && (TwoOptStore.iterations_without_improvement st <? m)%Z
  = TwoOptVRP.improvement_found pst
    && (TwoOptVRP.iterations_without_improvement pst <? m)%Z.
Proof. unfold state_of_store. by intros (rs & Hrs & [= <-])%bind_Some. Qed.

Lemma run_loop_sim body pbody m fuel st h pst pst' :
  (∀ st h pst, state_of_store h st = Some pst →
     ∃ st' h', body st h = Some (st', h')
               ∧ state_of_store h' st' = Some (pbody pst)) →
  state_of_store h st = Some pst →
  TwoOptVRP.run_loop pbody m fuel pst = Some pst' →
  ∃ st' h', TwoOptStore.run_loop body m fuel st h = Some (st', h')
            ∧ state_of_store h' st' = Some pst'.
Proof.
  intros Hsim. revert st h pst.
  induction fuel as [|fuel IH]; intros st h pst Habs; simpl;
    rewrite (state_of_store_cond _ _ _ m Habs); destruct (_ && _); try done.
  - intros [= <-]. eauto.
  - intros Hrun. destruct (Hsim _ _ _ Habs) as (st1 & h1 & Hbody & Habs1).
    rewrite Hbody. cbn [mbind option_bind]. by eapply IH.
  - intros [= <-]. eauto.
Qed.

Lemma memo_ok_mono memo (h h' : list TwoOptStore.object) :
  h `prefix_of` h' → memo_ok memo h → memo_ok memo h'.
Proof.
  intros Hp Hok l l' Hl. destruct (Hok l l' Hl) as (r & H1 & H2).
  exists r. split; by eapply read_route_mono.
Qed.

Lemma deepcopy_items_spec items rs memo (h : list TwoOptStore.object) :
  Forall2 (λ li r, TwoOptStore.read_route h li = Some r) items rs →
  memo_ok memo h →
  ∃ ls memo' h',
    TwoOptStore.deepcopy_items items memo h = Some (ls, memo', h')
    ∧ Forall2 (λ li r, TwoOptStore.read_route h' li = Some r) ls rs
    ∧ h `prefix_of` h'.
Proof.
  revert rs memo h.
  induction items as [|l rest IH]; intros rs memo h Hitems Hok.
  - apply Forall2_nil_inv_l in Hitems as ->. by eexists [], _, _.
  - apply Forall2_cons_inv_l in Hitems as (r & rs' & Hl & Hrest & ->).
    simpl. destruct (memo !! l) as [l'|] eqn:Hmemo.
    + destruct (IH rs' memo h Hrest Hok) as (ls & memo' & h' & -> & Hls & Hp).
      cbn [mbind option_bind]. eexists _, _, _. split; [done|].
      split; [|done]. constructor; [|done].
      destruct (Hok l l' Hmemo) as (r0 & H1 & H2).
      eapply read_route_mono; [exact Hp|]. congruence.
    + rewrite Hl. cbn [mbind option_bind TwoOptStore.alloc].
      set (h1 := h ++ [TwoOptStore.Route r]).
      assert (h `prefix_of` h1) as Hp1 by (by apply prefix_app_r).
      assert (TwoOptStore.read_route h1 (length h) = Some r) as Hnew.
      { apply read_route_Some. subst h1. rewrite lookup_app_r by done.
        by rewrite Nat.sub_diag. }
      destruct (IH rs' (<[l := length h]> memo) h1)
        as (ls & memo' & h' & -> & Hls & Hp).
      * eapply Forall2_impl; [exact Hrest|].
        intros li r0. by apply read_route_mono.
      * intros l0 l0' Hl0. destruct (decide (l0 = l)) as [->|Hne].
        -- rewrite lookup_insert_eq in Hl0. injection Hl0 as <-.
           exists r. split; [by eapply read_route_mono|done].
        -- rewrite lookup_insert_ne in Hl0 by done.
           by apply (memo_ok_mono memo h h1 Hp1 Hok).
      * cbn [mbind option_bind]. eexists _, _, _. split; [done|].
        split; [|by etrans]. constructor; [|done].
        by eapply read_route_mono.
Qed.

Lemma deepcopy_spec (h : list TwoOptStore.object) l rs :
  TwoOptStore.read_routes h l = Some rs →
  ∃ l' h', TwoOptStore.deepcopy l h = Some (l', h')
           ∧ TwoOptStore.read_routes h' l' = Some rs.
Proof.
  intros (items & Hl & Hitems)%read_routes_Some.
  unfold TwoOptStore.deepcopy. rewrite Hl.
  destruct (deepcopy_items_spec items rs ∅ h Hitems)
    as (ls & memo' & h1 & -> & Hls & Hp).
  { intros l0 l0' Hl0. by rewrite lookup_empty in Hl0. }
  cbn [mbind option_bind TwoOptStore.alloc]. eexists _, _. split; [done|].
  apply read_routes_Some. exists ls. split.
  - rewrite lookup_app_r by done. by rewrite Nat.sub_diag.
  - eapply Forall2_impl; [exact Hls|]. intros li r.
    apply read_route_mono. by apply prefix_app_r.
Qed.

(** A run over the store returns what the run on values returns. *)
Lemma run_sim body pbody fuel l m (h : list TwoOptStore.object) rs psol :
  (∀ st h pst, state_of_store h st = Some pst →
     ∃ st' h', body st h = Some (st', h')
               ∧ state_of_store h' st' = Some (pbody pst)) →
  TwoOptStore.read_routes h l = Some rs →
  TwoOptVRP.solution_of P
    <$> TwoOptVRP.run_loop pbody m fuel (TwoOptVRP.initial_state P rs)
  = Some psol →
  ∃ sol h',
    TwoOptStore.run P body fuel l m h = Some (sol, h')
    ∧ TwoOptStore.read_routes h' (TwoOptStore.routes sol)
      = Some (TwoOptVRP.routes psol)
    ∧ TwoOptStore.total_distance sol = TwoOptVRP.total_distance psol
    ∧ TwoOptStore.improvement_iterations sol
      = TwoOptVRP.improvement_iterations psol
    ∧ TwoOptStore.feasible sol = TwoOptVRP.feasible psol.
Proof.
  intros Hsim Hrs Hrun.
  apply fmap_Some in Hrun as (pst' & Hrun & ->).
  destruct (deepcopy_spec h l rs Hrs) as (copy & h1 & Hcopy & Hrs1).
  unfold TwoOptStore.run. rewrite Hcopy. cbn [mbind option_bind].
  rewrite Hrs1. cbn [mbind option_bind].
  match goal with
  | |- context [TwoOptStore.run_loop body m fuel ?s h1] => set (st0 := s)
  end.
  assert (state_of_store h1 st0 = Some (TwoOptVRP.initial_state P rs)) as Habs.
  { unfold state_of_store, st0. simpl. by rewrite Hrs1. }
  destruct (run_loop_sim body pbody m fuel st0 h1 _ _ Hsim Habs Hrun)
    as (st' & h' & Hloop & Habs').
  rewrite Hloop. cbn [mbind option_bind].
  unfold state_of_store in Habs'.
  apply bind_Some in Habs' as (rs' & Hrs' & [= <-]).
  rewrite Hrs'. cbn [mbind option_bind]. eexists _, _. split; [done|].
  simpl. done.
Qed.

End StoreFacts.

(** C9.  A call of [improve_solution] or [inter_route_2opt] leaves every
    object of the caller's store as it was, the list of routes passed in
    and each route in it included: the store before the call is a prefix
    of the store after it, the routes read through the caller's reference
    are the same, and the returned list is a new object.  The call over
    the store returns the routes the function on values returns. *)
Theorem caller_routes_unchanged (P : Problem)
    (h : list TwoOptStore.object) (initial_routes : nat)
    (rs : list (list nat)) (fuel : nat) (m : Z) :
  TwoOptStore.read_routes h initial_routes = Some rs →
  (∀ sol h',
     TwoOptStore.improve_solution P fuel initial_routes m h = Some (sol, h') →
     h `prefix_of` h'
     ∧ TwoOptStore.read_routes h' initial_routes = Some rs
     ∧ length h ≤ TwoOptStore.routes sol)
  ∧ (∀ sol h',
       TwoOptStore.inter_route_2opt P fuel initial_routes m h
       = Some (sol, h') →
       h `prefix_of` h'
       ∧ TwoOptStore.read_routes h' initial_routes = Some rs
       ∧ length h ≤ TwoOptStore.routes sol)
  ∧ (∀ psol,
       TwoOptVRP.improve_solution P fuel rs m = Some psol →
       ∃ sol h',
         TwoOptStore.improve_solution P fuel initial_routes m h
         = Some (sol, h')
         ∧ TwoOptStore.read_routes h' (TwoOptStore.routes sol)
           = Some (TwoOptVRP.routes psol))
  ∧ (∀ psol,
       TwoOptVRP.inter_route_2opt P fuel rs m = Some psol →
       ∃ sol h',
         TwoOptStore.inter_route_2opt P fuel initial_routes m h
         = Some (sol, h')
         ∧ TwoOptStore.read_routes h' (TwoOptStore.routes sol)
           = Some (TwoOptVRP.routes psol)).
Proof.
  intros Hrs. split; [|split; [|split]].
  - intros sol h' H.
    destruct (run_frame P _ _ _ _ _ _ _
                (λ h0 st h1 st' h2, improve_pass_frame P h0 h1 h2 st st') H)
      as [Hp Hl].
    split; [done|]. split; [|done]. by eapply read_routes_mono.
  - intros sol h' H.
    destruct (run_frame P _ _ _ _ _ _ _
                (λ h0 st h1 st' h2, inter_pass_frame P h0 h1 h2 st st') H)
      as [Hp Hl].
    split; [done|]. split; [|done]. by eapply read_routes_mono.
  - intros psol Hp.
    destruct (run_sim P _ _ fuel initial_routes m h rs psol
                (improve_pass_sim P) Hrs Hp) as (sol & h' & H & Hr & _).
    by exists sol, h'.
  - intros psol Hp.
    destruct (run_sim P _ _ fuel initial_routes m h rs psol
                (inter_pass_sim P) Hrs Hp) as (sol & h' & H & Hr & _).
    by exists sol, h'.
Qed.

Lemma caller_routes_unchanged_witness :
  ∃ sol h',
    TwoOptStore.inter_route_2opt P4 5 2 10 caller_store = Some (sol, h')
    ∧ caller_store `prefix_of` h'
    ∧ TwoOptStore.read_routes h' 2 = Some crossed_pair
    ∧ TwoOptStore.read_routes h' (TwoOptStore.routes sol)
      = Some [[3; 1]; [2; 0]].
Proof.
  assert (TwoOptStore.read_routes caller_store 2 = Some crossed_pair) as Hrs
    by reflexivity.
  destruct (caller_routes_unchanged P4 caller_store 2 crossed_pair 5 10 Hrs)
    as (_ & Hframe & _).
  eexists _, _. split; [reflexivity|].
  split; [|split; [|reflexivity]]; eapply Hframe; reflexivity.
Defined.

(** * Further properties of the code *)

(** ** The distance model *)

Lemma nth_fmap_seq {A} (f : nat → A) n i d :
  nth i (f <$> seq 0 n) d = if decide (i < n) then f i else d.
Proof.
  rewrite nth_lookup, list_lookup_fmap.
  destruct (decide (i < n)) as [Hlt|Hge].
  - by rewrite lookup_seq_lt.
  - by rewrite lookup_seq_ge by lia.
Qed.

Lemma matrix_entry sqrt depot customers a b :
  nth b (nth a (_compute_distance_matrix sqrt depot customers) []) 0%Q
  = if decide (a < S (length customers) ∧ b < S (length customers) ∧ a ≠ b)
    then _euclidean_distance sqrt (nth a (depot :: customers) (0, 0)%Q)
           (nth b (depot :: customers) (0, 0)%Q)
    else 0%Q.
Proof.
  unfold _compute_distance_matrix. cbn [length].
  rewrite nth_fmap_seq.
  destruct (decide (a < S (length customers))) as [Ha|Ha].
  - rewrite nth_fmap_seq.
    destruct (decide (b < S (length customers))) as [Hb|Hb].
    + case_bool_decide as Hab.
      * by rewrite decide_True.
      * by rewrite decide_False by tauto.
    + by rewrite decide_False by tauto.
  - rewrite decide_False by tauto. by destruct b.
Qed.

Lemma euclidean_distance_sym sqrt p q :
  (∀ x y, (x == y)%Q → (sqrt x == sqrt y)%Q) →
  (_euclidean_distance sqrt p q == _euclidean_distance sqrt q p)%Q.
Proof.
  intros Hproper. unfold _euclidean_distance. apply Hproper.
  simpl. ring.
Qed.

(** X1.  The matrix [_compute_distance_matrix] fills is square of side
    [N + 1], zero on the diagonal, symmetric and non-negative, and its
    entry for two different points is their Euclidean distance; so the
    problem [__init__] sets up has a non-negative symmetric distance
    matrix.  [math.sqrt] is assumed non-negative and a function of the
    value of its argument. *)
Theorem distance_matrix_properties (sqrt : Q → Q) (depot : Q * Q)
    (customers : list (Q * Q)) (demand_list : list Z) (capacity : Z)
    (vehicles : nat) :
  (∀ x, (0 <= sqrt x)%Q) →
  (∀ x y, (x == y)%Q → (sqrt x == sqrt y)%Q) →
  let M := _compute_distance_matrix sqrt depot customers in
  let P := make_problem sqrt depot customers demand_list capacity vehicles in
  length M = S (length customers)
  ∧ Forall (λ row, length row = S (length customers)) M
  ∧ (∀ a, distance_matrix P a a = 0%Q)
  ∧ (∀ a b, a < S (length customers) → b < S (length customers) → a ≠ b →
       distance_matrix P a b
       = _euclidean_distance sqrt (nth a (depot :: customers) (0, 0)%Q)
           (nth b (depot :: customers) (0, 0)%Q))
  ∧ dist_symmetric P ∧ dist_nonneg P.
Proof.
  intros Hnn Hproper M P. split; [|split; [|split; [|split; [|split]]]].
  - subst M. unfold _compute_distance_matrix.
    by rewrite length_fmap, length_seq.
  - subst M. unfold _compute_distance_matrix. apply Forall_fmap, Forall_seq.
    intros i _. simpl. by rewrite length_fmap, length_seq.
  - intros a. subst P. cbn [make_problem distance_matrix].
    rewrite matrix_entry. by rewrite decide_False by tauto.
  - intros a b Ha Hb Hab. subst P. cbn [make_problem distance_matrix].
    rewrite matrix_entry. by rewrite decide_True.
  - intros a b. subst P. cbn [make_problem distance_matrix].
    rewrite !matrix_entry.
    destruct (decide (a < S (length customers) ∧ b < S (length customers)
                      ∧ a ≠ b)) as [(Ha & Hb & Hab)|Hn].
    + rewrite decide_True by done. by apply euclidean_distance_sym.
    + rewrite decide_False; [done|]. intros (Hb & Ha & Hab). apply Hn. done.
  - intros a b. subst P. cbn [make_problem distance_matrix].
    rewrite matrix_entry. destruct (decide _); [apply Hnn|done].
Qed.

Lemma int_sqrt_nonneg x : (0 <= int_sqrt x)%Q.
Proof.
  unfold int_sqrt. change 0%Q with (inject_Z 0). rewrite <- Zle_Qle.
  apply Z.sqrt_nonneg.
Qed.

Lemma int_sqrt_proper x y : (x == y)%Q → (int_sqrt x == int_sqrt y)%Q.
Proof. intros H. unfold int_sqrt. by rewrite (Qfloor_comp _ _ H). Qed.

Lemma distance_matrix_properties_witness :
  distance_matrix P345 0 1 = 5%Q ∧ distance_matrix P345 1 2 = 5%Q
  ∧ distance_matrix P345 2 0 = 10%Q
  ∧ dist_symmetric P345 ∧ dist_nonneg P345.
Proof.
  split; [reflexivity|]. split; [reflexivity|]. split; [reflexivity|].
  apply (distance_matrix_properties int_sqrt (0, 0)%Q [(3, 4)%Q; (6, 8)%Q]
           [2; 3]%Z 10 2 int_sqrt_nonneg int_sqrt_proper).
Defined.

(** ** Routes as closed tours *)

Section TourFacts.
Variable P : Problem.

#[local] Abbreviation dm := (distance_matrix P).
#[local] Abbreviation rdist := (TwoOptVRP._calculate_route_distance P).
#[local] Abbreviation plen := (path_length P).
#[local] Abbreviation shift route := ((λ c : nat, c + 1) <$> route).
#[local] Abbreviation final stops := (default 0 (last stops)).
#[local] Abbreviation start stops := (default 0 (head stops)).

Lemma path_length_cons2 a b l : plen (a :: b :: l) = (dm a b + plen (b :: l))%Q.
Proof. done. Qed.

Lemma path_length_app l1 a l2 :
  (plen (l1 ++ a :: l2) == plen (l1 ++ [a]) + plen (a :: l2))%Q.
Proof.
  induction l1 as [|x [|y l1] IH].
  - simpl. lra.
  - simpl. lra.
  - change (plen (x :: y :: l1 ++ a :: l2)
            == plen (x :: y :: l1 ++ [a]) + plen (a :: l2))%Q.
    rewrite !path_length_cons2.
    change (y :: l1 ++ a :: l2) with ((y :: l1) ++ a :: l2).
    change (y :: l1 ++ [a]) with ((y :: l1) ++ [a]).
    rewrite IH. lra.
Qed.

Lemma path_length_snoc l a b :
  (plen (l ++ [a; b]) == plen (l ++ [a]) + dm a b)%Q.
Proof. rewrite path_length_app. simpl. lra. Qed.

Lemma path_length_reverse l :
  dist_symmetric P → (plen (reverse l) == plen l)%Q.
Proof.
  intros Hsym. induction l as [|x [|y l] IH].
  - done.
  - done.
  - rewrite path_length_cons2, reverse_cons.
    rewrite reverse_cons in *. rewrite <- (assoc_L (++)).
    change ([y] ++ [x]) with [y; x].
    rewrite path_length_snoc, IH, (Hsym y x). lra.
Qed.

Lemma add_legs_path acc route :
  (TwoOptVRP.add_legs P acc route
   == acc + plen (shift route))%Q.
Proof.
  revert acc. induction route as [|a [|b route] IH]; intros acc.
  - simpl. lra.
  - simpl. lra.
  - change (TwoOptVRP.add_legs P (acc + dm (a + 1) (b + 1)) (b :: route)
            == acc + plen (shift (a :: b :: route)))%Q.
    rewrite IH, !fmap_cons, path_length_cons2.
    lra.
Qed.

Lemma path_length_snoc_last l z :
  l ≠ [] → (plen (l ++ [z]) == plen l + dm (final l) z)%Q.
Proof.
  intros Hne. destruct (exists_last (l := l)) as (l' & c & ->); [done|].
  rewrite <- (assoc_L (++)), last_snoc.
  change ([c] ++ [z]) with [c; z]. apply path_length_snoc.
Qed.

Lemma last_shift route :
  route ≠ [] → final (shift route) = last_customer route + 1.
Proof.
  intros Hne. unfold last_customer. rewrite fmap_last.
  destruct (last route) eqn:Hl; [done|].
  apply last_None in Hl. done.
Qed.

Lemma route_distance_tour route :
  route ≠ [] → (rdist route == plen (tour route))%Q.
Proof.
  intros Hne. unfold tour.
  change (0 :: shift route ++ [0]) with ([0] ++ shift route ++ [0]).
  destruct route as [|c0 rest]; [done|].
  unfold TwoOptVRP._calculate_route_distance.
  rewrite add_legs_path, <- last_shift by done.
  rewrite fmap_cons.
  change ([0] ++ (c0 + 1 :: shift rest) ++ [0])
    with (0 :: (c0 + 1) :: shift rest ++ [0]).
  rewrite path_length_cons2.
  change (c0 + 1 :: shift rest ++ [0]) with ((c0 + 1 :: shift rest) ++ [0]).
  rewrite path_length_snoc_last by done. lra.
Qed.

Lemma tour_reverse route : tour (reverse route) = reverse (tour route).
Proof.
  unfold tour. rewrite reverse_cons, reverse_app, fmap_reverse. done.
Qed.

Lemma path_length_join l1 l2 :
  l1 ≠ [] → l2 ≠ [] →
  (plen (l1 ++ l2) == plen l1 + dm (final l1) (start l2) + plen l2)%Q.
Proof.
  intros H1 H2. destruct l2 as [|b l2]; [done|].
  destruct (exists_last (l := l1)) as (l & a & ->); [done|].
  rewrite last_snoc, <- (assoc_L (++)).
  change ([a] ++ b :: l2) with (a :: b :: l2).
  rewrite path_length_app, path_length_cons2. simpl. lra.
Qed.


Lemma route_distance_reverse_eq route :
  dist_symmetric P → (rdist (reverse route) == rdist route)%Q.
Proof.
  intros Hsym. destruct (decide (route = [])) as [->|Hne]; [done|].
  rewrite !route_distance_tour, tour_reverse.
  - by apply path_length_reverse.
  - done.
  - intros H. apply Hne. by rewrite <- (reverse_involutive route), H.
Qed.

End TourFacts.

(** ** The 2-opt move *)

Lemma two_opt_move_split (route : list nat) i j :
  i < j → j < length route →
  ∃ a s b, route = a ++ s ++ b ∧ length a = i + 1 ∧ length s = j - i
           ∧ TwoOptVRP.two_opt_move route i j = a ++ reverse s ++ b.
Proof.
  intros Hij Hj.
  exists (take (i + 1) route), (take (j + 1 - (i + 1)) (drop (i + 1) route)),
    (drop (j + 1) route).
  split; [|split; [|split]].
  - replace (drop (j + 1) route)
      with (drop (j + 1 - (i + 1)) (drop (i + 1) route))
      by (rewrite drop_drop; f_equal; lia).
    by rewrite !take_drop.
  - rewrite length_take. lia.
  - rewrite length_take, length_drop. lia.
  - done.
Qed.

Lemma two_opt_move_of_split (a s b : list nat) i j :
  length a = i + 1 → length s = j - i → i < j →
  TwoOptVRP.two_opt_move (a ++ s ++ b) i j = a ++ reverse s ++ b.
Proof.
  intros Ha Hs Hij. unfold TwoOptVRP.two_opt_move.
  rewrite take_app_length' by done.
  rewrite drop_app_length' by done.
  rewrite take_app_length' by lia.
  replace (j + 1) with (length a + length s) by lia.
  rewrite <- drop_drop, drop_app_length, drop_app_length. done.
Qed.



Lemma line_problem_symmetric xs ds cap k :
  dist_symmetric (line_problem xs ds cap k).
Proof.
  intros a b. unfold line_problem, line_distance. simpl.
  apply inject_Z_injective. lia.
Qed.


(** X3.  The 2-opt move on positions [i < j] of a route reverses the
    customers at positions [i+1 .. j] and leaves the others in place: the
    route keeps its length, and applying the same move again restores
    it. *)
Theorem two_opt_move_reverses_segment (route : list nat) (i j : nat) :
  i < j → j < length route →
  let moved := TwoOptVRP.two_opt_move route i j in
  length moved = length route
  ∧ (∀ k, moved !! k
          = route !! (if decide (i < k ≤ j) then i + 1 + j - k else k))
  ∧ TwoOptVRP.two_opt_move moved i j = route.
Proof.
  intros Hij Hj moved.
  destruct (two_opt_move_split route i j Hij Hj)
    as (a & s & b & Hroute & Ha & Hs & Hmoved).
  subst moved. rewrite Hmoved, Hroute. split; [|split].
  - rewrite !length_app, length_reverse. done.
  - intros k. destruct (decide (i < k ≤ j)) as [Hk|Hk].
    + rewrite lookup_app_r by lia. rewrite lookup_app_l
        by (rewrite length_reverse; lia).
      rewrite reverse_lookup by lia.
      rewrite (lookup_app_r a) by lia. rewrite lookup_app_l by lia.
      f_equal. lia.
    + destruct (decide (k ≤ i)) as [Hle|Hgt].
      * by rewrite !lookup_app_l by lia.
      * rewrite !(lookup_app_r a) by lia.
        rewrite !lookup_app_r by (rewrite ?length_reverse; lia).
        by rewrite length_reverse.
  - rewrite two_opt_move_of_split by (rewrite ?length_reverse; done).
    by rewrite reverse_involutive.
Qed.

Lemma two_opt_move_reverses_segment_witness :
  TwoOptVRP.two_opt_move [5; 6; 7; 8; 9] 0 3 = [5; 8; 7; 6; 9]
  ∧ TwoOptVRP.two_opt_move (TwoOptVRP.two_opt_move [5; 6; 7; 8; 9] 0 3) 0 3
    = [5; 6; 7; 8; 9].
Proof.
  split; [reflexivity|].
  apply (two_opt_move_reverses_segment [5; 6; 7; 8; 9] 0 3); simpl; lia.
Defined.



(** ** The improvement loops, route by route *)

Section ImproverFacts.
Variable P : Problem.

#[local] Abbreviation rdist := (TwoOptVRP._calculate_route_distance P).
#[local] Abbreviation total := (TwoOptVRP._calculate_total_distance P).
#[local] Abbreviation is_feasible := (TwoOptVRP._is_route_feasible P).
#[local] Abbreviation ipass := (TwoOptVRP.improve_pass P).
#[local] Abbreviation xpass := (TwoOptVRP.inter_pass P).

Lemma two_opt_move_head (route : list nat) i j :
  head (TwoOptVRP.two_opt_move route i j) = head route.
Proof.
  unfold TwoOptVRP.two_opt_move. destruct route as [|c route].
  - by rewrite take_nil, !drop_nil, take_nil.
  - by rewrite Nat.add_1_r.
Qed.

Lemma rearranged_refl r : rearranged r r.
Proof. done. Qed.

Lemma rearranged_trans r1 r2 r3 :
  rearranged r1 r2 → rearranged r2 r3 → rearranged r1 r3.
Proof.
  intros (Hp1 & Hh1 & Hs1) (Hp2 & Hh2 & Hs2). split; [|split].
  - by etrans.
  - congruence.
  - intros Hlen. rewrite <- (Hs2 Hlen). apply Hs1.
    rewrite (Permutation_length Hp2). done.
Qed.

Lemma improve_route_rearranged route :
  rearranged (TwoOptVRP._improve_route_2opt P route).1 route.
Proof.
  destruct (improve_route_2opt_spec P route) as ([->|Hmove] & _ & _).
  - apply rearranged_refl.
  - destruct Hmove as (i & j & Hij & Hj & -> & _). simpl. split; [|split].
    + by apply two_opt_move_perm.
    + apply two_opt_move_head.
    + lia.
Qed.

Lemma Forall2_rearranged_refl rs : Forall2 rearranged rs rs.
Proof. induction rs; constructor; done. Qed.

Lemma improve_pass_rearranged st :
  Forall2 rearranged (TwoOptVRP.current_routes (ipass st))
    (TwoOptVRP.current_routes st).
Proof.
  destruct (TwoOptVRP.scan_routes P 0 (TwoOptVRP.current_routes st))
    as [[[idx r'] imp]|] eqn:Hscan.
  - rewrite (improve_pass_Some _ _ _ _ _ Hscan). simpl.
    apply scan_routes_Some in Hscan as (r & _ & Hr & _ & Himp & _).
    rewrite Nat.sub_0_r in Hr.
    rewrite <- (list_insert_id (TwoOptVRP.current_routes st) idx r Hr) at 2.
    apply Forall2_insert; [apply Forall2_rearranged_refl|].
    pose proof (improve_route_rearranged r) as H. by rewrite Himp in H.
  - rewrite (improve_pass_None _ _ Hscan). simpl.
    apply Forall2_rearranged_refl.
Qed.

Lemma Forall2_rearranged_trans rs1 rs2 rs3 :
  Forall2 rearranged rs1 rs2 → Forall2 rearranged rs2 rs3 →
  Forall2 rearranged rs1 rs3.
Proof.
  intros H12. revert rs3. induction H12; intros rs3 H23; inversion H23; subst.
  - constructor.
  - constructor; [by eapply rearranged_trans|]. by apply IHForall2.
Qed.

Lemma iter_rearranged n st :
  Forall2 rearranged (TwoOptVRP.current_routes (Nat.iter n ipass st))
    (TwoOptVRP.current_routes st).
Proof.
  induction n as [|n IH]; simpl.
  - apply Forall2_rearranged_refl.
  - eapply Forall2_rearranged_trans; [apply improve_pass_rearranged|done].
Qed.

Lemma improve_returns_rearranged rs m sol :
  improve_returns P rs m sol → Forall2 rearranged (TwoOptVRP.routes sol) rs.
Proof.
  intros (n & _ & ->)%improve_returns_iff. simpl.
  apply (iter_rearranged n (TwoOptVRP.initial_state P rs)).
Qed.

Lemma check_feasibility_rearranged rs' rs :
  Forall2 rearranged rs' rs →
  TwoOptVRP._check_feasibility P rs' = TwoOptVRP._check_feasibility P rs.
Proof.
  unfold TwoOptVRP._check_feasibility.
  induction 1 as [|r' r rs' rs (Hperm & _) _ IH]; [done|].
  simpl. by rewrite IH, (is_feasible_perm P _ _ Hperm).
Qed.

Lemma inter_pass_lengths st :
  length <$> TwoOptVRP.current_routes (xpass st)
  = length <$> TwoOptVRP.current_routes st.
Proof.
  destruct (inter_pass_cases P st) as [[_ ->]|(rs' & delta & Hswap & ->)];
    [done|].
  simpl.
  destruct Hswap as [i j ci cj ri rj Hlt Hi Hj Hci Hcj -> _ _ _ _].
  rewrite !list_fmap_insert, !length_insert.
  rewrite (list_insert_id _ i (length ri)) by (by rewrite list_lookup_fmap, Hi).
  by rewrite list_insert_id by (by rewrite list_lookup_fmap, Hj).
Qed.

Lemma inter_returns_lengths rs m sol :
  inter_returns P rs m sol → length <$> TwoOptVRP.routes sol = length <$> rs.
Proof.
  intros (n & _ & ->)%inter_returns_iff. simpl. unfold pass_state.
  induction n as [|n IH]; [done|].
  simpl. by rewrite inter_pass_lengths.
Qed.

End ImproverFacts.

(** X5.  [improve_solution] works inside each route: the route returned at
    an index holds the customers of the input route at that index and
    starts with the same customer, and a route with fewer than three
    customers is returned as it is. *)
Theorem improve_solution_rearranges_routes (P : Problem)
    (rs : list (list nat)) (m : Z) (sol : TwoOptVRP.Solution) :
  improve_returns P rs m sol →
  Forall2 rearranged (TwoOptVRP.routes sol) rs.
Proof. apply improve_returns_rearranged. Qed.

Lemma improve_solution_rearranges_routes_witness :
  ∃ sol, TwoOptVRP.improve_solution P4 3 crossed_route 10 = Some sol
         ∧ TwoOptVRP.routes sol = [[0; 2; 1; 3]]
         ∧ Forall2 rearranged (TwoOptVRP.routes sol) crossed_route.
Proof.
  eexists. split; [reflexivity|]. split; [reflexivity|].
  apply (improve_solution_rearranges_routes P4 crossed_route 10).
  exists 3. reflexivity.
Defined.

(** X6.  The [feasible] flag and the vehicle count [improve_solution]
    returns are those of its input: no route changes its load, and no
    route is added or removed. *)
Theorem improve_solution_reports_input (P : Problem)
    (rs : list (list nat)) (m : Z) (sol : TwoOptVRP.Solution) :
  improve_returns P rs m sol →
  TwoOptVRP.feasible sol = TwoOptVRP._check_feasibility P rs
  ∧ TwoOptVRP.num_vehicles_used sol = length rs.
Proof.
  intros Hret. pose proof (improve_returns_rearranged P rs m sol Hret) as HR.
  apply improve_returns_iff in Hret as (n & _ & ->). simpl in *. split.
  - by apply check_feasibility_rearranged.
  - by apply Forall2_length in HR.
Qed.

Lemma improve_solution_reports_input_witness :
  ∃ sol, TwoOptVRP.improve_solution P1 1 lone_route 1000 = Some sol
         ∧ TwoOptVRP.feasible sol = false
         ∧ TwoOptVRP.feasible sol = TwoOptVRP._check_feasibility P1 lone_route
         ∧ TwoOptVRP.num_vehicles_used sol = length lone_route.
Proof.
  eexists. split; [reflexivity|]. split; [reflexivity|].
  apply (improve_solution_reports_input P1 lone_route 1000).
  exists 1. reflexivity.
Defined.

(** X7.  [inter_route_2opt] exchanges customers one for one: every route
    keeps the number of customers it had in the input. *)
Theorem inter_route_keeps_route_sizes (P : Problem)
    (rs : list (list nat)) (m : Z) (sol : TwoOptVRP.Solution) :
  inter_returns P rs m sol →
  length <$> TwoOptVRP.routes sol = length <$> rs.
Proof. apply inter_returns_lengths. Qed.

Lemma inter_route_keeps_route_sizes_witness :
  ∃ sol, TwoOptVRP.inter_route_2opt P4 5 crossed_pair 10 = Some sol
         ∧ TwoOptVRP.routes sol = [[3; 1]; [2; 0]]
         ∧ length <$> TwoOptVRP.routes sol = length <$> crossed_pair.
Proof.
  eexists. split; [reflexivity|]. split; [reflexivity|].
  apply (inter_route_keeps_route_sizes P4 crossed_pair 10).
  exists 5. reflexivity.
Defined.

Section ImproverOptimality.
Variable P : Problem.

#[local] Abbreviation rdist := (TwoOptVRP._calculate_route_distance P).
#[local] Abbreviation total := (TwoOptVRP._calculate_total_distance P).
#[local] Abbreviation is_feasible := (TwoOptVRP._is_route_feasible P).
#[local] Abbreviation xpass := (TwoOptVRP.inter_pass P).






End ImproverOptimality.







(** X11.  On routes that all have fewer than three customers, the empty
    list of routes among them, [improve_solution] makes no move: it
    returns the input with its distance, after one pass when the budget
    is positive and after none otherwise. *)
Theorem improve_solution_short_routes (P : Problem)
    (rs : list (list nat)) (m : Z) (fuel : nat) :
  Forall (λ r, length r < 3) rs → 1 ≤ fuel →
  TwoOptVRP.improve_solution P fuel rs m
  = Some {| TwoOptVRP.routes := rs;
            TwoOptVRP.total_distance :=
              TwoOptVRP._calculate_total_distance P rs;
            TwoOptVRP.num_vehicles_used := length rs;
            TwoOptVRP.improvement_iterations := if (0 <? m)%Z then 1 else 0;
            TwoOptVRP.feasible := TwoOptVRP._check_feasibility P rs |}.
Proof.
  intros Hshort Hfuel.
  assert (Hscan : TwoOptVRP.scan_routes P 0 rs = None).
  { apply scan_routes_None. intros r Hr Hlen.
    rewrite Forall_forall in Hshort. specialize (Hshort r Hr). lia. }
  unfold TwoOptVRP.improve_solution. destruct fuel as [|fuel]; [lia|].
  rewrite run_loop_unfold. unfold loop_cond at 1. simpl.
  destruct (0 <? m)%Z.
  - rewrite (improve_pass_None P (TwoOptVRP.initial_state P rs) Hscan).
    rewrite run_loop_unfold. done.
  - done.
Qed.

Lemma improve_solution_short_routes_witness :
  TwoOptVRP.improve_solution P4 1 crossed_pair 10
  = Some {| TwoOptVRP.routes := crossed_pair;
            TwoOptVRP.total_distance :=
              TwoOptVRP._calculate_total_distance P4 crossed_pair;
            TwoOptVRP.num_vehicles_used := length crossed_pair;
            TwoOptVRP.improvement_iterations := 1;
            TwoOptVRP.feasible :=
              TwoOptVRP._check_feasibility P4 crossed_pair |}.
Proof.
  apply (improve_solution_short_routes P4 crossed_pair 10 1).
  - repeat constructor.
  - lia.
Defined.

(** ** The nearest-neighbour constructor, step by step *)

Section NearestNeighborSteps.
Variable P : Problem.

#[local] Abbreviation dm := (distance_matrix P).
#[local] Abbreviation load r := (sumZ (demands P <$> r)).
#[local] Abbreviation rdist := (TwoOptVRP._calculate_route_distance P).
#[local] Abbreviation total := (TwoOptVRP._calculate_total_distance P).
#[local] Abbreviation shift route := ((λ c : nat, c + 1) <$> route).
#[local] Abbreviation outbound route := (0 :: shift route).

Lemma fold_consider_nearest ld pos l :
  nearest_of P ld pos l
    (fold_left (NearestNeighborVRP.consider P ld pos) l None).
Proof.
  induction l as [|x l IH] using rev_ind.
  - simpl. intros c Hc. by apply elem_of_nil in Hc.
  - rewrite fold_left_app. simpl.
    destruct (fold_left _ l None) as [[c d]|] eqn:Hfold;
      unfold NearestNeighborVRP.consider;
      destruct (ld + demands P x <=? vehicle_capacity P)%Z eqn:Hle.
    + apply Z.leb_le in Hle.
      destruct IH as (l1 & l2 & -> & Hfit & -> & Hlt & Hge).
      destruct (Qltb (dm pos (x + 1)) (dm pos (c + 1))) eqn:Hcmp.
      * apply Qltb_lt in Hcmp. exists (l1 ++ c :: l2), [].
        split; [done|]. split; [done|]. split; [done|]. split.
        -- intros c' Hc' Hf'. apply elem_of_app in Hc' as [Hc'|Hc'].
           ++ specialize (Hlt c' Hc' Hf'). lra.
           ++ apply elem_of_cons in Hc' as [->|Hc']; [done|].
              specialize (Hge c' Hc' Hf'). lra.
        -- intros c' Hc'. by apply elem_of_nil in Hc'.
      * apply Qltb_ge in Hcmp. exists l1, (l2 ++ [x]).
        split; [by rewrite <- (assoc_L (++))|].
        split; [done|]. split; [done|]. split; [done|].
        intros c' Hc' Hf'. apply elem_of_app in Hc' as [Hc'|Hc'].
        -- by apply Hge.
        -- apply list_elem_of_singleton in Hc' as ->. done.
    + apply Z.leb_gt in Hle.
      destruct IH as (l1 & l2 & -> & Hfit & -> & Hlt & Hge).
      exists l1, (l2 ++ [x]).
      split; [by rewrite <- (assoc_L (++))|].
      split; [done|]. split; [done|]. split; [done|].
      intros c' Hc' Hf'. apply elem_of_app in Hc' as [Hc'|Hc'].
      -- by apply Hge.
      -- apply list_elem_of_singleton in Hc' as ->. unfold fits in Hf'. lia.
    + apply Z.leb_le in Hle. exists l, [].
      split; [done|]. split; [done|]. split; [done|]. split.
      * intros c' Hc' Hf'. by destruct (IH c' Hc').
      * intros c' Hc'. by apply elem_of_nil in Hc'.
    + apply Z.leb_gt in Hle. intros c' Hc'.
      apply elem_of_app in Hc' as [Hc'|Hc'].
      * by apply IH.
      * apply list_elem_of_singleton in Hc' as ->. unfold fits. lia.
Qed.

(** The distance the inner loop accumulates is the length of the path
    from the depot through the route, and the position is its last stop. *)
Lemma construct_loop_path fuel st :
  NearestNeighborVRP.current_position st
  = default 0 (last (0 :: shift (NearestNeighborVRP.route st))) →
  (NearestNeighborVRP.route_distance st
   == path_length P (outbound (NearestNeighborVRP.route st)))%Q →
  let st' := NearestNeighborVRP.construct_loop P fuel st in
  NearestNeighborVRP.current_position st'
  = default 0 (last (0 :: shift (NearestNeighborVRP.route st')))
  ∧ (NearestNeighborVRP.route_distance st'
     == path_length P (outbound (NearestNeighborVRP.route st')))%Q.
Proof.
  revert st. induction fuel as [|fuel IH]; intros st Hpos Hdist; simpl;
    [done|].
  case_bool_decide as Hemp; [done|].
  pose proof (fold_consider_nearest (NearestNeighborVRP.current_load st)
                (NearestNeighborVRP.current_position st)
                (NearestNeighborVRP.unvisited st)) as Hnear.
  fold (NearestNeighborVRP.find_nearest P st) in Hnear.
  destruct (NearestNeighborVRP.find_nearest P st) as [[c d]|]; [|done].
  destruct Hnear as (_ & _ & _ & _ & -> & _).
  apply IH;
    cbn [NearestNeighborVRP.route NearestNeighborVRP.current_position
         NearestNeighborVRP.route_distance];
    rewrite fmap_app;
    change (0 :: shift (NearestNeighborVRP.route st) ++ shift [c])
      with ((0 :: shift (NearestNeighborVRP.route st)) ++ [c + 1]).
  - by rewrite last_snoc.
  - rewrite path_length_snoc_last by done. rewrite Hdist, Hpos. reflexivity.
Qed.

Lemma construct_route_distance unv rt d unv' :
  NearestNeighborVRP._construct_route P unv = (rt, d, unv') →
  (d == rdist rt)%Q.
Proof.
  unfold NearestNeighborVRP._construct_route.
  case_bool_decide as Hemp.
  { intros [= <- <- <-]. done. }
  match goal with
  | |- context [NearestNeighborVRP.construct_loop P ?f ?s] =>
      destruct (construct_loop_path f s) as [Hpos Hdist]; [done|done|];
      set (st' := NearestNeighborVRP.construct_loop P f s) in *
  end.
  intros [= <- <- <-]. case_bool_decide as Hrt.
  - rewrite Hrt in *. rewrite Hdist. done.
  - rewrite (route_distance_tour P _ Hrt). unfold tour.
    change (0 :: shift (NearestNeighborVRP.route st') ++ [0])
      with ((0 :: shift (NearestNeighborVRP.route st')) ++ [0]).
    rewrite path_length_snoc_last by done. rewrite Hdist, Hpos. reflexivity.
Qed.

Lemma total_snoc rs r : (total (rs ++ [r]) == total rs + rdist r)%Q.
Proof.
  unfold TwoOptVRP._calculate_total_distance, sumQ.
  rewrite fmap_app, fold_left_app. simpl. reflexivity.
Qed.

Lemma solve_loop_distance fuel st :
  (NearestNeighborVRP.solve_total_distance st
   == total (NearestNeighborVRP.solve_routes st))%Q →
  let st' := NearestNeighborVRP.solve_loop P fuel st in
  (NearestNeighborVRP.solve_total_distance st'
   == total (NearestNeighborVRP.solve_routes st'))%Q.
Proof.
  revert st. induction fuel as [|fuel IH]; intros st Hinv; [done|].
  cbv zeta. rewrite solve_loop_S.
  destruct (negb (bool_decide (NearestNeighborVRP.solve_unvisited st = []))
            && (NearestNeighborVRP.vehicle_count st <? num_vehicles P));
    [|done].
  destruct (NearestNeighborVRP._construct_route P
              (NearestNeighborVRP.solve_unvisited st))
    as [[rt d] unv'] eqn:Hcr.
  apply construct_route_distance in Hcr.
  destruct (negb (bool_decide (rt = []))); [|done].
  apply IH. simpl. rewrite total_snoc, Hinv, Hcr. reflexivity.
Qed.

(** The shape of the state of the outer loop. *)
Lemma solve_loop_shape fuel st :
  Forall (λ r, r ≠ []) (NearestNeighborVRP.solve_routes st) →
  NearestNeighborVRP.vehicle_count st
  = length (NearestNeighborVRP.solve_routes st) →
  NearestNeighborVRP.vehicle_count st ≤ num_vehicles P →
  let st' := NearestNeighborVRP.solve_loop P fuel st in
  Forall (λ r, r ≠ []) (NearestNeighborVRP.solve_routes st')
  ∧ length (NearestNeighborVRP.solve_routes st') ≤ num_vehicles P.
Proof.
  revert st. induction fuel as [|fuel IH]; intros st Hne Hcount Hle.
  { simpl. split; [done|lia]. }
  cbv zeta. rewrite solve_loop_S.
  destruct (negb (bool_decide (NearestNeighborVRP.solve_unvisited st = []))
            && (NearestNeighborVRP.vehicle_count st <? num_vehicles P))
    eqn:Hcond; [|split; [done|lia]].
  apply andb_prop in Hcond as [_ Hlt]. apply Nat.ltb_lt in Hlt.
  destruct (NearestNeighborVRP._construct_route P
              (NearestNeighborVRP.solve_unvisited st))
    as [[rt d] unv'] eqn:Hcr.
  destruct (bool_decide (rt = [])) eqn:Hrt; simpl; [split; [done|lia]|].
  apply bool_decide_eq_false in Hrt.
  apply IH; simpl.
  - apply Forall_app. split; [done|]. by apply Forall_singleton.
  - rewrite length_app. simpl. lia.
  - lia.
Qed.

(** The inner loop stops when nothing is left or nothing fits. *)
Lemma construct_loop_final fuel st :
  length (NearestNeighborVRP.unvisited st) ≤ fuel →
  let st' := NearestNeighborVRP.construct_loop P fuel st in
  ∀ c, c ∈ NearestNeighborVRP.unvisited st' →
       ¬ fits P (NearestNeighborVRP.current_load st') c.
Proof.
  revert st. induction fuel as [|fuel IH]; intros st Hlen; simpl.
  { destruct (NearestNeighborVRP.unvisited st); [|simpl in Hlen; lia].
    intros c Hc. by apply elem_of_nil in Hc. }
  case_bool_decide as Hemp.
  { rewrite Hemp. intros c Hc. by apply elem_of_nil in Hc. }
  pose proof (fold_consider_nearest (NearestNeighborVRP.current_load st)
                (NearestNeighborVRP.current_position st)
                (NearestNeighborVRP.unvisited st)) as Hnear.
  fold (NearestNeighborVRP.find_nearest P st) in Hnear.
  destruct (NearestNeighborVRP.find_nearest P st) as [[c d]|]; [|done].
  destruct Hnear as (l1 & l2 & Hunv & _).
  apply IH. simpl.
  assert (length (filter (λ x, x ≠ c) (NearestNeighborVRP.unvisited st))
          < length (NearestNeighborVRP.unvisited st)).
  { apply (length_filter_lt _ _ c); [|tauto].
    rewrite Hunv. apply elem_of_app. right. by left. }
  lia.
Qed.

Lemma construct_route_saturated unv rt d unv' :
  NoDup unv →
  NearestNeighborVRP._construct_route P unv = (rt, d, unv') →
  ∀ c, c ∈ unv' → ¬ fits P (load rt) c.
Proof.
  intros Hnd. unfold NearestNeighborVRP._construct_route.
  case_bool_decide as Hemp.
  { intros [= <- <- <-]. rewrite Hemp. intros c Hc.
    by apply elem_of_nil in Hc. }
  match goal with
  | |- context [NearestNeighborVRP.construct_loop P ?f ?s] =>
      destruct (construct_loop_spec P f s Hnd)
        as (added & Hroute & _ & _ & Hload & _);
      pose proof (construct_loop_final f s ltac:(done)) as Hfinal;
      set (st' := NearestNeighborVRP.construct_loop P f s) in *
  end.
  intros [= <- <- <-]. simpl in *. intros c Hc.
  rewrite Hroute. simpl. specialize (Hfinal c Hc).
  rewrite Hload in Hfinal. by rewrite Z.add_0_l in Hfinal.
Qed.

Lemma solve_loop_saturated fuel st :
  nn_inv P st →
  (∀ r c, r ∈ NearestNeighborVRP.solve_routes st →
          c ∈ NearestNeighborVRP.solve_unvisited st → ¬ fits P (load r) c) →
  let st' := NearestNeighborVRP.solve_loop P fuel st in
  ∀ r c, r ∈ NearestNeighborVRP.solve_routes st' →
         c ∈ NearestNeighborVRP.solve_unvisited st' → ¬ fits P (load r) c.
Proof.
  revert st. induction fuel as [|fuel IH]; intros st Hinv Hsat; [done|].
  cbv zeta. rewrite solve_loop_S.
  destruct (negb (bool_decide (NearestNeighborVRP.solve_unvisited st = []))
            && (NearestNeighborVRP.vehicle_count st <? num_vehicles P))
    eqn:Hcond; [|done].
  destruct (NearestNeighborVRP._construct_route P
              (NearestNeighborVRP.solve_unvisited st))
    as [[rt d] unv'] eqn:Hcr.
  pose proof (nn_inv_NoDup P _ Hinv) as Hnd.
  destruct (construct_route_spec P _ _ _ _ Hnd Hcr) as (Hperm & _ & _).
  pose proof (construct_route_saturated _ _ _ _ Hnd Hcr) as Hnew.
  assert (Hsub : ∀ c, c ∈ unv' → c ∈ NearestNeighborVRP.solve_unvisited st).
  { intros c Hc. rewrite Hperm. apply elem_of_app. by right. }
  pose proof (solve_loop_inv P 1 st Hinv) as Hinv1.
  rewrite solve_loop_S, Hcond, Hcr in Hinv1.
  destruct (bool_decide (rt = [])) eqn:Hrt; simpl in *.
  - intros r c Hr Hc. apply Hsat; [done|by apply Hsub].
  - apply IH; [done|]. simpl. intros r c Hr Hc.
    apply elem_of_app in Hr as [Hr|Hr].
    + apply Hsat; [done|by apply Hsub].
    + apply list_elem_of_singleton in Hr as ->. by apply Hnew.
Qed.

(** When the outer loop stops with customers left and vehicles to spare,
    no customer left fits an empty vehicle. *)
Lemma solve_loop_spare fuel st :
  nn_inv P st →
  num_vehicles P - NearestNeighborVRP.vehicle_count st ≤ fuel →
  NearestNeighborVRP.vehicle_count st
  = length (NearestNeighborVRP.solve_routes st) →
  let st' := NearestNeighborVRP.solve_loop P fuel st in
  length (NearestNeighborVRP.solve_routes st') < num_vehicles P →
  ∀ c, c ∈ NearestNeighborVRP.solve_unvisited st' → ¬ fits P 0 c.
Proof.
  revert st. induction fuel as [|fuel IH]; intros st Hinv Hfuel Hcount.
  { simpl. lia. }
  cbv zeta. rewrite solve_loop_S.
  destruct (bool_decide (NearestNeighborVRP.solve_unvisited st = []))
    eqn:Hunv; simpl.
  { apply bool_decide_eq_true in Hunv. rewrite Hunv.
    intros _ c Hc. by apply elem_of_nil in Hc. }
  destruct (NearestNeighborVRP.vehicle_count st <? num_vehicles P) eqn:Hlt.
  2:{ apply Nat.ltb_ge in Hlt. lia. }
  destruct (NearestNeighborVRP._construct_route P
              (NearestNeighborVRP.solve_unvisited st))
    as [[rt d] unv'] eqn:Hcr.
  pose proof (nn_inv_NoDup P _ Hinv) as Hnd.
  pose proof (construct_route_saturated _ _ _ _ Hnd Hcr) as Hnew.
  pose proof (solve_loop_inv P 1 st Hinv) as Hinv1.
  rewrite solve_loop_S, Hunv, Hlt, Hcr in Hinv1. simpl in Hinv1.
  destruct (bool_decide (rt = [])) eqn:Hrt; simpl in *.
  - apply bool_decide_eq_true in Hrt. subst rt. intros _ c Hc.
    by apply Hnew.
  - apply IH; simpl; [done|lia|].
    rewrite length_app. simpl. lia.
Qed.

End NearestNeighborSteps.

(** X12.  The scan of [_construct_route] for the next customer is greedy:
    it finds nothing exactly when no unvisited customer fits the load,
    and otherwise it finds a customer that fits and is nearest to the
    current position among those that fit, the first such customer in
    the order of iteration. *)
Theorem find_nearest_is_greedy (P : Problem)
    (st : NearestNeighborVRP.RouteState) :
  nearest_of P (NearestNeighborVRP.current_load st)
    (NearestNeighborVRP.current_position st)
    (NearestNeighborVRP.unvisited st)
    (NearestNeighborVRP.find_nearest P st).
Proof. apply fold_consider_nearest. Qed.

(** X13.  The total distance the nearest-neighbour [solve] accumulates leg
    by leg is the sum of the distances of the routes it returns, each
    measured from the depot through its customers and back. *)
Theorem nn_total_distance_is_route_sum (P : Problem) :
  (NearestNeighborVRP.total_distance (NearestNeighborVRP.solve P)
   == TwoOptVRP._calculate_total_distance P
        (NearestNeighborVRP.routes (NearestNeighborVRP.solve P)))%Q.
Proof.
  unfold NearestNeighborVRP.solve. simpl.
  apply (solve_loop_distance P). done.
Qed.

(** X14.  The nearest-neighbour [solve] returns no empty route and at most
    [num_vehicles] routes, and it reports the solution feasible exactly
    when no customer is left unvisited, that is when the routes hold
    every customer. *)
Theorem nn_solution_shape (P : Problem) :
  let sol := NearestNeighborVRP.solve P in
  Forall (λ r, r ≠ []) (NearestNeighborVRP.routes sol)
  ∧ length (NearestNeighborVRP.routes sol) ≤ num_vehicles P
  ∧ (NearestNeighborVRP.feasible sol = true
     ↔ NearestNeighborVRP.unvisited_customers sol = [])
  ∧ (NearestNeighborVRP.feasible sol = true
     ↔ concat (NearestNeighborVRP.routes sol) ≡ₚ seq 0 (num_customers P)).
Proof.
  intros sol. destruct (nn_solve_inv P) as [Hpart _]. fold sol in Hpart.
  assert (Hfeas : NearestNeighborVRP.feasible sol = true
                  ↔ NearestNeighborVRP.unvisited_customers sol = []).
  { subst sol. unfold NearestNeighborVRP.solve. simpl.
    rewrite bool_decide_eq_true. split.
    - apply nil_length_inv.
    - by intros ->. }
  split; [|split; [|split; [done|]]].
  - subst sol. unfold NearestNeighborVRP.solve. simpl.
    apply (solve_loop_shape P); simpl; [constructor|done|lia].
  - subst sol. unfold NearestNeighborVRP.solve. simpl.
    apply (solve_loop_shape P); simpl; [constructor|done|lia].
  - rewrite Hfeas. split.
    + intros Hnil. rewrite Hnil, app_nil_r in Hpart. done.
    + intros Hall. apply nil_length_inv.
      apply Permutation_length in Hpart, Hall.
      rewrite length_app in Hpart. lia.
Qed.

(** X15.  The nearest-neighbour routes are filled greedily: no customer
    left unvisited fits the load of any returned route, and when
    customers are left although fewer than [num_vehicles] routes are
    used, none of them fits an empty vehicle. *)
Theorem nn_routes_saturated (P : Problem) :
  let sol := NearestNeighborVRP.solve P in
  (∀ r c, r ∈ NearestNeighborVRP.routes sol →
          c ∈ NearestNeighborVRP.unvisited_customers sol →
          (vehicle_capacity P < sumZ (demands P <$> r) + demands P c)%Z)
  ∧ (length (NearestNeighborVRP.routes sol) < num_vehicles P →
     ∀ c, c ∈ NearestNeighborVRP.unvisited_customers sol →
          (vehicle_capacity P < demands P c)%Z).
Proof.
  intros sol. subst sol. unfold NearestNeighborVRP.solve. simpl.
  assert (Hinit : nn_inv P
            {| NearestNeighborVRP.solve_unvisited := seq 0 (num_customers P);
               NearestNeighborVRP.solve_routes := [];
               NearestNeighborVRP.solve_total_distance := 0;
               NearestNeighborVRP.vehicle_count := 0 |})
    by (split; simpl; [done|constructor]).
  split.
  - intros r c Hr Hc.
    pose proof (solve_loop_saturated P (num_vehicles P) _ Hinit) as Hsat.
    simpl in Hsat.
    assert (¬ fits P (sumZ (demands P <$> r)) c) as Hno.
    { apply Hsat; [|done|done]. intros r' c' Hr'. by apply elem_of_nil in Hr'. }
    unfold fits in Hno. lia.
  - intros Hlen c Hc.
    pose proof (solve_loop_spare P (num_vehicles P) _ Hinit) as Hspare.
    simpl in Hspare.
    assert (¬ fits P 0 c) as Hno by (apply Hspare; [lia|done|done|done]).
    unfold fits in Hno. lia.
Qed.

Lemma nn_routes_saturated_witness :
  NearestNeighborVRP.routes (NearestNeighborVRP.solve P3) = [[0]; [1]]
  ∧ NearestNeighborVRP.unvisited_customers (NearestNeighborVRP.solve P3) = [2]
  ∧ (∀ r c, r ∈ NearestNeighborVRP.routes (NearestNeighborVRP.solve P3) →
            c ∈ NearestNeighborVRP.unvisited_customers
                  (NearestNeighborVRP.solve P3) →
            (vehicle_capacity P3 < sumZ (demands P3 <$> r) + demands P3 c)%Z).
Proof.
  split; [reflexivity|]. split; [reflexivity|].
  apply (proj1 (nn_routes_saturated P3)).
Defined.

(** ** The savings constructor: the vehicle limit *)

Section SavingsLimit.
Variable P : Problem.

#[local] Abbreviation N := (num_customers P).
#[local] Abbreviation rdist := (TwoOptVRP._calculate_route_distance P).
#[local] Abbreviation limit := (SavingsAlgorithmVRP.limit_vehicles P).

Lemma limit_vehicles_spec (rs : list (list nat)) :
  ∃ dropped,
    rs ≡ₚ limit rs ++ dropped
    ∧ length (limit rs) = length rs `min` num_vehicles P
    ∧ (length rs ≤ num_vehicles P → limit rs = rs)
    ∧ ∀ r r', r ∈ limit rs → r' ∈ dropped → (rdist r <= rdist r')%Q.
Proof.
  unfold SavingsAlgorithmVRP.limit_vehicles.
  destruct (num_vehicles P <? length rs) eqn:Hlt.
  - apply Nat.ltb_lt in Hlt.
    set (info := (λ route, (route,
                    SavingsAlgorithmVRP._calculate_route_distance P route))
                 <$> rs).
    set (before := λ x y : list nat * Q, Qle_bool x.2 y.2).
    set (sorted := stable_sort before info).
    assert (Hperm : sorted ≡ₚ info) by apply stable_sort_perm.
    assert (Hsorted : StronglySorted (λ x y, (x.2 <= y.2)%Q) sorted).
    { eapply StronglySorted_weaken; [|apply (stable_sort_sorted before)].
      - intros x y Hxy. by apply Qle_bool_iff.
      - intros x y Hxy. apply Qle_bool_iff.
        destruct (Qlt_le_dec y.2 x.2) as [Hl|Hle]; [lra|].
        apply Qle_bool_iff in Hle. unfold before in Hxy. congruence.
      - intros x y z H1 H2. apply Qle_bool_iff in H1, H2.
        apply Qle_bool_iff. lra. }
    assert (Hinfo : ∀ x, x ∈ sorted → x.2 = rdist x.1).
    { intros x Hx. rewrite Hperm in Hx. subst info.
      apply list_elem_of_fmap in Hx as (r & -> & _). done. }
    exists (fst <$> drop (num_vehicles P) sorted).
    split; [|split; [|split]].
    + rewrite <- fmap_app, take_drop, Hperm. subst info.
      rewrite <- list_fmap_compose.
      clear. induction rs as [|r rs IH]; simpl; [done|]. by f_equiv.
    + rewrite length_fmap, length_take, (Permutation_length Hperm).
      subst info. rewrite length_fmap. lia.
    + lia.
    + intros r r' Hr Hr'.
      apply list_elem_of_fmap in Hr as (x & -> & Hx).
      apply list_elem_of_fmap in Hr' as (y & -> & Hy).
      rewrite <- (take_drop (num_vehicles P) sorted) in Hsorted.
      pose proof (StronglySorted_app_1_elem_of _ _ _ x y Hsorted Hx Hy) as Hle.
      rewrite <- !Hinfo; [done| |].
      * by apply (subseteq_drop (num_vehicles P) sorted).
      * by apply (subseteq_take (num_vehicles P) sorted).
  - apply Nat.ltb_ge in Hlt. exists []. rewrite app_nil_r.
    split; [done|]. split; [lia|]. split; [done|].
    intros r r' _ Hr'. by apply elem_of_nil in Hr'.
Qed.

Lemma concat_nonempty_length (rs : list (list nat)) :
  Forall (λ r, r ≠ []) rs → length rs ≤ length (concat rs).
Proof.
  induction 1 as [|r rs Hr _ IH]; simpl; [done|].
  rewrite length_app. destruct r; [done|]. simpl. lia.
Qed.

End SavingsLimit.

Lemma savings_limit_cover (P : Problem) :
  let sol := SavingsAlgorithmVRP.solve P in
  let st := SavingsAlgorithmVRP.merge_loop P
              (SavingsAlgorithmVRP.savings_list P)
              (SavingsAlgorithmVRP.initial_state P) in
  let final := filter (λ r, r ≠ []) (SavingsAlgorithmVRP.merge_routes st) in
  ∃ dropped,
    final ≡ₚ SavingsAlgorithmVRP.routes sol ++ dropped
    ∧ length (SavingsAlgorithmVRP.routes sol)
      = length final `min` num_vehicles P
    ∧ (length final ≤ num_vehicles P → SavingsAlgorithmVRP.routes sol = final)
    ∧ (∀ r r', r ∈ SavingsAlgorithmVRP.routes sol → r' ∈ dropped →
         (TwoOptVRP._calculate_route_distance P r
          <= TwoOptVRP._calculate_route_distance P r')%Q)
    ∧ SavingsAlgorithmVRP.unvisited_customers sol ≡ₚ concat dropped
    ∧ Forall (λ r, r ≠ []) dropped.
Proof.
  intros sol st final.
  destruct (limit_vehicles_spec P final)
    as (dropped & Hperm & Hlen & Hsame & Hshort).
  assert (Hroutes : SavingsAlgorithmVRP.routes sol
                    = SavingsAlgorithmVRP.limit_vehicles P final) by done.
  rewrite <- Hroutes in *.
  exists dropped. split; [done|]. split; [done|]. split; [done|].
  split; [done|].
  pose proof (reachable_minv P _ (solve_state_reachable P))
    as (_ & _ & Hcover & _).
  fold st in Hcover. rewrite <- concat_filter_nonempty in Hcover.
  fold final in Hcover.
  rewrite (concat_perm _ _ Hperm), concat_app in Hcover.
  destruct (savings_solve_spec P) as (_ & _ & Hpart). fold sol in Hpart.
  split.
  - apply (Permutation_app_inv_l (concat (SavingsAlgorithmVRP.routes sol))).
    by rewrite Hpart, Hcover.
  - apply Forall_forall. intros r Hr.
    assert (r ∈ final) as Hin
      by (rewrite Hperm; apply elem_of_app; by right).
    by apply list_elem_of_filter in Hin as [? _].
Qed.

(** X16.  The savings [solve] returns no empty route and at most
    [num_vehicles] routes.  It reports the solution feasible exactly when
    no customer is left unvisited, and that is exactly when the merging
    has left at most [num_vehicles] routes. *)
Theorem savings_solution_shape (P : Problem) :
  let sol := SavingsAlgorithmVRP.solve P in
  let st := SavingsAlgorithmVRP.merge_loop P
              (SavingsAlgorithmVRP.savings_list P)
              (SavingsAlgorithmVRP.initial_state P) in
  Forall (λ r, r ≠ []) (SavingsAlgorithmVRP.routes sol)
  ∧ length (SavingsAlgorithmVRP.routes sol) ≤ num_vehicles P
  ∧ (SavingsAlgorithmVRP.feasible sol = true
     ↔ SavingsAlgorithmVRP.unvisited_customers sol = [])
  ∧ (SavingsAlgorithmVRP.feasible sol = true
     ↔ length (filter (λ r, r ≠ []) (SavingsAlgorithmVRP.merge_routes st))
       ≤ num_vehicles P).
Proof.
  intros sol st.
  destruct (savings_limit_cover P)
    as (dropped & Hperm & Hlen & Hsame & _ & Hunv & Hne).
  fold sol st in Hperm, Hlen, Hsame, Hunv.
  set (final := filter (λ r, r ≠ []) (SavingsAlgorithmVRP.merge_routes st))
    in *.
  assert (Hfeas : SavingsAlgorithmVRP.feasible sol = true
                  ↔ SavingsAlgorithmVRP.unvisited_customers sol = []).
  { assert (SavingsAlgorithmVRP.feasible sol
            = bool_decide
                (length (SavingsAlgorithmVRP.unvisited_customers sol) = 0))
      as -> by done.
    rewrite bool_decide_eq_true. split.
    - apply nil_length_inv.
    - by intros ->. }
  split; [|split; [|split; [done|]]].
  - apply Forall_forall. intros r Hr.
    by destruct (proj1 (savings_solve_spec P) r Hr).
  - lia.
  - rewrite Hfeas. split.
    + intros Hnil. rewrite Hnil in Hunv.
      apply Permutation_length in Hunv. simpl in Hunv.
      pose proof (concat_nonempty_length dropped Hne) as Hd.
      apply Permutation_length in Hperm. rewrite length_app in Hperm. lia.
    + intros Hle. rewrite (Hsame Hle) in Hperm.
      apply Permutation_length in Hperm. rewrite length_app in Hperm.
      assert (dropped = []) as -> by (apply nil_length_inv; lia).
      simpl in Hunv. by apply Permutation_nil_r in Hunv.
Qed.

(** X17.  The vehicle limit of the savings [solve]: of the routes the
    merging has left it keeps [num_vehicles], none of them longer than a
    route it drops, and the customers it reports unvisited are exactly
    the customers of the dropped routes. *)
Theorem savings_vehicle_limit (P : Problem) :
  let sol := SavingsAlgorithmVRP.solve P in
  let st := SavingsAlgorithmVRP.merge_loop P
              (SavingsAlgorithmVRP.savings_list P)
              (SavingsAlgorithmVRP.initial_state P) in
  let final := filter (λ r, r ≠ []) (SavingsAlgorithmVRP.merge_routes st) in
  ∃ dropped,
    final ≡ₚ SavingsAlgorithmVRP.routes sol ++ dropped
    ∧ length (SavingsAlgorithmVRP.routes sol)
      = length final `min` num_vehicles P
    ∧ (∀ r r', r ∈ SavingsAlgorithmVRP.routes sol → r' ∈ dropped →
         (TwoOptVRP._calculate_route_distance P r
          <= TwoOptVRP._calculate_route_distance P r')%Q)
    ∧ SavingsAlgorithmVRP.unvisited_customers sol ≡ₚ concat dropped.
Proof.
  intros sol st final.
  destruct (savings_limit_cover P)
    as (dropped & Hperm & Hlen & _ & Hshort & Hunv & _).
  exists dropped. done.
Qed.

Lemma savings_vehicle_limit_witness :
  SavingsAlgorithmVRP.routes (SavingsAlgorithmVRP.solve P5) = [[0]; [1]]
  ∧ SavingsAlgorithmVRP.unvisited_customers (SavingsAlgorithmVRP.solve P5)
    = [2; 3]
  ∧ SavingsAlgorithmVRP.feasible (SavingsAlgorithmVRP.solve P5) = false
  ∧ ∃ dropped,
      filter (λ r, r ≠ [])
        (SavingsAlgorithmVRP.merge_routes
           (SavingsAlgorithmVRP.merge_loop P5
              (SavingsAlgorithmVRP.savings_list P5)
              (SavingsAlgorithmVRP.initial_state P5)))
      ≡ₚ SavingsAlgorithmVRP.routes (SavingsAlgorithmVRP.solve P5) ++ dropped
      ∧ length (SavingsAlgorithmVRP.routes (SavingsAlgorithmVRP.solve P5))
        = length
            (filter (λ r, r ≠ [])
               (SavingsAlgorithmVRP.merge_routes
                  (SavingsAlgorithmVRP.merge_loop P5
                     (SavingsAlgorithmVRP.savings_list P5)
                     (SavingsAlgorithmVRP.initial_state P5))))
          `min` num_vehicles P5
      ∧ (∀ r r',
           r ∈ SavingsAlgorithmVRP.routes (SavingsAlgorithmVRP.solve P5) →
           r' ∈ dropped →
           (TwoOptVRP._calculate_route_distance P5 r
            <= TwoOptVRP._calculate_route_distance P5 r')%Q)
      ∧ SavingsAlgorithmVRP.unvisited_customers (SavingsAlgorithmVRP.solve P5)
        ≡ₚ concat dropped.
Proof.
  split; [reflexivity|]. split; [reflexivity|]. split; [reflexivity|].
  apply (savings_vehicle_limit P5).
Defined.

(** ** The savings constructor: merging two routes *)

Section SavingsMerge.
Variable P : Problem.

#[local] Abbreviation dm := (distance_matrix P).
#[local] Abbreviation rdist := (TwoOptVRP._calculate_route_distance P).
#[local] Abbreviation shift route := ((λ c : nat, c + 1) <$> route).

Lemma head_last_singleton (r : list nat) :
  length r - 1 = 0 → r ≠ [] → head r = last r.
Proof. destruct r as [|x [|y r]]; simpl; intros; try done; lia. Qed.

Lemma first_customer_head (r : list nat) c :
  r ≠ [] → first_customer r = c ↔ head r = Some c.
Proof.
  destruct r as [|x r]; [done|]. unfold first_customer. simpl.
  intros _. split; [by intros ->|by intros [= ->]].
Qed.

Lemma at_end_nonempty (r : list nat) c : at_end r c → r ≠ [].
Proof. intros [H|H] ->; simpl in H; discriminate. Qed.

Lemma merge_routes_junction route1 route2 i j :
  at_end route1 i → at_end route2 j →
  let merged := (SavingsAlgorithmVRP._merge_routes P route1 route2 i j).1 in
  ∃ a b,
    (a = route1 ∨ a = reverse route1) ∧ (b = route2 ∨ b = reverse route2)
    ∧ ((merged = a ++ b ∧ last a = Some i ∧ head b = Some j)
       ∨ (merged = b ++ a ∧ last b = Some j ∧ head a = Some i)).
Proof.
  intros Hi Hj.
  pose proof (at_end_nonempty _ _ Hi) as Hn1.
  pose proof (at_end_nonempty _ _ Hj) as Hn2.
  unfold SavingsAlgorithmVRP._merge_routes. cbn [fst].
  pose proof (head_last_singleton route1) as Hs1.
  pose proof (head_last_singleton route2) as Hs2.
  destruct (bool_decide (first_customer route1 = i)) eqn:H1;
    [apply bool_decide_eq_true, first_customer_head in H1; [|done]
    |apply bool_decide_eq_false in H1;
     rewrite first_customer_head in H1 by done;
     destruct Hi as [Hi|Hi]; [done|]];
  (destruct (bool_decide (first_customer route2 = j)) eqn:H2;
    [apply bool_decide_eq_true, first_customer_head in H2; [|done]
    |apply bool_decide_eq_false in H2;
     rewrite first_customer_head in H2 by done;
     destruct Hj as [Hj|Hj]; [done|]]);
  repeat match goal with
         | |- context [?a =? ?b] => destruct (Nat.eqb_spec a b)
         end; cbn [andb];
  try (exfalso; lia);
  try (exfalso; apply H1; rewrite Hs1 by (done || lia); done);
  try (exfalso; apply H2; rewrite Hs2 by (done || lia); done).
  all: try (exists route1, route2; split; [by left|]; split; [by left|];
            left; split; [done|]; split;
            [by (done || rewrite <- Hs1 by (done || lia))|done]).
  all: try (exists route1, route2; split; [by left|]; split; [by left|];
            right; split; [done|]; split;
            [by (done || rewrite <- Hs2 by (done || lia))|done]).
  all: try (exists route1, (reverse route2); split; [by left|];
            split; [by right|]; left; split; [done|]; split; [done|];
            by rewrite head_reverse).
  all: try (exists (reverse route1), route2; split; [by right|];
            split; [by left|]; left; split; [done|]; split; [|done];
            by rewrite last_reverse).
Qed.

(** Joining two routes replaces the return of the first and the departure
    of the second by the edge between them. *)
Lemma route_distance_app a b i j :
  last a = Some i → head b = Some j →
  (rdist (a ++ b)
   == rdist a + rdist b - dm (i + 1) 0 - dm 0 (j + 1) + dm (i + 1) (j + 1))%Q.
Proof.
  intros Ha Hb.
  assert (Hna : a ≠ []) by (intros ->; discriminate).
  assert (Hnb : b ≠ []) by (intros ->; discriminate).
  assert (Hnab : a ++ b ≠ []) by (by destruct a).
  rewrite !(route_distance_tour P) by done. unfold tour.
  rewrite fmap_app, <- (assoc_L (++)).
  change (0 :: shift a ++ shift b ++ [0])
    with ((0 :: shift a) ++ (shift b ++ [0])).
  rewrite (path_length_join P) by (done || by destruct b).
  change (0 :: shift a ++ [0]) with ((0 :: shift a) ++ [0]).
  rewrite (path_length_snoc_last P (0 :: shift a) 0) by done.
  assert (Hfa : default 0 (last (0 :: shift a)) = i + 1).
  { destruct a as [|x a]; [done|]. rewrite fmap_cons, last_cons.
    change (x + 1 :: shift a) with (shift (x :: a)).
    by rewrite fmap_last, Ha. }
  rewrite Hfa.
  destruct b as [|y b]; [done|]. simpl in Hb. injection Hb as ->.
  simpl. lra.
Qed.

Lemma last_Some_reverse (r : list nat) c :
  last (reverse r) = Some c ↔ head r = Some c.
Proof. by rewrite last_reverse. Qed.

Lemma merge_routes_saving route1 route2 i j :
  dist_symmetric P → at_end route1 i → at_end route2 j →
  (rdist (SavingsAlgorithmVRP._merge_routes P route1 route2 i j).1
   == rdist route1 + rdist route2 - SavingsAlgorithmVRP.savings_value P i j)%Q.
Proof.
  intros Hsym Hi Hj.
  destruct (merge_routes_junction route1 route2 i j Hi Hj)
    as (a & b & Ha & Hb & Hcase).
  assert (Hda : (rdist a == rdist route1)%Q).
  { destruct Ha as [->| ->]; [done|]. by apply route_distance_reverse_eq. }
  assert (Hdb : (rdist b == rdist route2)%Q).
  { destruct Hb as [->| ->]; [done|]. by apply route_distance_reverse_eq. }
  unfold SavingsAlgorithmVRP.savings_value.
  destruct Hcase as [(-> & Hla & Hhb)|(-> & Hlb & Hha)].
  - rewrite (route_distance_app a b i j Hla Hhb), Hda, Hdb.
    rewrite (Hsym (i + 1) 0). lra.
  - rewrite (route_distance_app b a j i Hlb Hha), Hda, Hdb.
    rewrite (Hsym (j + 1) 0), (Hsym (j + 1) (i + 1)). lra.
Qed.

End SavingsMerge.

(** X18.  When [_can_merge_routes] allows two non-empty routes to be merged
    at the customers [i] and [j], [_merge_routes] returns the two routes
    end to end, each as it is or reversed, with [i] and [j] next to each
    other at the junction; the empty fallback of the code is never
    taken. *)
Theorem merge_routes_joins_at_customers (P : Problem)
    (route1 route2 : list nat) (load1 load2 : Z) (i j : nat) :
  route1 ≠ [] → route2 ≠ [] →
  SavingsAlgorithmVRP._can_merge_routes P route1 route2 load1 load2 i j
  = true →
  let merged := (SavingsAlgorithmVRP._merge_routes P route1 route2 i j).1 in
  ∃ a b,
    (a = route1 ∨ a = reverse route1) ∧ (b = route2 ∨ b = reverse route2)
    ∧ ((merged = a ++ b ∧ last a = Some i ∧ head b = Some j)
       ∨ (merged = b ++ a ∧ last b = Some j ∧ head a = Some i)).
Proof.
  intros Hn1 Hn2 Hcan.
  apply (can_merge_routes_spec P) in Hcan as (_ & Hi & Hj); [|done|done].
  by apply merge_routes_junction.
Qed.

Lemma merge_routes_joins_at_customers_witness :
  (SavingsAlgorithmVRP._merge_routes P4 route_a route_b 0 2).1 = [1; 0; 2; 3]
  ∧ ∃ a b,
      (a = route_a ∨ a = reverse route_a) ∧ (b = route_b ∨ b = reverse route_b)
      ∧ (((SavingsAlgorithmVRP._merge_routes P4 route_a route_b 0 2).1 = a ++ b
          ∧ last a = Some 0 ∧ head b = Some 2)
         ∨ ((SavingsAlgorithmVRP._merge_routes P4 route_a route_b 0 2).1
            = b ++ a
            ∧ last b = Some 2 ∧ head a = Some 0)).
Proof.
  split; [reflexivity|].
  apply (merge_routes_joins_at_customers P4 route_a route_b 8 6 0 2).
  - done.
  - done.
  - reflexivity.
Defined.



(** ** [get_route_info] *)

Section RouteInfo.
Variable P : Problem.

#[local] Abbreviation rdist := (TwoOptVRP._calculate_route_distance P).
#[local] Abbreviation load r := (sumZ (demands P <$> r)).

Lemma true_div_raises a b :
  true_div a b = Raises ZeroDivisionError ↔ b = 0%Z.
Proof. unfold true_div. case_bool_decide; split; done. Qed.

Lemma true_div_returns a b :
  b ≠ 0%Z → true_div a b = Returns (inject_Z a / inject_Z b)%Q.
Proof. intros Hb. unfold true_div. by rewrite bool_decide_eq_false_2. Qed.


End RouteInfo.

(** X20.  [get_route_info] of the three classes divides the load by the
    vehicle capacity: for a non-empty route it raises [ZeroDivisionError]
    exactly when the capacity is zero, and for the empty route it returns
    the three-entry dictionary, without utilization, whatever the
    capacity. *)
Theorem get_route_info_zero_capacity (P : Problem) (route : list nat) :
  (route = [] →
   TwoOptVRP.get_route_info P route = Returns empty_route_info
   ∧ NearestNeighborVRP.get_route_info P route = Returns empty_route_info
   ∧ SavingsAlgorithmVRP.get_route_info P route = Returns empty_route_info
   ∧ empty_route_info !! "capacity_utilization" = None)
  ∧ (route ≠ [] →
     (TwoOptVRP.get_route_info P route = Raises ZeroDivisionError
      ↔ vehicle_capacity P = 0%Z)
     ∧ (NearestNeighborVRP.get_route_info P route = Raises ZeroDivisionError
        ↔ vehicle_capacity P = 0%Z)
     ∧ (SavingsAlgorithmVRP.get_route_info P route = Raises ZeroDivisionError
        ↔ vehicle_capacity P = 0%Z)).
Proof.
  split.
  - intros ->. done.
  - intros Hne.
    unfold TwoOptVRP.get_route_info, NearestNeighborVRP.get_route_info,
      SavingsAlgorithmVRP.get_route_info, TwoOptVRP.route_demand.
    rewrite !bool_decide_eq_false_2 by done.
    destruct route as [|c0 rest]; [done|].
    unfold true_div.
    case_bool_decide as Hcap; repeat split; intros; done.
Qed.

Lemma get_route_info_zero_capacity_witness :
  TwoOptVRP.get_route_info P0 lone_route_0 = Raises ZeroDivisionError
  ↔ vehicle_capacity P0 = 0%Z.
Proof.
  apply (proj2 (get_route_info_zero_capacity P0 lone_route_0)). done.
Defined.

(** X21.  For a non-empty route and a non-zero capacity the three
    [get_route_info] agree: the dictionaries of the two constructors are
    the dictionary of the improver without its [feasible] entry, except
    that the nearest-neighbour class adds up the route distance itself,
    to the same value. *)
Theorem get_route_info_agree (P : Problem) (route : list nat) :
  route ≠ [] → vehicle_capacity P ≠ 0%Z →
  ∃ dt dn ds q,
    TwoOptVRP.get_route_info P route = Returns dt
    ∧ NearestNeighborVRP.get_route_info P route = Returns dn
    ∧ SavingsAlgorithmVRP.get_route_info P route = Returns ds
    ∧ dt !! "feasible"
      = Some (VBool (TwoOptVRP._is_route_feasible P route))
    ∧ ds = delete "feasible" dt
    ∧ ds !! "distance"
      = Some (VFloat (TwoOptVRP._calculate_route_distance P route))
    ∧ dn = <["distance" := VFloat q]> ds
    ∧ (q == TwoOptVRP._calculate_route_distance P route)%Q.
Proof.
  intros Hne Hcap.
  unfold TwoOptVRP.get_route_info, NearestNeighborVRP.get_route_info,
    SavingsAlgorithmVRP.get_route_info, TwoOptVRP.route_demand.
  rewrite !bool_decide_eq_false_2 by done.
  destruct route as [|c0 rest]; [done|].
  rewrite true_div_returns by done.
  eexists _, _, _, _.
  split; [reflexivity|]. split; [reflexivity|]. split; [reflexivity|].
  split; [reflexivity|]. split; [reflexivity|]. split; [reflexivity|].
  split; [reflexivity|].
  unfold TwoOptVRP._calculate_route_distance.
  rewrite !(add_legs_path P). lra.
Qed.

Lemma get_route_info_agree_witness :
  ∃ dt dn ds q,
    TwoOptVRP.get_route_info P4 zigzag = Returns dt
    ∧ NearestNeighborVRP.get_route_info P4 zigzag = Returns dn
    ∧ SavingsAlgorithmVRP.get_route_info P4 zigzag = Returns ds
    ∧ dt !! "feasible"
      = Some (VBool (TwoOptVRP._is_route_feasible P4 zigzag))
    ∧ ds = delete "feasible" dt
    ∧ ds !! "distance"
      = Some (VFloat (TwoOptVRP._calculate_route_distance P4 zigzag))
    ∧ dn = <["distance" := VFloat q]> ds
    ∧ (q == TwoOptVRP._calculate_route_distance P4 zigzag)%Q.
Proof.
  apply (get_route_info_agree P4 zigzag); done.
Defined.



(** ** The savings constructor: distance *)

Lemma sumQ_app l1 l2 : (sumQ (l1 ++ l2) == sumQ l1 + sumQ l2)%Q.
Proof.
  unfold sumQ. rewrite fold_left_app.
  rewrite (fold_left_Qplus_acc l2). reflexivity.
Qed.

Lemma sumQ_perm l1 l2 : l1 ≡ₚ l2 → (sumQ l1 == sumQ l2)%Q.
Proof.
  induction 1 as [|x l1 l2 _ IH|x y l|l1 l2 l3 _ IH1 _ IH2].
  - reflexivity.
  - rewrite !sumQ_cons, IH. reflexivity.
  - rewrite !sumQ_cons. lra.
  - by rewrite IH1.
Qed.

Section SavingsDistance.
Variable P : Problem.

#[local] Abbreviation N := (num_customers P).
#[local] Abbreviation rdist := (TwoOptVRP._calculate_route_distance P).
#[local] Abbreviation total := (TwoOptVRP._calculate_total_distance P).

Lemma total_perm rs1 rs2 : rs1 ≡ₚ rs2 → (total rs1 == total rs2)%Q.
Proof.
  intros H. unfold TwoOptVRP._calculate_total_distance.
  apply sumQ_perm. by apply fmap_Permutation.
Qed.

Lemma total_app rs1 rs2 : (total (rs1 ++ rs2) == total rs1 + total rs2)%Q.
Proof.
  unfold TwoOptVRP._calculate_total_distance.
  rewrite fmap_app. apply sumQ_app.
Qed.

Lemma total_filter_nonempty (rs : list (list nat)) :
  (total (filter (λ r, r ≠ []) rs) == total rs)%Q.
Proof.
  induction rs as [|r rs IH]; [reflexivity|].
  destruct r as [|c r].
  - rewrite filter_cons_False by tauto. rewrite total_cons, IH.
    simpl. lra.
  - rewrite filter_cons_True by done. rewrite !total_cons, IH. reflexivity.
Qed.

Lemma merged_state_total st i j :
  dist_symmetric P → minv P st → i < N → j < N →
  route_id st i ≠ route_id st j → can_merge P st i j = true →
  (total (SavingsAlgorithmVRP.merge_routes (merged_state P st i j))
   == total (SavingsAlgorithmVRP.merge_routes st)
      - SavingsAlgorithmVRP.savings_value P i j)%Q.
Proof.
  intros Hsym Hinv Hi Hj Hne Hcan.
  apply (can_merge_spec P st i j Hinv Hi Hj) in Hcan as (_ & Hei & Hej).
  destruct (minv_route P st i Hinv Hi) as (_ & _ & Hri & _).
  destruct (minv_route P st j Hinv Hj) as (_ & _ & Hrj & _).
  unfold merged_state. cbn [SavingsAlgorithmVRP.merge_routes].
  rewrite (total_insert2 P _ _ _ _ _ _ _ Hne Hri Hrj).
  rewrite (merge_routes_saving P _ _ i j Hsym Hei Hej).
  simpl. lra.
Qed.

Lemma merge_step_total st i j :
  dist_symmetric P → reachable P st → i < j → j < N →
  (0 <= SavingsAlgorithmVRP.savings_value P i j)%Q →
  (total (SavingsAlgorithmVRP.merge_routes
            (SavingsAlgorithmVRP.merge_step P st i j))
   <= total (SavingsAlgorithmVRP.merge_routes st))%Q.
Proof.
  intros Hsym Hreach Hij Hj Hpos.
  pose proof (reachable_minv P st Hreach) as Hinv.
  destruct (minv_route P st i Hinv ltac:(lia)) as (_ & Hlt & _).
  rewrite merge_step_unfold by (done || apply Hinv).
  case_bool_decide as Hsame; [lra|].
  destruct (can_merge P st i j) eqn:Hcan; [|lra].
  rewrite merged_state_total by (done || lia). lra.
Qed.

Lemma process_total entries st :
  dist_symmetric P → reachable P st →
  Forall (λ e, e.1.1 < e.1.2 ∧ e.1.2 < N
               ∧ (0 <= SavingsAlgorithmVRP.savings_value P e.1.1 e.1.2)%Q)
    entries →
  (total (SavingsAlgorithmVRP.merge_routes (process P entries st))
   <= total (SavingsAlgorithmVRP.merge_routes st))%Q.
Proof.
  intros Hsym Hreach Hall. revert st Hreach.
  induction Hall as [|e entries (Hij & Hj & Hpos) _ IH]; intros st Hreach.
  - simpl. lra.
  - unfold process in *. simpl.
    eapply Qle_trans; [apply IH; by constructor|].
    by apply merge_step_total.
Qed.

Lemma savings_merge_total :
  dist_symmetric P →
  (total (SavingsAlgorithmVRP.merge_routes
            (SavingsAlgorithmVRP.merge_loop P
               (SavingsAlgorithmVRP.savings_list P)
               (SavingsAlgorithmVRP.initial_state P)))
   <= total ((λ i, [i]) <$> seq 0 N))%Q.
Proof.
  intros Hsym.
  destruct (merge_loop_split P (SavingsAlgorithmVRP.savings_list P)
              (SavingsAlgorithmVRP.initial_state P) (savings_list_sorted P))
    as (pre & post & Heq & Hpre & _ & ->).
  change ((λ i, [i]) <$> seq 0 N)
    with (SavingsAlgorithmVRP.merge_routes (SavingsAlgorithmVRP.initial_state P)).
  apply process_total; [done|constructor|].
  apply Forall_forall. intros [[i j] v] Hin.
  assert ((i, j, v) ∈ SavingsAlgorithmVRP.savings_list P) as Hsl
    by (rewrite Heq; apply elem_of_app; by left).
  apply elem_of_savings_list in Hsl as (Hij & Hj & Hv).
  rewrite Forall_forall in Hpre. specialize (Hpre _ Hin). simpl in *.
  subst v. split; [done|]. split; [done|]. lra.
Qed.

End SavingsDistance.

(** X23.  Over a symmetric, non-negative distance matrix the savings
    [solve] returns a total distance no greater than that of serving
    every customer by a route of its own: each merge it makes shortens
    the routes by a positive saving. *)
Theorem savings_no_worse_than_singletons (P : Problem) :
  dist_symmetric P → dist_nonneg P →
  (SavingsAlgorithmVRP.total_distance (SavingsAlgorithmVRP.solve P)
   <= TwoOptVRP._calculate_total_distance P
        ((λ i, [i]) <$> seq 0 (num_customers P)))%Q.
Proof.
  intros Hsym Hnn.
  destruct (savings_limit_cover P) as (dropped & Hperm & _ & _ & _ & _ & _).
  eapply Qle_trans; [|apply (savings_merge_total P Hsym)].
  rewrite <- (total_filter_nonempty P), (total_perm P _ _ Hperm), total_app.
  pose proof (total_distance_nonneg P dropped Hnn).
  assert (SavingsAlgorithmVRP.total_distance (SavingsAlgorithmVRP.solve P)
          = TwoOptVRP._calculate_total_distance P
              (SavingsAlgorithmVRP.routes (SavingsAlgorithmVRP.solve P)))
    as -> by done.
  lra.
Qed.

Lemma savings_no_worse_than_singletons_witness :
  (SavingsAlgorithmVRP.total_distance (SavingsAlgorithmVRP.solve P6)
   <= TwoOptVRP._calculate_total_distance P6
        ((λ i, [i]) <$> seq 0 (num_customers P6)))%Q.
Proof.
  apply (savings_no_worse_than_singletons P6).
  - apply line_problem_symmetric.
  - apply line_problem_nonneg.
Defined.

(** ** The hybrid approach *)

Section HybridFacts.
Variable P : Problem.

#[local] Abbreviation N := (num_customers P).
#[local] Abbreviation total := (TwoOptVRP._calculate_total_distance P).
#[local] Abbreviation nn_solution := (NearestNeighborVRP.solve P).
#[local] Abbreviation cw_solution := (SavingsAlgorithmVRP.solve P).

Lemma nn_feasible_cover :
  NearestNeighborVRP.feasible nn_solution = true →
  concat (NearestNeighborVRP.routes nn_solution) ≡ₚ seq 0 N.
Proof.
  intros Hf. destruct (nn_solve_inv P) as [Hpart _].
  assert (NearestNeighborVRP.unvisited_customers nn_solution = []) as Hnil.
  { unfold NearestNeighborVRP.solve in *. simpl in *.
    apply bool_decide_eq_true in Hf. by apply nil_length_inv. }
  by rewrite Hnil, app_nil_r in Hpart.
Qed.

Lemma cw_feasible_cover :
  SavingsAlgorithmVRP.feasible cw_solution = true →
  concat (SavingsAlgorithmVRP.routes cw_solution) ≡ₚ seq 0 N.
Proof.
  intros Hf. destruct (savings_solve_spec P) as (_ & _ & Hpart).
  assert (SavingsAlgorithmVRP.unvisited_customers cw_solution = []) as Hnil.
  { assert (SavingsAlgorithmVRP.feasible cw_solution
            = bool_decide
                (length (SavingsAlgorithmVRP.unvisited_customers cw_solution)
                 = 0)) as Heq by done.
    rewrite Heq in Hf. apply bool_decide_eq_true in Hf.
    by apply nil_length_inv. }
  by rewrite Hnil, app_nil_r in Hpart.
Qed.

Lemma nn_solve_shape :
  Forall (λ r, r ≠ []) (NearestNeighborVRP.routes nn_solution)
  ∧ length (NearestNeighborVRP.routes nn_solution) ≤ num_vehicles P.
Proof.
  unfold NearestNeighborVRP.solve. simpl.
  apply (solve_loop_shape P); simpl; [constructor|done|lia].
Qed.

Lemma cw_solve_shape :
  Forall (λ r, r ≠ []) (SavingsAlgorithmVRP.routes cw_solution)
  ∧ length (SavingsAlgorithmVRP.routes cw_solution) ≤ num_vehicles P.
Proof.
  split.
  - apply Forall_forall. intros r Hr.
    by destruct (proj1 (savings_solve_spec P) r Hr).
  - destruct (savings_limit_cover P) as (dropped & _ & Hlen & _). lia.
Qed.

Lemma nn_solve_distance :
  (NearestNeighborVRP.total_distance nn_solution
   == total (NearestNeighborVRP.routes nn_solution))%Q.
Proof.
  unfold NearestNeighborVRP.solve. simpl.
  apply (solve_loop_distance P). done.
Qed.

(** The branch the choice of the initial solution takes. *)
Lemma choose_initial_cases :
  match VrpExample.choose_initial P with
  | None =>
      NearestNeighborVRP.feasible nn_solution = false
      ∧ SavingsAlgorithmVRP.feasible cw_solution = false
  | Some best =>
      (best = VrpExample.of_nn nn_solution
       ∧ NearestNeighborVRP.feasible nn_solution = true
       ∧ (SavingsAlgorithmVRP.feasible cw_solution = true →
          (NearestNeighborVRP.total_distance nn_solution
           <= SavingsAlgorithmVRP.total_distance cw_solution)%Q))
      ∨ (best = VrpExample.of_cw cw_solution
         ∧ SavingsAlgorithmVRP.feasible cw_solution = true
         ∧ (NearestNeighborVRP.feasible nn_solution = true →
            (SavingsAlgorithmVRP.total_distance cw_solution
             < NearestNeighborVRP.total_distance nn_solution)%Q))
  end.
Proof.
  unfold VrpExample.choose_initial.
  destruct (NearestNeighborVRP.feasible nn_solution) eqn:Hnn;
    destruct (SavingsAlgorithmVRP.feasible cw_solution) eqn:Hcw; cbn [andb].
  - destruct (Qle_bool _ _) eqn:Hle.
    + left. apply Qle_bool_iff in Hle. done.
    + right. split; [done|]. split; [done|]. intros _.
      destruct (Qlt_le_dec (SavingsAlgorithmVRP.total_distance cw_solution)
                  (NearestNeighborVRP.total_distance nn_solution))
        as [Hlt|Hge]; [done|].
      apply Qle_bool_iff in Hge. congruence.
  - left. done.
  - right. done.
  - done.
Qed.

Lemma chosen_initial_ok best :
  VrpExample.choose_initial P = Some best →
  concat (VrpExample.routes best) ≡ₚ seq 0 N
  ∧ Forall (λ r, r ≠ []) (VrpExample.routes best)
  ∧ length (VrpExample.routes best) ≤ num_vehicles P
  ∧ (VrpExample.total_distance best == total (VrpExample.routes best))%Q
  ∧ (VrpExample.best_method best = VrpExample.NearestNeighbor →
     capacity_respected P (VrpExample.routes best)).
Proof.
  intros Hbest. pose proof choose_initial_cases as Hcases.
  rewrite Hbest in Hcases.
  destruct Hcases as [(-> & Hf & _)|(-> & Hf & _)]; simpl.
  - split; [by apply nn_feasible_cover|].
    split; [apply nn_solve_shape|]. split; [apply nn_solve_shape|].
    split; [apply nn_solve_distance|]. intros _. apply (nn_solve_inv P).
  - split; [by apply cw_feasible_cover|].
    split; [apply cw_solve_shape|]. split; [apply cw_solve_shape|].
    split; [reflexivity|]. discriminate.
Qed.

Lemma improve_solution_mono fuel fuel' rs m sol :
  TwoOptVRP.improve_solution P fuel rs m = Some sol → fuel ≤ fuel' →
  TwoOptVRP.improve_solution P fuel' rs m = Some sol.
Proof.
  unfold TwoOptVRP.improve_solution.
  intros (st & Hrun & ->)%fmap_solution_Some Hle.
  by rewrite (run_loop_mono _ _ _ _ _ _ Hrun Hle).
Qed.

Lemma inter_route_2opt_mono fuel fuel' rs m sol :
  TwoOptVRP.inter_route_2opt P fuel rs m = Some sol → fuel ≤ fuel' →
  TwoOptVRP.inter_route_2opt P fuel' rs m = Some sol.
Proof.
  unfold TwoOptVRP.inter_route_2opt.
  intros (st & Hrun & ->)%fmap_solution_Some Hle.
  by rewrite (run_loop_mono _ _ _ _ _ _ Hrun Hle).
Qed.

Lemma improve_returns_le rs m sol :
  improve_returns P rs m sol → (TwoOptVRP.total_distance sol <= total rs)%Q.
Proof.
  intros (n & _ & ->)%improve_returns_iff. simpl.
  apply pass_state_distance_le, improve_pass_ok.
Qed.

Lemma inter_returns_le rs m sol :
  inter_returns P rs m sol → (TwoOptVRP.total_distance sol <= total rs)%Q.
Proof.
  intros (n & _ & ->)%inter_returns_iff. simpl.
  apply pass_state_distance_le, inter_pass_ok.
Qed.

End HybridFacts.

Lemma rearranged_lengths (rs' rs : list (list nat)) :
  Forall2 rearranged rs' rs → length <$> rs' = length <$> rs.
Proof.
  induction 1 as [|r' r rs' rs (Hperm & _) _ IH]; [done|].
  by rewrite !fmap_cons, IH, (Permutation_length Hperm).
Qed.


(** X25.  When the hybrid approach has a feasible solution to start from,
    its two improvement steps keep every customer served once and every
    route at its number of customers, and the distance does not grow
    from one step to the next; started from the nearest-neighbour
    solution the result is feasible.  Over a non-negative distance
    matrix both steps return. *)
Theorem hybrid_approach_improves (P : Problem) :
  (∀ fuel h,
     VrpExample.demonstrate_hybrid_approach P fuel = Some (Some h) →
     let best := VrpExample.best_initial h in
     let step1 := VrpExample.step1_solution h in
     let final := VrpExample.final_solution h in
     VrpExample.choose_initial P = Some best
     ∧ concat (TwoOptVRP.routes final) ≡ₚ seq 0 (num_customers P)
     ∧ length <$> TwoOptVRP.routes final = length <$> VrpExample.routes best
     ∧ length (TwoOptVRP.routes final) ≤ num_vehicles P
     ∧ (TwoOptVRP.total_distance final <= TwoOptVRP.total_distance step1)%Q
     ∧ (TwoOptVRP.total_distance step1 <= VrpExample.total_distance best)%Q
     ∧ (VrpExample.best_method best = VrpExample.NearestNeighbor →
        TwoOptVRP.feasible final = true))
  ∧ (∀ fuel,
       VrpExample.demonstrate_hybrid_approach P fuel = Some None
       ↔ VrpExample.choose_initial P = None)
  ∧ (dist_nonneg P →
     ∃ fuel result,
       VrpExample.demonstrate_hybrid_approach P fuel = Some result).
Proof.
  split; [|split].
  - intros fuel h. unfold VrpExample.demonstrate_hybrid_approach.
    destruct (VrpExample.choose_initial P) as [best|] eqn:Hbest;
      [|discriminate].
    destruct (TwoOptVRP.improve_solution P fuel (VrpExample.routes best) 200)
      as [step1|] eqn:H1; [|discriminate].
    simpl.
    destruct (TwoOptVRP.inter_route_2opt P fuel (TwoOptVRP.routes step1) 200)
      as [final|] eqn:H2; [|discriminate].
    simpl. intros [= <-]. simpl.
    destruct (chosen_initial_ok P best Hbest)
      as (Hcover & _ & Hlen & Hdist & Hcap).
    assert (Hr1 : improve_returns P (VrpExample.routes best) 200 step1)
      by (by exists fuel).
    assert (Hr2 : inter_returns P (TwoOptVRP.routes step1) 200 final)
      by (by exists fuel).
    destruct (improve_returns_routes P _ _ _ Hr1) as (Hp1 & Hc1 & Hl1).
    destruct (inter_returns_routes P _ _ _ Hr2) as (Hp2 & Hc2 & Hl2).
    split; [done|]. split; [by rewrite Hp2, Hp1|].
    split.
    { rewrite (inter_returns_lengths P _ _ _ Hr2).
      apply rearranged_lengths. by apply (improve_returns_rearranged P _ 200). }
    split; [lia|]. split.
    { eapply Qle_trans; [apply (inter_returns_le P _ _ _ Hr2)|].
      rewrite (improve_returns_distance P _ _ _ Hr1). apply Qle_refl. }
    split.
    { eapply Qle_trans; [apply (improve_returns_le P _ _ _ Hr1)|].
      rewrite Hdist. apply Qle_refl. }
    intros Hm. apply (inter_returns_feasible P _ _ _ Hr2). auto.
  - intros fuel. unfold VrpExample.demonstrate_hybrid_approach.
    destruct (VrpExample.choose_initial P) as [best|]; [|done].
    split; [|discriminate].
    destruct (TwoOptVRP.improve_solution P fuel (VrpExample.routes best) 200)
      as [step1|]; [|discriminate].
    simpl.
    destruct (TwoOptVRP.inter_route_2opt P fuel (TwoOptVRP.routes step1) 200);
      discriminate.
  - intros Hnn. unfold VrpExample.demonstrate_hybrid_approach.
    destruct (VrpExample.choose_initial P) as [best|]; [|by exists 0, None].
    destruct (improve_solution_total P (VrpExample.routes best) 200 Hnn)
      as [step1 H1].
    destruct (inter_route_2opt_total P (TwoOptVRP.routes step1) 200 Hnn)
      as [final H2].
    set (f1 := enough_fuel P (VrpExample.routes best)) in *.
    set (f2 := enough_fuel P (TwoOptVRP.routes step1)) in *.
    exists (f1 `max` f2). eexists.
    rewrite (improve_solution_mono P f1 (f1 `max` f2) _ _ _ H1
               (Nat.le_max_l f1 f2)).
    unfold mbind, option_bind.
    rewrite (inter_route_2opt_mono P f2 (f1 `max` f2) _ _ _ H2
               (Nat.le_max_r f1 f2)).
    reflexivity.
Qed.

Lemma hybrid_approach_improves_witness :
  ∃ h,
    VrpExample.demonstrate_hybrid_approach P6 20 = Some (Some h)
    ∧ concat (TwoOptVRP.routes (VrpExample.final_solution h))
      ≡ₚ seq 0 (num_customers P6)
    ∧ (TwoOptVRP.total_distance (VrpExample.final_solution h)
       <= TwoOptVRP.total_distance (VrpExample.step1_solution h))%Q
    ∧ (TwoOptVRP.total_distance (VrpExample.step1_solution h)
       <= VrpExample.total_distance (VrpExample.best_initial h))%Q.
Proof.
  eexists. split; [vm_compute; reflexivity|].
  match goal with
  | |- context [VrpExample.final_solution ?h] =>
      destruct (proj1 (hybrid_approach_improves P6) 20 h)
        as (_ & Hcover & _ & _ & Hle2 & Hle1 & _);
      [vm_compute; reflexivity|]
  end.
  split; [exact Hcover|]. split; [exact Hle2|exact Hle1].
Defined.

(** ** The improvement loop: which route is changed *)

Section ImproverPolicy.
Variable P : Problem.

#[local] Abbreviation rdist := (TwoOptVRP._calculate_route_distance P).
#[local] Abbreviation is_feasible := (TwoOptVRP._is_route_feasible P).
#[local] Abbreviation ipass := (TwoOptVRP.improve_pass P).


(** No move is accepted on a route that is over capacity. *)
Lemma improve_route_infeasible route :
  is_feasible route = false →
  TwoOptVRP._improve_route_2opt P route = (route, 0%Q).
Proof.
  intros Hinf.
  destruct (improve_route_2opt_spec P route) as ([Hres|Hmove] & _ & _);
    [done|].
  destruct Hmove as (i & j & Hij & Hj & Hres & Hfeas & _).
  rewrite Hres in Hfeas. simpl in Hfeas.
  rewrite (is_feasible_perm P _ _ (two_opt_move_perm route i j Hij)) in Hfeas.
  congruence.
Qed.

Lemma improve_pass_keeps_infeasible st k r :
  TwoOptVRP.current_routes st !! k = Some r → is_feasible r = false →
  TwoOptVRP.current_routes (ipass st) !! k = Some r.
Proof.
  intros Hk Hinf.
  destruct (TwoOptVRP.scan_routes P 0 (TwoOptVRP.current_routes st))
    as [[[idx r'] imp]|] eqn:Hscan.
  - rewrite (improve_pass_Some P _ _ _ _ Hscan). simpl.
    apply scan_routes_Some in Hscan as (r0 & _ & Hr0 & _ & Himp & Hgain).
    rewrite Nat.sub_0_r in Hr0.
    destruct (decide (idx = k)) as [->|Hne].
    + rewrite Hk in Hr0. injection Hr0 as <-.
      rewrite (improve_route_infeasible r Hinf) in Himp.
      injection Himp as <- <-. unfold threshold in Hgain. lra.
    + by rewrite list_lookup_insert_ne.
  - by rewrite (improve_pass_None P _ Hscan).
Qed.

End ImproverPolicy.



(** X27.  [improve_solution] never changes a route that is over capacity:
    every 2-opt move keeps the load of the route, so the feasibility
    test rejects them all, and the route is returned as it was given,
    shorter alternatives or not. *)
Theorem improve_solution_skips_overloaded (P : Problem)
    (rs : list (list nat)) (m : Z) (sol : TwoOptVRP.Solution)
    (idx : nat) (r : list nat) :
  improve_returns P rs m sol →
  rs !! idx = Some r → TwoOptVRP._is_route_feasible P r = false →
  TwoOptVRP.routes sol !! idx = Some r.
Proof.
  intros (n & _ & ->)%improve_returns_iff Hr Hinf. simpl.
  unfold pass_state. induction n as [|n IH]; [done|].
  simpl. by apply improve_pass_keeps_infeasible.
Qed.

Lemma improve_solution_skips_overloaded_witness :
  ∃ sol,
    TwoOptVRP.improve_solution P8 3 crossed_route 10 = Some sol
    ∧ TwoOptVRP.routes sol !! 0 = Some zigzag
    ∧ (TwoOptVRP._calculate_route_distance P8 (TwoOptVRP.two_opt_move zigzag 0 2)
       < TwoOptVRP._calculate_route_distance P8 zigzag)%Q.
Proof.
  eexists. split; [reflexivity|]. split.
  - apply (improve_solution_skips_overloaded P8 crossed_route 10 _ 0 zigzag).
    + exists 3. reflexivity.
    + reflexivity.
    + reflexivity.
  - reflexivity.
Defined.

(** X28.  With a budget of zero or less neither loop runs a pass: both
    functions return the routes they were given, with their distance,
    zero iterations and the feasibility of the input, whatever the
    routes. *)
Theorem nonpositive_budget_returns_input (P : Problem)
    (rs : list (list nat)) (m : Z) (fuel : nat) :
  (m <= 0)%Z →
  let unchanged :=
    {| TwoOptVRP.routes := rs;
       TwoOptVRP.total_distance := TwoOptVRP._calculate_total_distance P rs;
       TwoOptVRP.num_vehicles_used := length rs;
       TwoOptVRP.improvement_iterations := 0;
       TwoOptVRP.feasible := TwoOptVRP._check_feasibility P rs |} in
  TwoOptVRP.improve_solution P fuel rs m = Some unchanged
  ∧ TwoOptVRP.inter_route_2opt P fuel rs m = Some unchanged.
Proof.
  intros Hm unchanged.
  unfold TwoOptVRP.improve_solution, TwoOptVRP.inter_route_2opt.
  rewrite !run_loop_unfold. unfold loop_cond. simpl.
  replace (0 <? m)%Z with false by (symmetry; apply Z.ltb_ge; lia).
  done.
Qed.

Lemma nonpositive_budget_returns_input_witness :
  TwoOptVRP.improve_solution P4 0 crossed_route 0
  = Some {| TwoOptVRP.routes := crossed_route;
            TwoOptVRP.total_distance :=
              TwoOptVRP._calculate_total_distance P4 crossed_route;
            TwoOptVRP.num_vehicles_used := length crossed_route;
            TwoOptVRP.improvement_iterations := 0;
            TwoOptVRP.feasible :=
              TwoOptVRP._check_feasibility P4 crossed_route |}.
Proof.
  apply (proj1 (nonpositive_budget_returns_input P4 crossed_route 0 0
                  ltac:(lia))).
Defined.

(** ** The savings constructor: bookkeeping and ties *)

(** X29.  The three structures the savings [solve] updates stay
    consistent through the merging loop, up to the state it ends in:
    the routes partition the customers, [customer_to_route] names for
    each customer a route that holds it, and [route_loads] holds the
    demand sum of each route. *)
Theorem savings_bookkeeping_invariant (P : Problem) :
  (∀ st, reachable P st → minv P st)
  ∧ reachable P
      (SavingsAlgorithmVRP.merge_loop P (SavingsAlgorithmVRP.savings_list P)
         (SavingsAlgorithmVRP.initial_state P)).
Proof.
  split.
  - apply reachable_minv.
  - apply solve_state_reachable.
Qed.

Lemma savings_bookkeeping_invariant_witness :
  minv P6
    (SavingsAlgorithmVRP.merge_loop P6 (SavingsAlgorithmVRP.savings_list P6)
       (SavingsAlgorithmVRP.initial_state P6)).
Proof.
  apply (proj1 (savings_bookkeeping_invariant P6)).
  apply (proj2 (savings_bookkeeping_invariant P6)).
Defined.

Section SortStability.
Context {A : Type} (key : A → Q) (before : A → A → bool).
Hypothesis before_false :
  ∀ x y, before x y = false → ¬ (key x == key y)%Q.

Lemma insert_sorted_filter v x l :
  filter (λ e, Qeq_bool (key e) v = true) (insert_sorted before x l)
  = filter (λ e, Qeq_bool (key e) v = true) (x :: l).
Proof.
  induction l as [|y l IH]; [done|].
  simpl. destruct (before x y) eqn:Hb; [done|].
  apply before_false in Hb.
  destruct (decide (Qeq_bool (key x) v = true)) as [Hx|Hx].
  - assert (Hy : ¬ Qeq_bool (key y) v = true).
    { intros Hy. apply Hb. apply Qeq_bool_iff in Hx, Hy.
      by rewrite Hx, Hy. }
    rewrite (filter_cons_False _ y) by done.
    rewrite IH. rewrite !(filter_cons_True _ x) by done.
    by rewrite (filter_cons_False _ y) by done.
  - rewrite (filter_cons_False _ x (y :: l)) by done.
    destruct (decide (Qeq_bool (key y) v = true)) as [Hy|Hy].
    + rewrite !(filter_cons_True _ y) by done.
      rewrite IH. by rewrite (filter_cons_False _ x) by done.
    + rewrite !(filter_cons_False _ y) by done.
      rewrite IH. by rewrite (filter_cons_False _ x) by done.
Qed.

Lemma stable_sort_filter v l :
  filter (λ e, Qeq_bool (key e) v = true) (stable_sort before l)
  = filter (λ e, Qeq_bool (key e) v = true) l.
Proof.
  induction l as [|x l IH]; [done|].
  simpl. rewrite insert_sorted_filter.
  destruct (decide (Qeq_bool (key x) v = true)) as [Hx|Hx].
  - rewrite !(filter_cons_True _ x) by done. by rewrite IH.
  - rewrite !(filter_cons_False _ x) by done. by rewrite IH.
Qed.

End SortStability.

(** X30.  Sorting the savings list keeps ties in the order of generation:
    the entries of any one savings value stand in the sorted list as
    they were appended, by increasing [i] and then increasing [j]. *)
Theorem savings_ties_keep_generation_order (P : Problem) (v : Q) :
  filter (λ e, Qeq_bool e.2 v = true) (SavingsAlgorithmVRP.savings_list P)
  = (λ ij, (ij.1, ij.2, SavingsAlgorithmVRP.savings_value P ij.1 ij.2))
      <$> filter
            (λ ij, Qeq_bool (SavingsAlgorithmVRP.savings_value P ij.1 ij.2) v
                   = true)
            (SavingsAlgorithmVRP.customer_pairs (num_customers P)).
Proof.
  unfold SavingsAlgorithmVRP.savings_list, SavingsAlgorithmVRP._calculate_savings.
  rewrite (stable_sort_filter (λ e : nat * nat * Q, e.2)).
  - unfold SavingsAlgorithmVRP.unsorted_savings.
    induction (SavingsAlgorithmVRP.customer_pairs (num_customers P))
      as [|ij l IH]; [done|].
    rewrite fmap_cons.
    destruct (decide (Qeq_bool (SavingsAlgorithmVRP.savings_value P ij.1 ij.2) v
                      = true)) as [Hx|Hx].
    + rewrite !filter_cons_True by done. rewrite fmap_cons. by rewrite IH.
    + rewrite !filter_cons_False by done. by rewrite IH.
  - intros x y Hb Heq.
    assert (Qle_bool y.2 x.2 = true) as Hle
      by (apply Qle_bool_iff; rewrite Heq; apply Qle_refl).
    congruence.
Qed.
